(** * The M x N sliding puzzle of project_puzzle (run.cpp, autoMxN.cpp)

    A shallow embedding of the solvability test, the repair loop and the
    constructive solver, and the properties the specification states about
    them.  C++ [int]s are modelled as [Z] (signed overflow is undefined
    behaviour and is not modelled), [/] and [%] as [Z.quot] and [Z.rem],
    the array [int puzzle[]] as a [list Z] read and written by index, and
    [vector<char>] as a list of keys. *)

From stdpp Require Import base list relations.
From Stdlib Require Import ZArith Lia Ascii.

Open Scope Z_scope.

(** ** Data model *)

(** The blank cell holds [-1]. *)
Definition BLANK : Z := -1.

(** The four characters the solver ever passes to [change]:
    ['W'] (blank up), ['A'] (blank left), ['S'] (blank down), ['D'] (blank right). *)
Inductive key := kW | kA | kS | kD.

Global Instance key_eq_dec : EqDecision key.
Proof. solve_decision. Defined.

(** What a run can end in besides a value. [OutOfRange] is an array access
    outside [puzzle] (undefined behaviour in the source), [OutOfFuel] is a
    [while] loop that used up the iterations granted to it. *)
Inductive error := NotFound | OutOfBounds | OutOfRange | OutOfFuel.

Inductive result (A : Type) :=
| Ok (a : A)
| Err (e : error).
Arguments Ok {A} a.
Arguments Err {A} e.

Definition rbind {A B} (m : result A) (k : A -> result B) : result B :=
  match m with
  | Ok a => k a
  | Err e => Err e
  end.

Declare Scope result_scope.
Delimit Scope result_scope with result.
Notation "x <- m ;; k" := (rbind m (fun x => k))
  (at level 100, m at next level, right associativity) : result_scope.
Notation "m ;; k" := (rbind m (fun _ => k))
  (at level 100, right associativity) : result_scope.
Open Scope result_scope.

(** [puzzle[k]] *)
Definition rd (puzzle : list Z) (k : Z) : result Z :=
  if k <? 0 then Err OutOfRange
  else match puzzle !! Z.to_nat k with
       | Some v => Ok v
       | None => Err OutOfRange
       end.

(** [swap(puzzle[i], puzzle[j])] *)
Definition swap (puzzle : list Z) (i j : Z) : result (list Z) :=
  x <- rd puzzle i;;
  y <- rd puzzle j;;
  Ok (<[Z.to_nat j := x]> (<[Z.to_nat i := y]> puzzle)).

(** [for (int i = lo; i < hi; i++) body] threading an accumulator. *)
Fixpoint rloop {A} (n : nat) (i : Z) (body : Z -> A -> result A) (a : A) : result A :=
  match n with
  | O => Ok a
  | S n' => a' <- body i a;; rloop n' (i + 1) body a'
  end.

Definition rfor {A} (lo hi : Z) (body : Z -> A -> result A) (a : A) : result A :=
  rloop (Z.to_nat (hi - lo)) lo body a.

(** ** my_function.h: [find] and [change] *)

Fixpoint find_from (cells : list Z) (v : Z) (k : Z) : result Z :=
  match cells with
  | [] => Err NotFound
  | x :: rest => if x =? v then Ok k else find_from rest v (k + 1)
  end.

(** Modelled from the spec: [find] is declared in my_function.h and defined
    in a file that is not part of the sources at hand.  Section 4.1:
    "locate(value) -> cell index: linear scan, errors (fails with NotFound)
    only if value absent". It scans the [M*N] cells of the board. *)
Definition find (M N : Z) (puzzle : list Z) (v : Z) : result Z :=
  find_from (take (Z.to_nat (M * N)) puzzle) v 0.

(** Modelled from the spec: [change] is declared in my_function.h and
    defined in a file that is not part of the sources at hand.  Section 4.2:
    "let blank be at row r, col c. UP requires r>0, swaps blank with (r-1,c);
    DOWN requires r<M-1, swaps with (r+1,c); LEFT/RIGHT analogous on columns.
    Fails with OutOfBounds if the precondition is violated". *)
Definition change (M N : Z) (puzzle : list Z) (c : key) : result (list Z) :=
  pos <- find M N puzzle BLANK;;
  let r := pos ÷ N in
  let col := Z.rem pos N in
  match c with
  | kW => if 0 <? r then swap puzzle pos (pos - N) else Err OutOfBounds
  | kS => if r <? M - 1 then swap puzzle pos (pos + N) else Err OutOfBounds
  | kA => if 0 <? col then swap puzzle pos (pos - 1) else Err OutOfBounds
  | kD => if col <? N - 1 then swap puzzle pos (pos + 1) else Err OutOfBounds
  end.

(** ** run.cpp: the solvability test *)

(** The body of the inner loop of [sum_of_reverse_number]; [num] is the
    [int] that the source toggles with [num = !num]. *)
Definition reverse_step (puzzle : list Z) (i j : Z) (num : Z) : result Z :=
  pi <- rd puzzle i;;
  if pi =? -1 then Ok num
  else
    pj <- rd puzzle j;;
    if pj =? -1 then Ok num
    else if pj <? pi then Ok (if num =? 0 then 1 else 0)
    else Ok num.

Definition sum_of_reverse_number (M N : Z) (puzzle : list Z) : result bool :=
  num <- rfor 0 (M * N)
           (fun i num => rfor (i + 1) (M * N) (fun j num => reverse_step puzzle i j num) num) 0;;
  Ok (negb (num =? 0)).

Definition can_solve (M N : Z) (puzzle : list Z) : result bool :=
  b <- sum_of_reverse_number M N puzzle;;
  let num := (if b then 1 else 0) : Z in
  if Z.rem N 2 =? 1 then Ok (Z.rem num 2 =? 0)
  else
    pos <- find M N puzzle (-1);;
    let row := pos ÷ N in
    let move := (M - 1) - row in
    Ok (Z.rem (num + move) 2 =? 0).

(** ** run.cpp: the repair loop of [reshuffle] *)

(** The [for] loop that swaps the first two consecutively indexed cells that
    are both tiles, then [break]s.  [n] counts the indices still to visit. *)
Fixpoint swap_first (n : nat) (i : Z) (puzzle : list Z) : result (list Z) :=
  match n with
  | O => Ok puzzle
  | S n' =>
      pi <- rd puzzle i;;
      if pi =? -1 then swap_first n' (i + 1) puzzle
      else
        pj <- rd puzzle (i + 1);;
        if pj =? -1 then swap_first n' (i + 1) puzzle
        else swap puzzle i (i + 1)
  end.

(** [while (!mark) { ... }]: the state is the board and the boards handed to
    [print_puzzle], one per iteration. *)
Fixpoint reshuffle_loop (fuel : nat) (M N : Z) (puzzle : list Z) (mark : bool)
    (shown : list (list Z)) : result (list Z * list (list Z)) :=
  if mark then Ok (puzzle, shown)
  else match fuel with
       | O => Err OutOfFuel
       | S fuel' =>
           puzzle' <- swap_first (Z.to_nat (M * N)) 0 puzzle;;
           mark' <- can_solve M N puzzle';;
           reshuffle_loop fuel' M N puzzle' mark' (shown ++ [puzzle'])
       end.


(** ** run.cpp: setting up a game *)

(** [puzzle[k] = v] *)
Definition wr (puzzle : list Z) (k v : Z) : result (list Z) :=
  if k <? 0 then Err OutOfRange
  else match puzzle !! Z.to_nat k with
       | Some _ => Ok (<[Z.to_nat k := v]> puzzle)
       | None => Err OutOfRange
       end.

(** [for (int i=0;i<M*N-1;i++) puzzle[i] = i+1;  puzzle[M*N-1] = -1;] on
    the array [int puzzle[M*N]] just declared: [puzzle] is what its cells
    happen to hold. *)
Definition initialize (M N : Z) (puzzle : list Z) : result (list Z) :=
  p <- rfor 0 (M * N - 1) (fun i p => wr p i (i + 1)) puzzle;;
  wr p (M * N - 1) (-1).



(** ** autoMxN.cpp: the solver *)

(** What the solver writes to the console: a rendering of the board (the
    screen is cleared and [print_puzzle] is called), the line "The solution
    of row #i is:", or one key of the solution. *)
Inductive event :=
| Screen (cells : list Z)
| RowReport (i : Z)
| Printed (c : key).

(** The memory the solver works on: the array [puzzle], the vector [sol],
    the global flag [printout], and the console.  [history] is not a
    variable of the program: it lists the successive contents of [puzzle],
    one per call of [change], so that properties of whole runs can be
    stated. *)
Record state := State {
  puzzle : list Z;
  sol : list key;
  printout : bool;
  console : list event;
  history : list (list Z)
}.

(** A computation ends with a value, or stops on an error; in both cases
    the memory it leaves is known. *)
Inductive outcome (A : Type) :=
| Done (a : A) (s : state)
| Halt (e : error) (s : state).
Arguments Done {A} a s.
Arguments Halt {A} e s.

Definition comp (A : Type) := state -> outcome A.

Definition ret {A} (a : A) : comp A := fun s => Done a s.
Definition bind {A B} (m : comp A) (k : A -> comp B) : comp B :=
  fun s => match m s with
           | Done a s' => k a s'
           | Halt e s' => Halt e s'
           end.
Definition fail {A} (e : error) : comp A := fun s => Halt e s.
Definition lift {A} (r : result A) : comp A :=
  fun s => match r with Ok a => Done a s | Err e => Halt e s end.

Declare Scope comp_scope.
Delimit Scope comp_scope with comp.
Bind Scope comp_scope with comp.
Notation "x <- m ;; k" := (bind m (fun x => k))
  (at level 100, m at next level, right associativity) : comp_scope.
Notation "m ;; k" := (bind m (fun _ => k))
  (at level 100, right associativity) : comp_scope.

(** [puzzle[k]] and [find(M,N,puzzle,v)] on the current board. *)
Definition peek (k : Z) : comp Z := fun s => lift (rd (puzzle s) k) s.
Definition locate (M N v : Z) : comp Z := fun s => lift (find M N (puzzle s) v) s.

Definition get {A} (f : state -> A) : comp A := fun s => Done (f s) s.
Definition set_puzzle (p : list Z) : comp unit :=
  fun s => Done tt (State p (sol s) (printout s) (console s) (history s ++ [p])).
Definition set_sol (l : list key) : comp unit :=
  fun s => Done tt (State (puzzle s) l (printout s) (console s) (history s)).
Definition set_printout (b : bool) : comp unit :=
  fun s => Done tt (State (puzzle s) (sol s) b (console s) (history s)).
Definition emit (e : event) : comp unit :=
  fun s => Done tt (State (puzzle s) (sol s) (printout s) (console s ++ [e]) (history s)).

(** [if (printout) { system("cls"); printf(...); print_puzzle(M,N,puzzle); }] *)
Definition render : comp unit :=
  (b <- get printout;;
   if b then (p <- get puzzle;; emit (Screen p)) else ret tt)%comp.

(** [change(M,N,puzzle,c)] on the current board. *)
Definition apply_change (M N : Z) (c : key) : comp unit :=
  (p <- get puzzle;;
   p' <- lift (change M N p c);;
   set_puzzle p')%comp.

Definition auto_change (M N : Z) (c : key) : comp unit :=
  (apply_change M N c;;
   l <- get sol;;
   set_sol (l ++ [c]);;
   render)%comp.

Fixpoint append_each (M N : Z) (s : list key) : comp unit :=
  match s with
  | [] => ret tt
  | c :: s' => (apply_change M N c;; render;; append_each M N s')%comp
  end.

Definition append (M N : Z) (s : list key) : comp unit :=
  (l <- get sol;;
   set_sol (l ++ s);;
   append_each M N s)%comp.

(** [for (int i = 1; i <= n; i++) body] *)
Fixpoint times (n : nat) (body : comp unit) : comp unit :=
  match n with
  | O => ret tt
  | S n' => (body;; times n' body)%comp
  end.

Definition move_h (M N : Z) (c : Z) : comp unit :=
  (pos <- locate M N (-1);;
   let c_b := Z.rem pos N in
   let d := c_b - c in
   if 0 <? d then times (Z.to_nat d) (auto_change M N kA)
   else times (Z.to_nat (-1 * d)) (auto_change M N kD))%comp.

Definition move_v (M N : Z) (r : Z) : comp unit :=
  (pos <- locate M N (-1);;
   let r_b := pos ÷ N in
   let d := r_b - r in
   if 0 <? d then times (Z.to_nat d) (auto_change M N kW)
   else times (Z.to_nat (-1 * d)) (auto_change M N kS))%comp.

(** A statement of a function that may [return] early: [true] means the
    function has returned. *)
Definition stmt (m : comp unit) : comp bool := (m;; ret false)%comp.
Definition andthen (a b : comp bool) : comp bool :=
  (r <- a;; if r then ret true else b)%comp.
Infix ">>>" := andthen (at level 65, right associativity).

(** [for (int i = lo; i <= hi; i++) body], where [body] may return. *)
Fixpoint repeat_le (n : nat) (i : Z) (body : Z -> comp bool) : comp bool :=
  match n with
  | O => ret false
  | S n' => body i >>> repeat_le n' (i + 1) body
  end.
Definition for_le (lo hi : Z) (body : Z -> comp bool) : comp bool :=
  repeat_le (Z.to_nat (hi - lo + 1)) lo body.

(** [while (cond) body] *)
Fixpoint while (fuel : nat) (cond : comp bool) (body : comp unit) : comp unit :=
  (b <- cond;;
   if b then
     match fuel with
     | O => fail OutOfFuel
     | S fuel' => body;; while fuel' cond body
     end
   else ret tt)%comp.

Section Solver.
Variables M N : Z.

Let auto_change := auto_change M N.
Let append := append M N.
Let move_h := move_h M N.
Let move_v := move_v M N.
Let find := locate M N.

(** [if (puzzle[i*N+j]==num) return;] *)
Definition placed (i j num : Z) : comp bool :=
  (v <- peek (i * N + j);; ret (v =? num))%comp.

(** move puzzle[r*N+c] --> i*N+j *)
Definition move (r c i j : Z) : comp unit :=
  (num <- peek (r * N + c);;
   let arrived := placed i j num in
   let dir := c <? j in
   let same_c := c =? j in
   _ <-
     ((if negb (c =? j) then
         stmt (pos <- find (-1);;
               if pos ÷ N =? i then auto_change kS else ret tt) >>>
         arrived >>>
         stmt (if dir then move_h (c + 1) else move_h (c - 1)) >>>
         arrived >>>
         stmt (move_v r) >>>
         arrived >>>
         (if negb (r =? M - 1) then
            if dir then
              stmt (auto_change kA) >>> arrived >>>
              for_le 2 (j - c) (fun _ => stmt (append [kS; kD; kD; kW; kA]))
            else
              stmt (auto_change kD) >>> arrived >>>
              for_le 2 (c - j) (fun _ => stmt (append [kS; kA; kA; kW; kD]))
          else
            if dir then
              stmt (auto_change kA) >>> arrived >>>
              for_le 2 (j - c) (fun _ => stmt (append [kW; kD; kD; kS; kA]))
            else
              stmt (auto_change kD) >>> arrived >>>
              for_le 2 (c - j) (fun _ => stmt (append [kW; kA; kA; kS; kD])))
       else ret false) >>>
      (if negb (r =? i) then
         let d_r := r - i in
         (if same_c then
            if negb (r =? i + 1) then
              stmt (move_v (r - 1)) >>> arrived >>>
              stmt (move_h c) >>> arrived
            else
              stmt (move_v (r + 1)) >>> arrived >>>
              stmt (move_h (c + 1)) >>> arrived >>>
              stmt (move_v (r - 1)) >>> arrived >>>
              stmt (move_h c) >>> arrived
          else if dir then
            (if negb (r =? M - 1) then
               stmt (append [kS; kD; kD; kW; kW; kA]) >>> arrived
             else
               stmt (auto_change kW) >>> arrived >>>
               stmt (auto_change kD) >>> arrived) >>>
            stmt (auto_change kS) >>> arrived
          else
            stmt (auto_change kW) >>> arrived >>>
            stmt (auto_change kA) >>> arrived) >>>
         stmt (auto_change kS) >>>
         (* the loop variable is named i in the source and hides the target
            row in the test that follows the macro *)
         for_le 2 d_r (fun i' => stmt (append [kD; kW; kW; kA; kS]) >>> placed i' j num)
       else ret false));;
   ret tt)%comp.

(** [for (int k = 2; k <= hi; k++) body] *)
Definition from2 (hi : Z) (body : comp unit) : comp unit :=
  times (Z.to_nat (hi - 1)) body.

(** Solves columns N-2 and N-1 of row i. *)
Definition solve_1x2 (i : Z) : comp unit :=
  (pos <- find (-1);;
   (if pos ÷ N =? i then auto_change kS else ret tt);;
   pos <- find (i * N + N);;
   let r2 := pos ÷ N in
   let c2 := Z.rem pos N in
   (if r2 <? i + 2 then
      move_v (i + 2);;
      move_h c2;;
      move_v (r2 + 1);;
      auto_change kW;;
      if negb (c2 =? N - 1) then from2 (i + 2 - r2) (append [kD; kS; kS; kA; kW])
      else from2 (i + 2 - r2) (append [kA; kS; kS; kD; kW])
    else ret tt);;
   pos <- find (i * N + N - 1);;
   let r1 := pos ÷ N in
   let c1 := Z.rem pos N in
   pos_b <- find (-1);;
   let r_b := pos_b ÷ N in
   (if r1 =? r_b then auto_change kS else ret tt);;
   let same_c := c1 =? N - 1 in
   r1 <-
     (if negb (c1 =? N - 1) then
        move_h (c1 + 1);;
        move_v r1;;
        auto_change kA;;
        pos <- find (i * N + N - 1);;
        let r1 := pos ÷ N in
        let c1 := Z.rem pos N in
        let d := N - 1 - c1 in
        times (Z.to_nat d)
          (if negb (r1 =? M - 1) then append [kS; kD; kD; kW; kA]
           else append [kW; kD; kD; kS; kA]);;
        ret r1
      else ret r1);;
   (if negb (r1 =? i + 1) then
      (if same_c then move_h (N - 1);; move_v r1 else ret tt);;
      if r1 =? i then append [kS; kD; kW; kA; kS]
      else
        auto_change kW;;
        auto_change kD;;
        auto_change kS;;
        let d := r1 - (i + 1) in
        from2 d (append [kA; kW; kW; kD; kS])
    else ret tt);;
   temp <- find (i * N + N);;
   let r2 := temp ÷ N in
   let c2 := Z.rem temp N in
   (if (r2 =? i) && (c2 =? N - 1) then
      move_h (N - 2);;
      move_v i;;
      append [kD; kS; kA; kW; kD; kS; kS; kA; kW; kW; kD; kS; kS; kA; kW; kD; kS; kA]
    else
      pos_b <- find (-1);;
      let r_b := pos_b ÷ N in
      let same_c := c2 =? N - 1 in
      (if negb (c2 =? N - 1) then
         (if r2 =? r_b then auto_change kS else ret tt);;
         (if negb (c2 =? N - 2) then
            move_h (c2 + 1);;
            move_v r2
          else if negb (r2 =? i + 2) then
            move_v (r2 - 1);;
            move_h (c2 + 1);;
            move_v r2
          else
            move_h (c2 - 1);;
            move_v (r2 + 1);;
            move_h (c2 + 1);;
            move_v r2);;
         auto_change kA;;
         from2 (N - 1 - c2)
           (if negb (r2 =? M - 1) then append [kS; kD; kD; kW; kA]
            else append [kW; kD; kD; kS; kA])
       else ret tt);;
      if negb (r2 =? i + 2) then
        (if same_c then move_h (N - 2);; move_v r2 else ret tt);;
        auto_change kW;;
        auto_change kD;;
        auto_change kS;;
        let d := r2 - (i + 2) in
        from2 d (append [kA; kW; kW; kD; kS])
      else ret tt);;
   move_h (N - 2);;
   move_v i;;
   append [kD; kS; kS; kA; kW; kW; kD; kS])%comp.

(** [while (c1 != i) { append(s); c1--; }] *)
Fixpoint countdown (fuel : nat) (c1 i : Z) (s : list key) : comp unit :=
  if negb (c1 =? i) then
    match fuel with
    | O => fail OutOfFuel
    | S fuel' => (append s;; countdown fuel' (c1 - 1) i s)%comp
    end
  else ret tt.

(** The body of the loop of [solve_2x1], for column i. *)
Definition solve_2x1_col (fuel : nat) (i : Z) : comp unit :=
  (pos1 <- find ((M - 2) * N + i + 1);;
   let r1 := pos1 ÷ N in
   let c1 := Z.rem pos1 N in
   (if negb (r1 =? M - 1) then
      move_v (M - 1);;
      move_h c1;;
      auto_change kW
    else ret tt);;
   (if negb (c1 =? i) then
      move_v (M - 2);;
      move_h (c1 - 1);;
      move_v (M - 1);;
      auto_change kD;;
      countdown fuel (c1 - 1) i [kW; kA; kA; kS; kD]
    else ret tt);;
   pos2 <- find ((M - 1) * N + i + 1);;
   let r2 := pos2 ÷ N in
   let c2 := Z.rem pos2 N in
   (if (r2 =? M - 2) && (c2 =? i) then
      move_v (M - 2);;
      move_h (i + 1);;
      append [kA; kS; kD; kD; kW; kA; kS; kA; kW; kD; kS; kD; kW; kA; kS; kD; kW; kA; kA; kS; kD]
    else
      corner <- (if (r2 =? M - 2) && (c2 =? i + 1)
                 then v <- peek ((M - 2) * N + i);; ret (v =? -1)
                 else ret false);;
      if corner then
        append [kS; kD; kD; kW; kA; kS; kA; kW; kD; kS; kD; kW; kA; kS; kD; kW; kA; kA; kS; kD]
      else
        (if negb (r2 =? M - 1) then
           move_h (i + 1);;
           move_v (M - 1);;
           move_h c2;;
           auto_change kW
         else ret tt);;
        if negb (c2 =? i + 1) then
          move_v (M - 2);;
          move_h (c2 - 1);;
          move_v (M - 1);;
          auto_change kD;;
          countdown fuel (c2 - 1) (i + 1) [kW; kA; kA; kS; kD]
        else ret tt);;
   v <- peek ((M - 2) * N + i);;
   if negb (v =? (M - 2) * N + i + 1) then
     move_v (M - 2);;
     move_h i;;
     auto_change kS;;
     auto_change kD
   else ret tt)%comp.

(** [for (int i = lo; ...; i++) body(i)] over [n] consecutive values. *)
Fixpoint upfrom (n : nat) (i : Z) (body : Z -> comp unit) : comp unit :=
  match n with
  | O => ret tt
  | S n' => (body i;; upfrom n' (i + 1) body)%comp
  end.

Definition solve_2x1 (fuel : nat) : comp unit :=
  upfrom (Z.to_nat (N - 2)) 0 (solve_2x1_col fuel).

(** [while (puzzle[i*N+j] != num) { pos = find(num); move(pos/N, pos%N, i, j); }] *)
Definition place (fuel : nat) (num i j : Z) : comp unit :=
  while fuel (v <- peek (i * N + j);; ret (negb (v =? num)))
    (pos <- find num;;
     let r := pos ÷ N in
     let c := Z.rem pos N in
     move r c i j)%comp.

(** The first index [k] in [lo .. lo + n - 1] with [puzzle[k] != k+1]
    decides the flag; the scan stops there ([break]). *)
Fixpoint all_home (n : nat) (k : Z) : comp bool :=
  match n with
  | O => ret true
  | S n' => (v <- peek k;; if negb (v =? k + 1) then ret false else all_home n' (k + 1))%comp
  end.

(** Prints the keys of [sol] one by one, counting them. *)
Fixpoint print_sol (l : list key) (step : Z) : comp Z :=
  match l with
  | [] => ret step
  | c :: l' => (emit (Printed c);; print_sol l' (step + 1))%comp
  end.

(** The report that ends a phase: with [printout] the keys are printed and
    counted one by one, without it only [sol.size()] is added to [step]. *)
Definition report (step : Z) : comp Z :=
  (b <- get printout;;
   l <- get sol;;
   if b then print_sol l step else ret (step + Z.of_nat (length l)))%comp.

(** The body of the loop over the rows 0 .. M-4. *)
Definition solve_row (fuel : nat) (i step : Z) : comp Z :=
  (upfrom (Z.to_nat (N - 2)) 0 (fun j => place fuel (i * N + j + 1) i j);;
   solve_1x2 i;;
   correct <- all_home 3 ((i + 1) * N - 3);;
   (if negb correct then append [kA; kW; kD; kS] else ret tt);;
   check <- all_home (Z.to_nat N) (i * N);;
   if check then
     b <- get printout;;
     (if b then p <- get puzzle;; emit (Screen p);; emit (RowReport i) else ret tt);;
     step' <- report step;;
     set_sol [];;
     ret step'
   else ret step)%comp.

Fixpoint solve_rows (fuel : nat) (n : nat) (i step : Z) : comp Z :=
  match n with
  | O => ret step
  | S n' => (step' <- solve_row fuel i step;; solve_rows fuel n' (i + 1) step')%comp
  end.

(** The block guarded by [if (M >= 3)]: row M-3. *)
Definition last_three (fuel : nat) : comp unit :=
  (let i := M - 3 in
   upfrom (Z.to_nat (N - 2)) 0 (fun j => place fuel (i * N + j + 1) i j);;
   place fuel ((i + 1) * N) i (N - 2);;
   let num := (i + 1) * N - 1 in
   pos <- find num;;
   let r := pos ÷ N in
   let c := Z.rem pos N in
   if (r =? M - 3) && (c =? N - 1) then
     move_h (N - 2);;
     move_v (M - 2);;
     append [kW; kD; kS; kS; kA; kW; kD; kS; kA; kW; kW; kD; kS; kA; kW; kD; kS; kS; kA; kW; kW; kD; kS; kS]
   else
     place fuel num (M - 2) (N - 2);;
     move_v (M - 1);;
     move_h (N - 1);;
     move_v (M - 3);;
     auto_change kA;;
     auto_change kS)%comp.

(** The test of the last [while] of [autosolve]; [||] reads its operands
    left to right and stops at the first that holds. *)
Definition block_wrong : comp bool :=
  (a <- peek (M * N - 2);;
   if negb (a =? M * N - 1) then ret true
   else
     b <- peek ((M - 1) * N - 1);;
     if negb (b =? (M - 1) * N) then ret true
     else
       c <- peek ((M - 1) * N - 2);;
       ret (negb (c =? (M - 1) * N - 1)))%comp.

(** The [switch] on the character read at the "Print out the solution?
    [y/n]" prompt. *)
Definition answer (c : ascii) : comp unit :=
  match c with
  | "Y"%char | "y"%char => set_printout true
  | "N"%char | "n"%char => set_printout false
  | _ => ret tt
  end.

(** The last [while] of [autosolve]: the macro A, W, D, S is applied until
    the three tiles of the bottom-right block are home. *)
Definition endgame (fuel : nat) : comp unit :=
  while fuel block_wrong (append [kA; kW; kD; kS]).

(** [autosolve], [c] being the character read at the prompt; it returns
    [step]. Messages, pauses and the clock are left out. *)
Definition autosolve (fuel : nat) (c : ascii) : comp Z :=
  (set_printout true;;
   answer c;;
   step <- solve_rows fuel (Z.to_nat (M - 3)) 0 0;;
   (if 3 <=? M then last_three fuel else ret tt);;
   solve_2x1 fuel;;
   move_h (N - 1);;
   move_v (M - 1);;
   endgame fuel;;
   step <- report step;;
   set_sol [];;
   p <- get puzzle;;
   emit (Screen p);;
   ret step)%comp.

End Solver.

(** [autosolve(M, N, puzzle, sol)] called on a board and a vector, with the
    answer typed at the prompt: the value returned and the memory left. *)
Definition run_autosolve (fuel : nat) (M N : Z) (puzzle0 : list Z) (sol0 : list key)
    (c : ascii) : outcome Z :=
  autosolve M N fuel c (State puzzle0 sol0 true [] []).

(** * The vocabulary of the properties *)

(** Boards, the parity rule, legal slides and what a run leaves on the
    console, as the properties below speak of them. *)

(** ** Boards and the parity rule *)

(** The tiles [y] of [rest] that make a reversed pair with an earlier cell
    holding [x]: none when [x] is the blank. *)
Definition below (x : Z) (rest : list Z) : nat :=
  if x =? -1 then 0%nat
  else length (filter (fun y => y ≠ -1 /\ y < x) rest).

(** The number of pairs [(i, j)] with [i < j], both cells tiles, and
    [puzzle[i] > puzzle[j]]. *)
Fixpoint reverse_pairs (p : list Z) : nat :=
  match p with
  | [] => 0%nat
  | x :: rest => (below x rest + reverse_pairs rest)%nat
  end.

(** The index of the first cell of [l] that holds [v] ([length l] when none does). *)
Fixpoint position (v : Z) (l : list Z) : nat :=
  match l with
  | [] => 0%nat
  | x :: rest => if x =? v then 0%nat else S (position v rest)
  end.

(** The board in canonical order: cell [k] holds [k+1], the last cell is blank. *)
Definition solved_board (M N : Z) : list Z :=
  (Z.of_nat <$> seq 1 (Z.to_nat (M * N) - 1)) ++ [-1].

(** The permutation invariant: every value of 1 .. M*N-1 once, one blank. *)
Definition valid_board (M N : Z) (p : list Z) : Prop :=
  p ≡ₚ solved_board M N.

Global Instance valid_board_dec (M N : Z) (p : list Z) : Decision (valid_board M N p).
Proof. unfold valid_board. apply _. Defined.

(** The row of the blank, as the rule of the specification uses it. *)
Definition blank_row (N : Z) (p : list Z) : Z := Z.of_nat (position (-1) p) / N.

(** The closed-form rule of section 4.1. *)
Definition parity_rule (M N : Z) (p : list Z) : bool :=
  if Z.odd N then Nat.even (reverse_pairs p)
  else Z.even (Z.of_nat (reverse_pairs p) + (M - 1 - blank_row N p)).

(** [p'] is [p] with the distinct contents of cells [k] and [k+1] exchanged. *)
Definition adjacent_swap (p p' : list Z) (k : nat) : Prop :=
  exists l1 a b l2,
    length l1 = k /\ p = l1 ++ a :: b :: l2 /\ p' = l1 ++ b :: a :: l2 /\ a ≠ b.

(** Cells [k] and [k+1] both hold tiles. *)
Definition both_tiles (p : list Z) (k : nat) : Prop :=
  exists a b, p !! k = Some a /\ p !! S k = Some b /\ a ≠ -1 /\ b ≠ -1.

(** ** Runs with and without printout *)

(** Two memories that differ at most in [printout] and in the console. *)
Definition agree (s s' : state) : Prop :=
  puzzle s = puzzle s' /\ sol s = sol s' /\ history s = history s'.

Definition same {A} (o o' : outcome A) : Prop :=
  match o, o' with
  | Done a s, Done a' s' => a = a' /\ agree s s'
  | Halt e s, Halt e' s' => e = e' /\ agree s s'
  | _, _ => False
  end.

(** Started in memories that agree, the two computations end alike. *)
Definition alike {A} (m m' : comp A) : Prop :=
  forall s s', agree s s' -> same (m s) (m' s').

(** ** Runs with a larger loop allowance *)

Definition settled {A} (o : outcome A) : Prop :=
  match o with
  | Halt OutOfFuel _ => False
  | _ => True
  end.

Definition steady {A} (m : nat -> comp A) : Prop :=
  forall (f f' : nat) (s : state), (f <= f')%nat -> settled (m f s) -> m f' s = m f s.

(** ** Printed keys and their replay *)

(** The keys written to the console, in order. *)
Fixpoint printed (co : list event) : list key :=
  match co with
  | [] => []
  | Printed c :: rest => c :: printed rest
  | _ :: rest => printed rest
  end.

(** The boards that the keys [l] produce one after the other from [p]. *)
Fixpoint boards (M N : Z) (l : list key) (p : list Z) : list (list Z) :=
  match l with
  | [] => []
  | c :: l' =>
      match change M N p c with
      | Ok p' => p' :: boards M N l' p'
      | Err _ => []
      end
  end.

(** The macro A, W, D, S turns the three tiles of the bottom-right block of
    this 2 x 3 board around; tile 5 stays outside the block, in the cell of
    tile 4. *)
Definition wheel (s : state) : Prop :=
  puzzle s = [1; 2; 4; 5; 3; -1] \/ puzzle s = [1; 4; 3; 5; 2; -1]
  \/ puzzle s = [1; 3; 2; 5; 4; -1].

(** The keys [l] handed to [change] one after the other, from board [p]. *)
Fixpoint replay (M N : Z) (l : list key) (p : list Z) : result (list Z) :=
  match l with
  | [] => Ok p
  | c :: l' => p' <- change M N p c;; replay M N l' p'
  end.

(** With [printout] on, the keys printed so far followed by those waiting
    in [sol] lead from the initial board [p0] to the current one. *)
Definition logged (M N : Z) (p0 : list Z) (s : state) : Prop :=
  printout s = true
  /\ replay M N (printed (console s) ++ sol s) p0 = Ok (puzzle s).

Definition keeps (M N : Z) (p0 : list Z) {A} (m : comp A) : Prop :=
  forall s a s', logged M N p0 s -> m s = Done a s' -> logged M N p0 s'.

(** ** Legal slides *)

(** [slides N c p p']: key [c] is a legal slide of the blank on board [p],
    of rows of [N] cells, and gives [p']. *)
Inductive slides (N : Z) : key -> list Z -> list Z -> Prop :=
| slides_A (l1 l2 : list Z) (x : Z) :
    -1 ∉ l1 -> x ≠ -1 -> (Z.of_nat (length l1) + 1) mod N ≠ 0 ->
    slides N kA (l1 ++ x :: -1 :: l2) (l1 ++ -1 :: x :: l2)
| slides_D (l1 l2 : list Z) (x : Z) :
    -1 ∉ l1 -> x ≠ -1 -> (Z.of_nat (length l1) + 1) mod N ≠ 0 ->
    slides N kD (l1 ++ -1 :: x :: l2) (l1 ++ x :: -1 :: l2)
| slides_W (l1 mid l2 : list Z) (x : Z) :
    -1 ∉ l1 -> x ≠ -1 -> -1 ∉ mid -> x ∉ mid -> Z.of_nat (length mid) + 1 = N ->
    slides N kW (l1 ++ x :: mid ++ -1 :: l2) (l1 ++ -1 :: mid ++ x :: l2)
| slides_S (l1 mid l2 : list Z) (x : Z) :
    -1 ∉ l1 -> x ≠ -1 -> -1 ∉ mid -> x ∉ mid -> Z.of_nat (length mid) + 1 = N ->
    slides N kS (l1 ++ -1 :: mid ++ x :: l2) (l1 ++ x :: mid ++ -1 :: l2).

(** ** The last 2 x 2 block *)

(** The board with [a], [b] over [c] and the blank in the block; [H1] are
    the cells before the block, [H2] those between its two rows. *)
Definition block (H1 H2 : list Z) (a b c : Z) : list Z := H1 ++ a :: b :: H2 ++ [c; -1].

(** The index of the top-left cell of the block, and the home cells
    around the block. *)
Definition corner (M N : Z) : nat := Z.to_nat ((M - 2) * N + N - 2).
Definition before_block (M N : Z) : list Z := Z.of_nat <$> seq 1 (corner M N).
Definition inside_block (M N : Z) : list Z :=
  Z.of_nat <$> seq (corner M N + 3) (Z.to_nat (N - 2)).

(** ** Finalized rows on the console *)

(** The first [n] cells hold 1, 2, ..., n. *)
Definition home_prefix (n : nat) (p : list Z) : bool :=
  bool_decide (take n p = Z.of_nat <$> seq 1 n).

(** Reads the console of a run with printout: once row [i] has been
    reported ("The solution of row #i is:"), every board shown later must
    still have the cells of rows 0 .. i home. [cells] is the number of cells
    finalized so far. *)
Fixpoint finalized_kept (N : Z) (cells : nat) (co : list event) : bool :=
  match co with
  | [] => true
  | RowReport i :: rest => finalized_kept N (Z.to_nat ((i + 1) * N)) rest
  | Screen p :: rest => home_prefix cells p && finalized_kept N cells rest
  | Printed _ :: rest => finalized_kept N cells rest
  end.

Global Instance event_eq_dec : EqDecision event.
Proof. solve_decision. Defined.

(** What the console shows after the report of row [i]. *)
Fixpoint after_report (i : Z) (co : list event) : option (list event) :=
  match co with
  | [] => None
  | RowReport j :: rest => if j =? i then Some rest else after_report i rest
  | _ :: rest => after_report i rest
  end.

(** ** Boards reached by slides *)

(** [rot3 t t']: three consecutive entries of [t], starting at an even
    index, are turned: a b c becomes c a b. *)
Inductive rot3 : list Z -> list Z -> Prop :=
| rot3_at (u v : list Z) (a b c : Z) :
    Nat.even (length u) = true ->
    rot3 (u ++ a :: b :: c :: v) (u ++ c :: a :: b :: v).

Definition turns : list Z -> list Z -> Prop := rtc rot3.

(** Exchanges the values [a] and [b]. *)
Definition tr (a b x : Z) : Z :=
  if decide (x = a) then b else if decide (x = b) then a else x.

(** [step N p p']: on a board of rows of [N] cells the blank changes place
    with a neighbour in its row or in its column. *)
Inductive step (N : Z) : list Z -> list Z -> Prop :=
| step_row (l1 l2 : list Z) (x y : Z) :
    x = -1 \/ y = -1 -> (Z.of_nat (length l1) + 1) mod N ≠ 0 ->
    step N (l1 ++ x :: y :: l2) (l1 ++ y :: x :: l2)
| step_col (l1 mid l2 : list Z) (x y : Z) :
    x = -1 \/ y = -1 -> Z.of_nat (length mid) + 1 = N ->
    step N (l1 ++ x :: mid ++ y :: l2) (l1 ++ y :: mid ++ x :: l2).

Definition reach (N : Z) : list Z -> list Z -> Prop := rtc (step N).

(** The tiles of a board, in the order of the cells. *)
Definition tiles (l : list Z) : list Z := filter (fun x => x ≠ -1) l.

(** The cells of a board of two columns, read row after row, every second
    row from right to left: neighbours in this order are neighbours on the
    board. *)
Fixpoint sn (l : list Z) : list Z :=
  match l with
  | a :: b :: c :: d :: r => a :: b :: d :: c :: sn r
  | _ => l
  end.

(** A board of two columns, turned over its diagonal, is a board of two
    rows: [ev] is the first column, [od] the second. *)
Fixpoint ev (l : list Z) : list Z :=
  match l with
  | a :: _ :: r => a :: ev r
  | _ => []
  end.

Fixpoint od (l : list Z) : list Z :=
  match l with
  | _ :: b :: r => b :: od r
  | _ => []
  end.

(** The way back: the two rows become the two columns. *)
Fixpoint il (r0 r1 : list Z) : list Z :=
  match r0, r1 with
  | a :: r0', b :: r1' => a :: b :: il r0' r1'
  | _, _ => []
  end.

(** [arranges M N]: on boards of [M] rows of [N] cells, two boards with the
    same cells and the same answer of the parity rule can be reached from
    each other. *)
Definition arranges (M N : Z) : Prop :=
  forall p q : list Z,
    NoDup p -> -1 ∈ p -> Z.of_nat (length p) = M * N -> p ≡ₚ q ->
    parity_rule M N p = parity_rule M N q -> reach N p q.

(** ** What a computation leaves behind *)

(** The memory a computation leaves, whether it returns or stops on an
    error. *)
Definition final {A} (o : outcome A) : state :=
  match o with
  | Done _ s => s
  | Halt _ s => s
  end.

(** [obeys R H m]: the memory in which [m] returns is related by [R] to the
    memory it started in, and the memory in which it stops on an error is
    related to it by [H]. *)
Definition obeys (R H : state -> state -> Prop) {A} (m : comp A) : Prop :=
  forall s, match m s with
            | Done _ s' => R s s'
            | Halt _ s' => H s s'
            end.

(** No condition. *)
Definition whatever (s s' : state) : Prop := True.

(** The board holds the same cells, in some order. *)
Definition same_cells (s s' : state) : Prop := puzzle s' ≡ₚ puzzle s.

(** A board with the permutation invariant is still one, and [can_solve]
    answers the same. *)
Definition same_answer (M N : Z) (s s' : state) : Prop :=
  valid_board M N (puzzle s) ->
  valid_board M N (puzzle s') /\ can_solve M N (puzzle s') = can_solve M N (puzzle s).

(** [sol] has grown by the keys that lead from the old board to the new
    one, and [change] was called once for each of them. *)
Definition logs_moves (M N : Z) (s s' : state) : Prop :=
  exists l, sol s' = sol s ++ l
            /\ replay M N l (puzzle s) = Ok (puzzle s')
            /\ length (history s') = (length (history s) + length l)%nat.

(** With [printout] off nothing is written to the console, and the flag
    stays off. *)
Definition quiet (s s' : state) : Prop :=
  printout s = false -> printout s' = false /\ console s' = console s.

(** The keys waiting in [sol], less the calls of [change] made so far. *)
Definition tally (s : state) : Z :=
  Z.of_nat (length (sol s)) - Z.of_nat (length (history s)).

(** [autosolve] after the prompt, in two phases: the solving proper, which
    delivers [step] as it stands after the reports of the rows, and the
    last report with the final display of the board. *)
Definition solving (M N : Z) (fuel : nat) : comp Z :=
  (step <- solve_rows M N fuel (Z.to_nat (M - 3)) 0 0;;
   (if 3 <=? M then last_three M N fuel else ret tt);;
   solve_2x1 M N fuel;;
   move_h M N (N - 1);;
   move_v M N (M - 1);;
   endgame M N fuel;;
   ret step)%comp.

Definition closing (step : Z) : comp Z :=
  (step <- report step;;
   set_sol [];;
   p <- get puzzle;;
   emit (Screen p);;
   ret step)%comp.

(** ** Where the blank goes *)

(** The cell of the blank and its column; its row is [blank_row]. *)
Definition blank_cell (p : list Z) : Z := Z.of_nat (position (-1) p).
Definition blank_col (N : Z) (p : list Z) : Z := blank_cell p mod N.

(** The cell that a key exchanges with the blank, counted from the cell of
    the blank. *)
Definition offset (N : Z) (c : key) : Z :=
  match c with
  | kW => - N
  | kS => N
  | kA => -1
  | kD => 1
  end.

(** The condition under which [change] accepts a key, the blank being in
    cell [pos]. *)
Definition legal (M N : Z) (pos : Z) (c : key) : Prop :=
  match c with
  | kW => N <= pos
  | kS => pos + N < M * N
  | kA => 0 < pos mod N
  | kD => pos mod N < N - 1
  end.

(** ** Reports of rows *)

(** Row [i] of the board is in canonical order. *)
Definition row_home (N i : Z) (p : list Z) : Prop :=
  forall j, 0 <= j < N -> rd p (i * N + j) = Ok (i * N + j + 1).

(** Reads a stretch of the console: each report of a row comes right
    after a display of the board, and on the board displayed that row is in
    canonical order. [prev] is the board displayed by the event just
    before, if that was a display. *)
Fixpoint reports_after (N : Z) (prev : option (list Z)) (co : list event) : Prop :=
  match co with
  | [] => True
  | Screen p :: rest => reports_after N (Some p) rest
  | RowReport i :: rest =>
      match prev with
      | Some p => row_home N i p
      | None => False
      end /\ reports_after N None rest
  | Printed _ :: rest => reports_after N None rest
  end.

(** The console has grown by such a stretch. *)
Definition reports_rows (N : Z) (s s' : state) : Prop :=
  exists co, console s' = console s ++ co /\ reports_after N None co.

(** * Properties *)

(** ** Reading the array *)

Lemma rd_lookup (p : list Z) (k : nat) (v : Z) :
  p !! k = Some v -> rd p (Z.of_nat k) = Ok v.
Proof.
  intros H. unfold rd.
  destruct (Z.ltb_spec (Z.of_nat k) 0) as [Hneg|_]; [lia|].
  by rewrite Nat2Z.id, H.
Qed.

Lemma rd_Ok (p : list Z) (k v : Z) :
  rd p k = Ok v <-> 0 <= k /\ p !! Z.to_nat k = Some v.
Proof.
  unfold rd. destruct (Z.ltb_spec k 0) as [Hneg|Hpos].
  - split; [discriminate | lia].
  - destruct (p !! Z.to_nat k) as [w|] eqn:E.
    + split; [intros [= ->]; done | intros [_ [= ->]]; done].
    + split; [discriminate | intros [_ ?]; discriminate].
Qed.

(** ** The inversion count, as the specification words it *)

(** [num = !num] on an [int] that is 0 or 1. *)
Lemma toggle_b2z (b : bool) : (if Z.b2z b =? 0 then 1 else 0) = Z.b2z (negb b).
Proof. by destruct b. Qed.

Lemma below_cons (x y : Z) (rest : list Z) :
  below x (y :: rest) =
  ((if (Z.eqb x (-1) || Z.eqb y (-1) || negb (Z.ltb y x))%bool then 0 else 1) + below x rest)%nat.
Proof.
  unfold below. destruct (Z.eqb_spec x (-1)) as [->|Hx]; [done|]. simpl.
  rewrite filter_cons.
  destruct (Z.eqb_spec y (-1)) as [->|Hy]; simpl.
  - done.
  - destruct (Z.ltb_spec y x); simpl; case_decide as Hd; try done; lia.
Qed.

(** The inner loop of [sum_of_reverse_number], started at index [j]. *)
Lemma inner_loop (p : list Z) (i : Z) (x : Z) :
  rd p i = Ok x ->
  forall (n : nat) (j : nat) (b : bool),
    (j + n = length p)%nat ->
    rloop n (Z.of_nat j) (fun j num => reverse_step p i j num) (Z.b2z b)
    = Ok (Z.b2z (xorb b (Nat.odd (below x (drop j p))))).
Proof.
  intros Hx n. induction n as [|n IH]; intros j b Hlen.
  - simpl. rewrite drop_ge by lia. unfold below.
    destruct (x =? -1); simpl; by rewrite xorb_false_r.
  - assert (is_Some (p !! j)) as [y Hy] by (apply lookup_lt_is_Some; lia).
    rewrite (drop_S _ _ _ Hy), below_cons. simpl rloop.
    unfold reverse_step at 1. rewrite Hx. simpl rbind.
    rewrite (rd_lookup _ _ _ Hy). simpl rbind.
    replace (Z.of_nat j + 1) with (Z.of_nat (S j)) by lia.
    destruct (x =? -1) eqn:Ex; simpl.
    { rewrite IH by lia. done. }
    destruct (y =? -1) eqn:Ey; simpl.
    { rewrite IH by lia. done. }
    destruct (y <? x) eqn:Elt; simpl.
    + rewrite toggle_b2z, IH by lia. f_equal. f_equal.
      rewrite Nat.odd_succ, <- Nat.negb_odd. by destruct b, (Nat.odd _).
    + rewrite IH by lia. done.
Qed.

(** The outer loop, started at index [i]. *)
Lemma outer_loop (M N : Z) (p : list Z) :
  Z.of_nat (length p) = M * N ->
  forall (n : nat) (i : nat) (b : bool),
    (i + n = length p)%nat ->
    rloop n (Z.of_nat i)
      (fun i num => rfor (i + 1) (M * N) (fun j num => reverse_step p i j num) num) (Z.b2z b)
    = Ok (Z.b2z (xorb b (Nat.odd (reverse_pairs (drop i p))))).
Proof.
  intros HMN n. induction n as [|n IH]; intros i b Hlen.
  - simpl. rewrite drop_ge by lia. simpl. by rewrite xorb_false_r.
  - assert (is_Some (p !! i)) as [x Hx] by (apply lookup_lt_is_Some; lia).
    rewrite (drop_S _ _ _ Hx). simpl rloop. unfold rfor at 1.
    replace (Z.of_nat i + 1) with (Z.of_nat (S i)) by lia.
    rewrite (inner_loop p (Z.of_nat i) x (rd_lookup _ _ _ Hx)) by lia.
    simpl rbind. rewrite IH by lia. f_equal. f_equal. simpl reverse_pairs.
    rewrite Nat.odd_add. by destruct b, (Nat.odd _), (Nat.odd _).
Qed.

Lemma sum_of_reverse_number_parity (M N : Z) (p : list Z) :
  Z.of_nat (length p) = M * N ->
  sum_of_reverse_number M N p = Ok (Nat.odd (reverse_pairs p)).
Proof.
  intros HMN. unfold sum_of_reverse_number, rfor.
  pose proof (outer_loop M N p HMN (length p) 0 false eq_refl) as H.
  rewrite Z.sub_0_r, <- HMN, Nat2Z.id. rewrite <- HMN in H.
  change (Z.of_nat 0) with 0 in H. change (Z.b2z false) with 0 in H.
  unfold rfor in H. rewrite H. simpl. by destruct (Nat.odd _).
Qed.

(** ** Locating a value *)

Lemma position_lookup (v : Z) (l : list Z) : v ∈ l -> l !! position v l = Some v.
Proof.
  induction l as [|x l IH]; intros Hin; [by apply elem_of_nil in Hin|].
  simpl. destruct (Z.eqb_spec x v) as [->|Hne]; [done|].
  apply elem_of_cons in Hin as [->|Hin]; [done|]. by apply IH.
Qed.

Lemma position_lt (v : Z) (l : list Z) : v ∈ l -> (position v l < length l)%nat.
Proof. intros H. eapply lookup_lt_Some, position_lookup, H. Qed.

Lemma position_first (v : Z) (l : list Z) (n : nat) :
  l !! n = Some v -> (position v l <= n)%nat.
Proof.
  revert n. induction l as [|x l IH]; intros n Hn; [done|].
  simpl. destruct (Z.eqb_spec x v) as [->|Hne]; [lia|].
  destruct n as [|n]; simpl in Hn; [congruence|]. apply IH in Hn. lia.
Qed.

Lemma position_unique (v : Z) (l : list Z) (n : nat) :
  NoDup l -> l !! n = Some v -> position v l = n.
Proof.
  intros Hnd Hn.
  assert (v ∈ l) as Hin by (apply list_elem_of_lookup; eauto).
  eapply NoDup_lookup; [exact Hnd | by apply position_lookup | exact Hn].
Qed.

Lemma find_from_position (v : Z) (l : list Z) (k : Z) :
  v ∈ l -> find_from l v k = Ok (k + Z.of_nat (position v l)).
Proof.
  revert k. induction l as [|x l IH]; intros k Hin; [by apply elem_of_nil in Hin|].
  simpl. destruct (Z.eqb_spec x v) as [->|Hne]; [f_equal; lia|].
  apply elem_of_cons in Hin as [->|Hin]; [done|].
  rewrite IH by done. f_equal. lia.
Qed.

Lemma find_from_absent (v : Z) (l : list Z) (k : Z) :
  v ∉ l -> find_from l v k = Err NotFound.
Proof.
  revert k. induction l as [|x l IH]; intros k Hin; [done|].
  simpl. apply not_elem_of_cons in Hin as [Hne Hin].
  destruct (Z.eqb_spec x v) as [->|_]; [done|]. by apply IH.
Qed.

Lemma find_position (M N : Z) (p : list Z) (v : Z) :
  Z.of_nat (length p) = M * N -> v ∈ p ->
  find M N p v = Ok (Z.of_nat (position v p)).
Proof.
  intros Hlen Hin. unfold find.
  rewrite <- Hlen, Nat2Z.id, firstn_all.
  by rewrite find_from_position.
Qed.

(** ** Boards *)

Lemma solved_board_length (M N : Z) :
  1 <= M * N -> Z.of_nat (length (solved_board M N)) = M * N.
Proof.
  intros H. unfold solved_board.
  rewrite length_app, length_fmap, length_seq. simpl. lia.
Qed.

Lemma solved_board_NoDup (M N : Z) : NoDup (solved_board M N).
Proof.
  unfold solved_board. apply NoDup_app. split; [|split].
  - apply NoDup_fmap_2; [apply Nat2Z.inj' | apply NoDup_seq].
  - intros x Hx Hb. apply list_elem_of_singleton in Hb as ->.
    apply list_elem_of_fmap in Hx as (n & Hn & _). lia.
  - apply NoDup_singleton.
Qed.

Lemma valid_board_length (M N : Z) (p : list Z) :
  1 <= M * N -> valid_board M N p -> Z.of_nat (length p) = M * N.
Proof. intros H Hp. rewrite Hp. by apply solved_board_length. Qed.

Lemma valid_board_NoDup (M N : Z) (p : list Z) : valid_board M N p -> NoDup p.
Proof. intros Hp. rewrite Hp. apply solved_board_NoDup. Qed.

Lemma valid_board_blank (M N : Z) (p : list Z) : valid_board M N p -> -1 ∈ p.
Proof.
  intros Hp. rewrite Hp. unfold solved_board.
  apply elem_of_app. right. apply list_elem_of_singleton. done.
Qed.

Lemma valid_board_tile (M N : Z) (p : list Z) (v : Z) :
  valid_board M N p -> v ∈ p -> v = -1 \/ 1 <= v < M * N.
Proof.
  intros Hp. rewrite Hp. unfold solved_board. intros Hin.
  apply elem_of_app in Hin as [Hin|Hin].
  - right. apply list_elem_of_fmap in Hin as (n & -> & Hn).
    apply elem_of_seq in Hn. lia.
  - left. by apply list_elem_of_singleton in Hin.
Qed.

Lemma even_of_nat (k : nat) : Z.even (Z.of_nat k) = Nat.even k.
Proof.
  destruct (Nat.even k) eqn:E.
  - apply Nat.even_spec in E as [m ->].
    rewrite Nat2Z.inj_mul, Z.even_mul. done.
  - assert (Nat.odd k = true) as Ho by (rewrite <- Nat.negb_even, E; done).
    apply Nat.odd_spec in Ho as [m ->].
    rewrite Nat2Z.inj_add, Nat2Z.inj_mul, Z.even_add, Z.even_mul. done.
Qed.

Lemma rem2_even (x : Z) : (Z.rem x 2 =? 0) = Z.even x.
Proof.
  destruct (Z.even x) eqn:E.
  - apply Z.even_spec in E as [k ->]. apply Z.eqb_eq.
    rewrite Z.mul_comm. apply Z.rem_mul. lia.
  - apply Z.eqb_neq. intros H.
    apply Z.rem_divide in H; [|lia]. destruct H as [k ->].
    rewrite Z.even_mul in E. simpl in E. by rewrite orb_true_r in E.
Qed.

Lemma rem2_odd (x : Z) : 0 <= x -> (Z.rem x 2 =? 1) = Z.odd x.
Proof.
  intros Hx. rewrite Z.rem_mod_nonneg by lia.
  rewrite Zmod_odd. by destruct (Z.odd x).
Qed.

(** ** The solvability test *)

Lemma can_solve_parity (M N : Z) (p : list Z) :
  Z.of_nat (length p) = M * N ->
  can_solve M N p =
  if Z.rem N 2 =? 1 then Ok (Nat.even (reverse_pairs p))
  else pos <- find M N p (-1);;
       Ok (Z.even (Z.of_nat (reverse_pairs p) + (M - 1 - pos ÷ N))).
Proof.
  intros Hlen. unfold can_solve.
  rewrite (sum_of_reverse_number_parity M N p Hlen). simpl rbind.
  set (k := reverse_pairs p).
  destruct (Z.rem N 2 =? 1).
  - f_equal. rewrite rem2_even, <- Nat.negb_odd. by destruct (Nat.odd k).
  - destruct (find M N p (-1)) as [pos|e]; [|done]. simpl. f_equal.
    rewrite rem2_even, !Z.even_add. f_equal.
    rewrite even_of_nat, <- Nat.negb_odd. by destruct (Nat.odd k).
Qed.

(** C10: the boolean toggle of [sum_of_reverse_number] computes the parity
    of the number of reversed pairs of tiles: it returns true exactly when
    that number is odd, the [int] it toggles ends as 0 or 1, and the two
    tests of [can_solve] decide the parity of the count, respectively of the
    count plus the distance of the blank's row from the last row. *)
Theorem C10_toggle_refines_inversion_parity (M N : Z) (p : list Z) :
  Z.of_nat (length p) = M * N ->
  sum_of_reverse_number M N p = Ok (Nat.odd (reverse_pairs p))
  /\ rfor 0 (M * N)
       (fun i num => rfor (i + 1) (M * N) (fun j num => reverse_step p i j num) num) 0
     = Ok (Z.b2z (Nat.odd (reverse_pairs p)))
  /\ can_solve M N p =
     (if Z.rem N 2 =? 1 then Ok (Nat.even (reverse_pairs p))
      else pos <- find M N p (-1);;
           Ok (Z.even (Z.of_nat (reverse_pairs p) + (M - 1 - pos ÷ N)))).
Proof.
  intros Hlen. split; [|split].
  - by apply sum_of_reverse_number_parity.
  - pose proof (outer_loop M N p Hlen (length p) 0 false eq_refl) as H.
    unfold rfor at 1. rewrite Z.sub_0_r, <- Hlen, Nat2Z.id.
    rewrite <- Hlen in H. exact H.
  - by apply can_solve_parity.
Qed.

Lemma C10_witness :
  Z.of_nat (length [2; 1; -1; 3]) = 2 * 2
  /\ sum_of_reverse_number 2 2 [2; 1; -1; 3] = Ok true.
Proof.
  split; [reflexivity|].
  apply (C10_toggle_refines_inversion_parity 2 2 [2; 1; -1; 3]). reflexivity.
Defined.

Lemma can_solve_rule (M N : Z) (p : list Z) :
  1 <= M -> 1 <= N -> valid_board M N p ->
  can_solve M N p = Ok (parity_rule M N p).
Proof.
  intros HM HN Hp.
  assert (Z.of_nat (length p) = M * N) as Hlen by (apply valid_board_length; [nia|done]).
  rewrite (can_solve_parity M N p Hlen). unfold parity_rule.
  rewrite rem2_odd by lia. destruct (Z.odd N); [done|].
  rewrite (find_position M N p (-1) Hlen (valid_board_blank M N p Hp)). simpl.
  unfold blank_row. rewrite Z.quot_div_nonneg by lia. done.
Qed.

(** C2: on a board that satisfies the permutation invariant, [can_solve]
    returns the value of the closed-form rule: for odd [N] the number of
    reversed pairs is even; for even [N] that number plus [M-1-blank_row]
    is even. *)
Theorem C2_can_solve_closed_form (M N : Z) (p : list Z) :
  1 <= M -> 1 <= N -> valid_board M N p ->
  can_solve M N p = Ok (parity_rule M N p).
Proof. apply can_solve_rule. Qed.

Lemma C2_witness :
  1 <= 3 /\ 1 <= 3 /\ valid_board 3 3 [1; 2; 3; 4; 5; 6; 8; 7; -1]
  /\ can_solve 3 3 [1; 2; 3; 4; 5; 6; 8; 7; -1] = Ok false.
Proof.
  assert (valid_board 3 3 [1; 2; 3; 4; 5; 6; 8; 7; -1]) as Hv.
  { unfold valid_board, solved_board. simpl.
    do 6 apply Permutation_skip. apply Permutation_swap. }
  split; [lia|]. split; [lia|]. split; [exact Hv|].
  apply (C2_can_solve_closed_form 3 3 [1; 2; 3; 4; 5; 6; 8; 7; -1]); [lia|lia|exact Hv].
Defined.

(** ** The repair loop *)

Lemma below_Permutation (x : Z) (l l' : list Z) : l ≡ₚ l' -> below x l = below x l'.
Proof. intros H. unfold below. destruct (x =? -1); [done|]. by rewrite H. Qed.

Lemma reverse_pairs_swap (l1 l2 : list Z) (a b : Z) :
  a ≠ -1 -> b ≠ -1 -> a ≠ b ->
  Nat.odd (reverse_pairs (l1 ++ b :: a :: l2))
  = negb (Nat.odd (reverse_pairs (l1 ++ a :: b :: l2))).
Proof.
  intros Ha Hb Hab. induction l1 as [|x l1 IH].
  - simpl. rewrite !below_cons.
    destruct (Z.eqb_spec a (-1)); [done|]. destruct (Z.eqb_spec b (-1)); [done|].
    simpl. rewrite !Nat.odd_add, <- !Nat.negb_even.
    destruct (Z.ltb_spec a b), (Z.ltb_spec b a); try lia; simpl;
      destruct (Nat.even (below a l2)), (Nat.even (below b l2)),
        (Nat.even (reverse_pairs l2)); done.
  - simpl. rewrite !Nat.odd_add, IH.
    rewrite (below_Permutation x (l1 ++ b :: a :: l2) (l1 ++ a :: b :: l2)).
    + by destruct (Nat.odd (below _ _)), (Nat.odd (reverse_pairs _)).
    + apply Permutation_app_head, Permutation_swap.
Qed.

Lemma position_swap (l1 l2 : list Z) (a b : Z) :
  a ≠ -1 -> b ≠ -1 ->
  position (-1) (l1 ++ b :: a :: l2) = position (-1) (l1 ++ a :: b :: l2).
Proof.
  intros Ha Hb. induction l1 as [|x l1 IH]; simpl.
  - destruct (Z.eqb_spec a (-1)); [done|]. by destruct (Z.eqb_spec b (-1)).
  - by rewrite IH.
Qed.

(** Exchanging two consecutively indexed tiles turns the answer of
    [can_solve] around. *)
Lemma can_solve_swap (M N : Z) (l1 l2 : list Z) (a b : Z) (r : bool) :
  Z.of_nat (length (l1 ++ a :: b :: l2)) = M * N ->
  -1 ∈ l1 ++ a :: b :: l2 ->
  a ≠ -1 -> b ≠ -1 -> a ≠ b ->
  can_solve M N (l1 ++ a :: b :: l2) = Ok r ->
  can_solve M N (l1 ++ b :: a :: l2) = Ok (negb r).
Proof.
  intros Hlen Hin Ha Hb Hab.
  assert (Z.of_nat (length (l1 ++ b :: a :: l2)) = M * N) as Hlen'.
  { rewrite <- Hlen, !length_app. done. }
  assert (-1 ∈ l1 ++ b :: a :: l2) as Hin'.
  { rewrite !elem_of_app, !elem_of_cons in Hin |- *. tauto. }
  rewrite (can_solve_parity M N _ Hlen), (can_solve_parity M N _ Hlen').
  rewrite (find_position M N _ _ Hlen Hin), (find_position M N _ _ Hlen' Hin').
  rewrite (position_swap l1 l2 a b Ha Hb).
  pose proof (reverse_pairs_swap l1 l2 a b Ha Hb Hab) as Hodd.
  set (k := reverse_pairs (l1 ++ a :: b :: l2)) in *.
  set (k' := reverse_pairs (l1 ++ b :: a :: l2)) in *.
  assert (Nat.even k' = negb (Nat.even k)) as Hev.
  { rewrite <- !Nat.negb_odd, Hodd. done. }
  assert (Z.even (Z.of_nat k') = negb (Z.even (Z.of_nat k))) as HevZ
    by (rewrite !even_of_nat; exact Hev).
  destruct (Z.rem N 2 =? 1); simpl.
  - intros [= <-]. by rewrite Hev.
  - intros [= <-]. rewrite !Z.even_add, HevZ. f_equal.
    generalize (Z.even (Z.of_nat k)).
    generalize (Z.even (M - 1 - Z.of_nat (position (-1) (l1 ++ a :: b :: l2)) ÷ N)).
    by intros [] [].
Qed.

(** One turn of the scan of [reshuffle] at index [i]. *)
Lemma swap_first_S (n i : nat) (p : list Z) (a b : Z) :
  p !! i = Some a -> p !! S i = Some b ->
  swap_first (S n) (Z.of_nat i) p =
  if (Z.eqb a (-1) || Z.eqb b (-1))%bool then swap_first n (Z.of_nat (S i)) p
  else Ok (<[S i := a]> (<[i := b]> p)).
Proof.
  intros Ha Hb. simpl swap_first. unfold swap.
  replace (Z.of_nat i + 1) with (Z.of_nat (S i)) by lia.
  rewrite (rd_lookup _ _ _ Ha). simpl rbind.
  destruct (a =? -1); [done|].
  rewrite (rd_lookup _ _ _ Hb). simpl rbind.
  destruct (b =? -1); [done|]. simpl. by rewrite !Nat2Z.id.
Qed.

(** On a board of at least four cells with one blank the scan of
    [reshuffle] finds its pair among the first four cells. *)
Lemma swap_first_pair (M N : Z) (p : list Z) :
  2 <= M -> 2 <= N -> valid_board M N p ->
  exists l1 a b l2,
    p = l1 ++ a :: b :: l2 /\ a ≠ -1 /\ b ≠ -1 /\ a ≠ b
    /\ (forall j, (j < length l1)%nat -> ~ both_tiles p j)
    /\ swap_first (Z.to_nat (M * N)) 0 p = Ok (l1 ++ b :: a :: l2).
Proof.
  intros HM HN Hp.
  assert (Z.of_nat (length p) = M * N) as Hlen by (apply valid_board_length; [nia|done]).
  pose proof (valid_board_NoDup M N p Hp) as Hnd.
  assert (exists n, Z.to_nat (M * N) = S (S (S (S n)))) as [n ->].
  { exists (Z.to_nat (M * N) - 4)%nat. nia. }
  destruct p as [|x0 [|x1 [|x2 [|x3 rest]]]]; simpl in Hlen; try nia.
  apply NoDup_cons in Hnd as [H0 Hnd]. apply NoDup_cons in Hnd as [H1 Hnd].
  apply NoDup_cons in Hnd as [H2 _].
  apply not_elem_of_cons in H0 as [H01 H0]. apply not_elem_of_cons in H0 as [H02 H0].
  apply not_elem_of_cons in H0 as [H03 _].
  apply not_elem_of_cons in H1 as [H12 H1]. apply not_elem_of_cons in H1 as [H13 _].
  apply not_elem_of_cons in H2 as [H23 _].
  set (p := x0 :: x1 :: x2 :: x3 :: rest).
  pose proof (swap_first_S (S (S (S n))) 0 p x0 x1 eq_refl eq_refl) as S0.
  pose proof (swap_first_S (S (S n)) 1 p x1 x2 eq_refl eq_refl) as S1.
  pose proof (swap_first_S (S n) 2 p x2 x3 eq_refl eq_refl) as S2.
  change (Z.of_nat 0) with 0 in S0.
  destruct (Z.eqb_spec x0 (-1)) as [E0|E0].
  - (* blank in cell 0: cells 1 and 2 are exchanged *)
    exists [x0], x1, x2, (x3 :: rest).
    assert (x1 ≠ -1) as E1 by congruence. assert (x2 ≠ -1) as E2 by congruence.
    split; [done|]. split; [done|]. split; [done|]. split; [done|]. split.
    + intros j Hj (a & b & Ha & _ & Hna & _). simpl in Hj.
      assert (j = 0%nat) as -> by lia. simpl in Ha. congruence.
    + rewrite S0, S1. simpl orb.
      destruct (Z.eqb_spec x1 (-1)); [done|]. destruct (Z.eqb_spec x2 (-1)); [done|]. done.
  - destruct (Z.eqb_spec x1 (-1)) as [E1|E1].
    + (* blank in cell 1: cells 2 and 3 are exchanged *)
      exists [x0; x1], x2, x3, rest.
      assert (x2 ≠ -1) as E2 by congruence. assert (x3 ≠ -1) as E3 by congruence.
      split; [done|]. split; [done|]. split; [done|]. split; [done|]. split.
      * intros j Hj (a & b & Ha & Hb & Hna & Hnb). simpl in Hj.
        destruct j as [|[|j]]; simpl in Ha, Hb; [congruence|congruence|lia].
      * rewrite S0. rewrite orb_true_r. rewrite S1. simpl orb. rewrite S2.
        destruct (Z.eqb_spec x2 (-1)); [done|]. destruct (Z.eqb_spec x3 (-1)); [done|]. done.
    + (* cells 0 and 1 are exchanged *)
      exists [], x0, x1, (x2 :: x3 :: rest).
      split; [done|]. split; [done|]. split; [done|]. split; [done|]. split.
      * intros j Hj. simpl in Hj. lia.
      * rewrite S0. simpl orb. done.
Qed.

(** C4: on a board that [can_solve] rejects, the loop of [reshuffle] runs
    its body once: the first two consecutively indexed cells that both hold
    tiles are exchanged, [can_solve] accepts the result, and the loop
    stops, one board having been shown. *)
Theorem C4_repair_one_swap (M N : Z) (p : list Z) :
  2 <= M -> 2 <= N -> valid_board M N p ->
  can_solve M N p = Ok false ->
  exists (p' : list Z) (k : nat),
    both_tiles p k
    /\ (forall j, (j < k)%nat -> ~ both_tiles p j)
    /\ adjacent_swap p p' k
    /\ can_solve M N p' = Ok true
    /\ forall fuel, reshuffle_loop (S fuel) M N p false [] = Ok (p', [p']).
Proof.
  intros HM HN Hp Hno.
  destruct (swap_first_pair M N p HM HN Hp)
    as (l1 & a & b & l2 & -> & Ha & Hb & Hab & Hfirst & Hswap).
  assert (Z.of_nat (length (l1 ++ a :: b :: l2)) = M * N) as Hlen
    by (apply valid_board_length; [nia|done]).
  pose proof (can_solve_swap M N l1 l2 a b false Hlen
                (valid_board_blank M N _ Hp) Ha Hb Hab Hno) as Hyes.
  exists (l1 ++ b :: a :: l2), (length l1). repeat split.
  - exists a, b. repeat split; try done.
    + by rewrite lookup_app_r, Nat.sub_diag by lia.
    + rewrite lookup_app_r by lia. by replace (S (length l1) - length l1)%nat with 1%nat by lia.
  - exact Hfirst.
  - by exists l1, a, b, l2.
  - exact Hyes.
  - intros fuel. simpl. rewrite Hswap. simpl. rewrite Hyes. simpl.
    by destruct fuel.
Qed.

Lemma C4_witness :
  2 <= 2 /\ 2 <= 2 /\ valid_board 2 2 [2; 1; 3; -1]
  /\ can_solve 2 2 [2; 1; 3; -1] = Ok false
  /\ exists (p' : list Z) (k : nat),
       adjacent_swap [2; 1; 3; -1] p' k
       /\ reshuffle_loop 1 2 2 [2; 1; 3; -1] false [] = Ok (p', [p']).
Proof.
  assert (valid_board 2 2 [2; 1; 3; -1]) as Hv.
  { unfold valid_board, solved_board. simpl. apply Permutation_swap. }
  split; [lia|]. split; [lia|]. split; [exact Hv|]. split; [reflexivity|].
  destruct (C4_repair_one_swap 2 2 [2; 1; 3; -1]) as (p' & k & _ & _ & Hsw & _ & Hrun);
    [lia | lia | exact Hv | reflexivity |].
  exists p', k. split; [exact Hsw | apply Hrun].
Defined.

(** ** The flag [printout] only reaches the console *)

Lemma alike_ret {A} (a : A) : alike (ret a) (ret a).
Proof. intros s s' H. done. Qed.

Lemma alike_fail {A} (e : error) : alike (@fail A e) (fail e).
Proof. intros s s' H. done. Qed.

Lemma alike_bind {A B} (m m' : comp A) (k k' : A -> comp B) :
  alike m m' -> (forall a, alike (k a) (k' a)) -> alike (bind m k) (bind m' k').
Proof.
  intros Hm Hk s s' H. unfold bind. specialize (Hm s s' H).
  destruct (m s) as [a t|e t], (m' s') as [a' t'|e' t']; try done.
  destruct Hm as [-> Ht]. by apply Hk.
Qed.

Lemma alike_peek (k : Z) : alike (peek k) (peek k).
Proof.
  intros s s' (Hp & Hs & Hh). unfold peek, lift. rewrite Hp.
  by destruct (rd (puzzle s') k).
Qed.

Lemma alike_locate (M N v : Z) : alike (locate M N v) (locate M N v).
Proof.
  intros s s' (Hp & Hs & Hh). unfold locate, lift. rewrite Hp.
  by destruct (find M N (puzzle s') v).
Qed.

Lemma alike_lift {A} (r : result A) : alike (lift r) (lift r).
Proof. intros s s' H. unfold lift. by destruct r. Qed.

Lemma alike_get_puzzle : alike (get puzzle) (get puzzle).
Proof. intros s s' H. split; [apply H | done]. Qed.

Lemma alike_get_sol : alike (get sol) (get sol).
Proof. intros s s' H. split; [apply H | done]. Qed.

Lemma alike_set_puzzle (p : list Z) : alike (set_puzzle p) (set_puzzle p).
Proof. intros s s' (Hp & Hs & Hh). repeat split; simpl; congruence. Qed.

Lemma alike_set_sol (l : list key) : alike (set_sol l) (set_sol l).
Proof. intros s s' (Hp & Hs & Hh). repeat split; simpl; congruence. Qed.

Lemma alike_set_printout (b b' : bool) : alike (set_printout b) (set_printout b').
Proof. intros s s' (Hp & Hs & Hh). repeat split; simpl; congruence. Qed.

Lemma alike_emit (e e' : event) : alike (emit e) (emit e').
Proof. intros s s' (Hp & Hs & Hh). repeat split; simpl; congruence. Qed.

Lemma alike_render : alike render render.
Proof.
  intros s s' (Hp & Hs & Hh). unfold render, bind, get, emit, ret.
  destruct (printout s), (printout s'); repeat split; simpl; congruence.
Qed.

Create HintDb alike.
#[local] Hint Resolve alike_ret alike_fail alike_peek alike_locate alike_lift
  alike_get_puzzle alike_get_sol alike_set_puzzle alike_set_sol alike_emit
  alike_render : alike.

(** Walks through a computation written with [bind], [if] and [let]; what
    is left are calls, closed by the lemmas already in the database. *)
Ltac alike_step :=
  lazymatch goal with
  | |- alike (bind _ _) (bind _ _) => apply alike_bind; [|intros ?; cbv beta zeta]
  | |- alike (if ?b then _ else _) (if ?b then _ else _) => destruct b
  | |- alike _ _ => solve [eauto with alike]
  end.
Ltac alike_walk := cbv beta zeta; repeat alike_step.

Lemma alike_apply_change (M N : Z) (c : key) :
  alike (apply_change M N c) (apply_change M N c).
Proof. unfold apply_change. alike_walk. Qed.
#[local] Hint Resolve alike_apply_change : alike.

Lemma alike_auto_change (M N : Z) (c : key) :
  alike (auto_change M N c) (auto_change M N c).
Proof. unfold auto_change. alike_walk. Qed.
#[local] Hint Resolve alike_auto_change : alike.

Lemma alike_append_each (M N : Z) (l : list key) :
  alike (append_each M N l) (append_each M N l).
Proof. induction l as [|c l IH]; simpl; alike_walk. Qed.
#[local] Hint Resolve alike_append_each : alike.

Lemma alike_append (M N : Z) (l : list key) : alike (append M N l) (append M N l).
Proof. unfold append. alike_walk. Qed.
#[local] Hint Resolve alike_append : alike.

Lemma alike_times (n : nat) (m : comp unit) : alike m m -> alike (times n m) (times n m).
Proof. intros Hm. induction n as [|n IH]; simpl; alike_walk. Qed.
#[local] Hint Resolve alike_times : alike.

Lemma alike_move_h (M N c : Z) : alike (move_h M N c) (move_h M N c).
Proof. unfold move_h. alike_walk. Qed.

Lemma alike_move_v (M N r : Z) : alike (move_v M N r) (move_v M N r).
Proof. unfold move_v. alike_walk. Qed.
#[local] Hint Resolve alike_move_h alike_move_v : alike.

Lemma alike_stmt (m : comp unit) : alike m m -> alike (stmt m) (stmt m).
Proof. intros Hm. unfold stmt. alike_walk. Qed.

Lemma alike_andthen (a b : comp bool) :
  alike a a -> alike b b -> alike (a >>> b) (a >>> b).
Proof. intros Ha Hb. unfold andthen. alike_walk. Qed.

Lemma alike_repeat_le (n : nat) (i : Z) (body : Z -> comp bool) :
  (forall k, alike (body k) (body k)) ->
  alike (repeat_le n i body) (repeat_le n i body).
Proof.
  intros Hb. revert i. induction n as [|n IH]; intros i; simpl.
  - alike_walk.
  - apply alike_andthen; [apply Hb | apply IH].
Qed.

Lemma alike_for_le (lo hi : Z) (body : Z -> comp bool) :
  (forall k, alike (body k) (body k)) ->
  alike (for_le lo hi body) (for_le lo hi body).
Proof. intros Hb. by apply alike_repeat_le. Qed.

Lemma alike_while (fuel : nat) (cond : comp bool) (body : comp unit) :
  alike cond cond -> alike body body ->
  alike (while fuel cond body) (while fuel cond body).
Proof.
  intros Hc Hb. induction fuel as [|fuel IH]; simpl; alike_walk.
Qed.
#[local] Hint Resolve alike_stmt alike_andthen alike_for_le alike_while : alike.

Lemma alike_placed (N i j num : Z) : alike (placed N i j num) (placed N i j num).
Proof. unfold placed. alike_walk. Qed.
#[local] Hint Resolve alike_placed : alike.

Ltac alike_call :=
  lazymatch goal with
  | |- alike (bind _ _) (bind _ _) => apply alike_bind; [|intros ?; cbv beta zeta]
  | |- alike (if ?b then _ else _) (if ?b then _ else _) => destruct b
  | |- alike (andthen _ _) (andthen _ _) => apply alike_andthen
  | |- alike (stmt _) (stmt _) => apply alike_stmt
  | |- alike (for_le _ _ _) (for_le _ _ _) => apply alike_for_le; intros ?
  | |- alike (times _ _) (times _ _) => apply alike_times
  | |- alike (while _ _ _) (while _ _ _) => apply alike_while
  | |- alike _ _ => solve [eauto with alike]
  end.
Ltac alike_all := cbv beta zeta; repeat alike_call.

Lemma alike_move (M N r c i j : Z) : alike (move M N r c i j) (move M N r c i j).
Proof. unfold move. alike_all. Qed.
#[local] Hint Resolve alike_move : alike.

Lemma alike_solve_1x2 (M N i : Z) : alike (solve_1x2 M N i) (solve_1x2 M N i).
Proof. unfold solve_1x2, from2. alike_all. Qed.
#[local] Hint Resolve alike_solve_1x2 : alike.

Lemma alike_countdown (M N : Z) (fuel : nat) (c1 i : Z) (s : list key) :
  alike (countdown M N fuel c1 i s) (countdown M N fuel c1 i s).
Proof.
  revert c1. induction fuel as [|fuel IH]; intros c1; simpl; alike_all.
Qed.
#[local] Hint Resolve alike_countdown : alike.

Lemma alike_solve_2x1_col (M N : Z) (fuel : nat) (i : Z) :
  alike (solve_2x1_col M N fuel i) (solve_2x1_col M N fuel i).
Proof. unfold solve_2x1_col. alike_all. Qed.

Lemma alike_upfrom (n : nat) (i : Z) (body : Z -> comp unit) :
  (forall k, alike (body k) (body k)) -> alike (upfrom n i body) (upfrom n i body).
Proof.
  intros Hb. revert i. induction n as [|n IH]; intros i; simpl; alike_all.
Qed.

Lemma alike_solve_2x1 (M N : Z) (fuel : nat) :
  alike (solve_2x1 M N fuel) (solve_2x1 M N fuel).
Proof. apply alike_upfrom. intros k. apply alike_solve_2x1_col. Qed.

Lemma alike_place (M N : Z) (fuel : nat) (num i j : Z) :
  alike (place M N fuel num i j) (place M N fuel num i j).
Proof. unfold place. alike_all. Qed.

Lemma alike_all_home (n : nat) (k : Z) : alike (all_home n k) (all_home n k).
Proof. revert k. induction n as [|n IH]; intros k; simpl; alike_all. Qed.
#[local] Hint Resolve alike_solve_2x1 alike_place alike_all_home : alike.

(** Printing the keys counts them: with or without [printout] the report
    returns [step] plus the length of [sol]. *)
Lemma print_sol_counts (l : list key) (step : Z) (s : state) :
  exists s', print_sol l step s = Done (step + Z.of_nat (length l)) s'
             /\ agree s s' /\ printout s' = printout s.
Proof.
  revert step s. induction l as [|c l IH]; intros step s; simpl.
  - exists s. rewrite Z.add_0_r. done.
  - unfold bind, emit.
    destruct (IH (step + 1) (State (puzzle s) (sol s) (printout s)
                               (console s ++ [Printed c]) (history s)))
      as (s' & -> & Hag & Hpr).
    exists s'. split; [f_equal; lia|]. done.
Qed.

Lemma alike_report (step : Z) : alike (report step) (report step).
Proof.
  intros s s' H. unfold report, bind, get, ret.
  destruct H as (Hp & Hs & Hh). rewrite <- Hs.
  destruct (print_sol_counts (sol s) step s) as (t & Ht & (? & ? & ?) & _).
  destruct (print_sol_counts (sol s) step s') as (t' & Ht' & (? & ? & ?) & _).
  destruct (printout s), (printout s'); rewrite ?Ht, ?Ht';
    repeat split; simpl; congruence.
Qed.
#[local] Hint Resolve alike_report : alike.

Lemma alike_row_banner (i : Z) :
  alike (b <- get printout;;
         if b then p <- get puzzle;; emit (Screen p);; emit (RowReport i) else ret tt)%comp
        (b <- get printout;;
         if b then p <- get puzzle;; emit (Screen p);; emit (RowReport i) else ret tt)%comp.
Proof.
  intros s s' (Hp & Hs & Hh). unfold bind, get, emit, ret.
  destruct (printout s), (printout s'); repeat split; simpl; congruence.
Qed.

Lemma alike_solve_row (M N : Z) (fuel : nat) (i step : Z) :
  alike (solve_row M N fuel i step) (solve_row M N fuel i step).
Proof.
  unfold solve_row. cbv beta zeta.
  apply alike_bind; [apply alike_upfrom; intros k; apply alike_place|intros _].
  apply alike_bind; [alike_all|intros _].
  apply alike_bind; [alike_all|intros correct].
  apply alike_bind; [alike_all|intros _].
  apply alike_bind; [alike_all|intros check].
  destruct check; [|alike_all].
  intros s s' H.
  apply (alike_bind _ _ _ _ (alike_row_banner i)
           (fun _ => alike_bind _ _ _ _ (alike_report step)
                       (fun a => alike_bind _ _ _ _ (alike_set_sol [])
                                   (fun _ => alike_ret a))) s s' H).
Qed.

Lemma alike_solve_rows (M N : Z) (fuel n : nat) (i step : Z) :
  alike (solve_rows M N fuel n i step) (solve_rows M N fuel n i step).
Proof.
  revert i step. induction n as [|n IH]; intros i step; simpl.
  - alike_all.
  - apply alike_bind; [apply alike_solve_row | intros a; apply IH].
Qed.

Lemma alike_last_three (M N : Z) (fuel : nat) :
  alike (last_three M N fuel) (last_three M N fuel).
Proof.
  unfold last_three. cbv beta zeta.
  apply alike_bind; [apply alike_upfrom; intros k; apply alike_place|intros _].
  alike_all.
Qed.

Lemma alike_block_wrong (M N : Z) : alike (block_wrong M N) (block_wrong M N).
Proof. unfold block_wrong. alike_all. Qed.
#[local] Hint Resolve alike_solve_rows alike_last_three alike_block_wrong : alike.

Lemma alike_endgame (M N : Z) (fuel : nat) : alike (endgame M N fuel) (endgame M N fuel).
Proof. unfold endgame. alike_all. Qed.
#[local] Hint Resolve alike_endgame : alike.

(** Whatever is typed, [answer] only sets the flag. *)
Lemma answer_sets_flag (c : ascii) (s : state) :
  exists b, answer c s = Done tt (State (puzzle s) (sol s) b (console s) (history s)).
Proof.
  destruct s as [p l b co h].
  destruct c as [[] [] [] [] [] [] [] []]; simpl; eexists; reflexivity.
Qed.

Lemma alike_answer (c c' : ascii) : alike (answer c) (answer c').
Proof.
  intros s s' (Hp & Hs & Hh).
  destruct (answer_sets_flag c s) as [b ->], (answer_sets_flag c' s') as [b' ->].
  repeat split; simpl; congruence.
Qed.

Lemma alike_autosolve (M N : Z) (fuel : nat) (c c' : ascii) :
  alike (autosolve M N fuel c) (autosolve M N fuel c').
Proof.
  unfold autosolve.
  apply alike_bind; [apply alike_set_printout|intros _].
  apply alike_bind; [apply alike_answer|intros _].
  alike_all.
Qed.

Lemma run_autosolve_any_answer (fuel : nat) (M N : Z) (p : list Z) (l : list key)
    (c c' : ascii) :
  same (run_autosolve fuel M N p l c) (run_autosolve fuel M N p l c').
Proof.
  unfold run_autosolve. apply alike_autosolve. done.
Qed.

(** C9: two runs of [autosolve] on the same board that differ only in what
    is answered at the prompt, hence in the flag [printout], write the same
    successive contents to [puzzle], leave the same board and the same
    [sol], and return the same [step] -- or stop on the same error after the
    same writes. *)
Theorem C9_printout_is_observational (fuel : nat) (M N : Z) (p : list Z) (l : list key)
    (c c' : ascii) :
  match run_autosolve fuel M N p l c, run_autosolve fuel M N p l c' with
  | Done step s, Done step' s' =>
      step = step' /\ puzzle s = puzzle s' /\ history s = history s' /\ sol s = sol s'
  | Halt e s, Halt e' s' =>
      e = e' /\ puzzle s = puzzle s' /\ history s = history s'
  | _, _ => False
  end.
Proof.
  pose proof (run_autosolve_any_answer fuel M N p l c c') as H.
  destruct (run_autosolve fuel M N p l c) as [a s|e s],
           (run_autosolve fuel M N p l c') as [a' s'|e' s'];
    try done; destruct H as (? & ? & ? & ?); done.
Qed.

(** ** Fuel: a run that ends within its fuel ends the same way with more *)

Lemma steady_const {A} (m : comp A) : steady (fun _ => m).
Proof. intros f f' s _ _. done. Qed.

Lemma steady_bind {A B} (m : nat -> comp A) (k : A -> nat -> comp B) :
  steady m -> (forall a, steady (k a)) -> steady (fun f => bind (m f) (fun a => k a f)).
Proof.
  intros Hm Hk f f' s Hle. unfold bind. intros Hs.
  assert (settled (m f s)) as Hms.
  { destruct (m f s) as [a t|[] t]; done. }
  rewrite (Hm f f' s Hle Hms).
  destruct (m f s) as [a t|e t]; [|done]. by apply Hk.
Qed.

Lemma steady_while (cond : comp bool) (body : comp unit) :
  steady (fun f => while f cond body).
Proof.
  intros f. induction f as [|f IH]; intros f' s Hle.
  - destruct f' as [|f']; [done|]. simpl. unfold bind.
    destruct (cond s) as [[] t|e t]; done.
  - destruct f' as [|f']; [lia|]. simpl. unfold bind.
    destruct (cond s) as [[] t|e t]; try done.
    destruct (body t) as [[] u|e u]; [|done].
    apply IH. lia.
Qed.

Lemma steady_countdown (M N c1 i : Z) (l : list key) :
  steady (fun f => countdown M N f c1 i l).
Proof.
  intros f. revert c1. induction f as [|f IH]; intros c1 f' s Hle.
  - destruct f' as [|f']; [done|]. simpl. destruct (negb (c1 =? i)); done.
  - destruct f' as [|f']; [lia|]. simpl. destruct (negb (c1 =? i)); [|done].
    unfold bind. destruct (append M N l s) as [[] u|e u]; [|done].
    apply IH. lia.
Qed.

Lemma steady_upfrom (n : nat) (i : Z) (body : nat -> Z -> comp unit) :
  (forall k, steady (fun f => body f k)) -> steady (fun f => upfrom n i (body f)).
Proof.
  intros Hb. revert i. induction n as [|n IH]; intros i; simpl.
  - apply steady_const.
  - apply (steady_bind (fun f => body f i) (fun _ f => upfrom n (i + 1) (body f))); [apply Hb|].
    intros _. apply IH.
Qed.

Ltac steady_step :=
  lazymatch goal with
  | |- steady (fun _ => ?m) => apply steady_const
  | |- steady (fun f => bind _ _) =>
      refine (steady_bind (fun f => _) (fun a f => _) _ _); [|intros ?; cbv beta zeta]
  | |- steady (fun f => if ?b then _ else _) => destruct b
  | |- steady (fun f => while f _ _) => apply steady_while
  | |- steady (fun f => countdown _ _ f _ _ _) => apply steady_countdown
  end.
Ltac steady_all := cbv beta zeta; repeat steady_step.

Lemma steady_solve_2x1_col (M N i : Z) : steady (fun f => solve_2x1_col M N f i).
Proof. unfold solve_2x1_col. steady_all. Qed.

Lemma steady_solve_2x1 (M N : Z) : steady (fun f => solve_2x1 M N f).
Proof.
  unfold solve_2x1.
  apply (steady_upfrom _ _ (fun f => solve_2x1_col M N f)).
  intros k. apply steady_solve_2x1_col.
Qed.

Lemma steady_place (M N num i j : Z) : steady (fun f => place M N f num i j).
Proof. unfold place. apply steady_while. Qed.

Lemma steady_places (M N : Z) (n : nat) (i : Z) :
  steady (fun f => upfrom n 0 (fun j => place M N f (i * N + j + 1) i j)).
Proof.
  apply (steady_upfrom n 0 (fun f j => place M N f (i * N + j + 1) i j)).
  intros k. apply steady_place.
Qed.

Lemma steady_solve_row (M N i step : Z) : steady (fun f => solve_row M N f i step).
Proof.
  unfold solve_row.
  refine (steady_bind (fun f => _) (fun a f => _) (steady_places M N _ i) _).
  intros _. apply steady_const.
Qed.

Lemma steady_solve_rows (M N : Z) (n : nat) (i step : Z) :
  steady (fun f => solve_rows M N f n i step).
Proof.
  revert i step. induction n as [|n IH]; intros i step; simpl.
  - apply steady_const.
  - refine (steady_bind (fun f => _) (fun a f => _) (steady_solve_row M N i step) _).
    intros a. apply IH.
Qed.

Lemma steady_last_three (M N : Z) : steady (fun f => last_three M N f).
Proof.
  unfold last_three. cbv beta zeta.
  refine (steady_bind (fun f => _) (fun a f => _) (steady_places M N _ (M - 3)) _).
  intros _.
  refine (steady_bind (fun f => _) (fun a f => _) (steady_place M N _ _ _) _).
  intros _.
  refine (steady_bind (fun f => _) (fun a f => _) (steady_const _) _).
  intros pos. cbv beta zeta.
  destruct (_ && _); [apply steady_const|].
  refine (steady_bind (fun f => _) (fun a f => _) (steady_place M N _ _ _) _).
  intros _. apply steady_const.
Qed.

Lemma steady_endgame (M N : Z) : steady (fun f => endgame M N f).
Proof. unfold endgame. apply steady_while. Qed.

Lemma steady_autosolve (M N : Z) (c : ascii) : steady (fun f => autosolve M N f c).
Proof.
  unfold autosolve.
  refine (steady_bind (fun f => _) (fun a f => _) (steady_const _) _). intros _.
  refine (steady_bind (fun f => _) (fun a f => _) (steady_const _) _). intros _.
  refine (steady_bind (fun f => _) (fun a f => _) (steady_solve_rows M N _ 0 0) _). intros step.
  refine (steady_bind (fun f => if 3 <=? M then last_three M N f else ret tt)
            (fun a f => _) _ _).
  { destruct (3 <=? M); [apply steady_last_three | apply steady_const]. }
  intros _.
  refine (steady_bind (fun f => _) (fun a f => _) (steady_solve_2x1 M N) _). intros _.
  refine (steady_bind (fun f => _) (fun a f => _) (steady_const _) _). intros _.
  refine (steady_bind (fun f => _) (fun a f => _) (steady_const _) _). intros _.
  refine (steady_bind (fun f => _) (fun a f => _) (steady_endgame M N) _). intros _.
  apply steady_const.
Qed.

(** A run of [autosolve] that returns with [fuel] iterations per loop
    returns the same with any larger allowance. *)
Lemma run_autosolve_more_fuel (fuel fuel' : nat) (M N : Z) (p : list Z) (l : list key)
    (c : ascii) (step : Z) (s : state) :
  (fuel <= fuel')%nat ->
  run_autosolve fuel M N p l c = Done step s ->
  run_autosolve fuel' M N p l c = Done step s.
Proof.
  unfold run_autosolve. intros Hle Hrun.
  rewrite <- Hrun. apply (steady_autosolve M N c fuel fuel' _ Hle).
  by rewrite Hrun.
Qed.

(** ** The solved 3 x 3 board *)

(** C7, as the specification states it, fails: on the 3 x 3 board in
    canonical order [autosolve] does not return 0 and does write to the
    board. *)
Lemma C7_counterexample :
  ~ (forall (fuel : nat) (c : ascii) (step : Z) (s : state),
       run_autosolve fuel 3 3 [1; 2; 3; 4; 5; 6; 7; 8; -1] [] c = Done step s ->
       step = 0 /\ history s = [] /\ printed (console s) = []).
Proof.
  intros H.
  assert (exists s, run_autosolve 1 3 3 [1; 2; 3; 4; 5; 6; 7; 8; -1] [] "y" = Done 16 s)
    as [s E] by (eexists; vm_compute; reflexivity).
  apply H in E as [E _]. discriminate E.
Qed.

(** C7, amended: on the 3 x 3 board in canonical order [autosolve] has no
    shortcut.  It moves the tiles 3 and 2 through the last column, as for
    any other board, and brings the board back to canonical order with the
    sixteen keys A W W D S S W W A S S A W S D D; it returns 16. *)
Theorem C7_solved_board_is_reworked (fuel : nat) (c : ascii) :
  (1 <= fuel)%nat ->
  exists s,
    run_autosolve fuel 3 3 (solved_board 3 3) [] c = Done 16 s
    /\ puzzle s = solved_board 3 3
    /\ sol s = []
    /\ history s =
       boards 3 3 [kA; kW; kW; kD; kS; kS; kW; kW; kA; kS; kS; kA; kW; kS; kD; kD]
         (solved_board 3 3).
Proof.
  intros Hfuel.
  assert (exists s0,
            run_autosolve 1 3 3 (solved_board 3 3) [] "n" = Done 16 s0
            /\ puzzle s0 = solved_board 3 3 /\ sol s0 = []
            /\ history s0 =
               boards 3 3 [kA; kW; kW; kD; kS; kS; kW; kW; kA; kS; kS; kA; kW; kS; kD; kD]
                 (solved_board 3 3))
    as (s0 & E0 & Hp & Hs & Hh).
  { eexists. split; [vm_compute; reflexivity|]. vm_compute. done. }
  apply (run_autosolve_more_fuel 1 fuel) in E0; [|exact Hfuel].
  pose proof (run_autosolve_any_answer fuel 3 3 (solved_board 3 3) [] "n" c) as H9.
  rewrite E0 in H9.
  destruct (run_autosolve fuel 3 3 (solved_board 3 3) [] c) as [step s|e s]; [|done].
  destruct H9 as (<- & Hp' & Hs' & Hh').
  exists s. split; [done|]. split; [congruence|]. split; congruence.
Qed.

Lemma C7_witness :
  (1 <= 2)%nat
  /\ exists s, run_autosolve 2 3 3 (solved_board 3 3) [] "Y" = Done 16 s
               /\ puzzle s = solved_board 3 3.
Proof.
  split; [lia|].
  destruct (C7_solved_board_is_reworked 2 "Y") as (s & E & Hp & _); [lia|].
  exists s. split; [exact E | exact Hp].
Defined.

(** ** A solvable board on which [autosolve] does not return *)

Lemma bind_Done {A B} (m : comp A) (k : A -> comp B) (s s' : state) (a : A) :
  m s = Done a s' -> bind m k s = k a s'.
Proof. intros H. unfold bind. by rewrite H. Qed.

Lemma bind_Halt {A B} (m : comp A) (k : A -> comp B) (s s' : state) (e : error) :
  m s = Halt e s' -> bind m k s = Halt e s'.
Proof. intros H. unfold bind. by rewrite H. Qed.

Lemma peek_Done (s : state) (k v : Z) : rd (puzzle s) k = Ok v -> peek k s = Done v s.
Proof. intros H. unfold peek, lift. by rewrite H. Qed.

(** A loop whose test holds, and keeps holding after the body, on all the
    memories of a set closed under the body, uses up any fuel. *)
Lemma while_diverges (cond : comp bool) (body : comp unit) (P : state -> Prop) :
  (forall s, P s -> exists s1 s2,
       cond s = Done true s1 /\ body s1 = Done tt s2 /\ P s2) ->
  forall fuel s, P s -> exists s', while fuel cond body s = Halt OutOfFuel s'.
Proof.
  intros Hstep fuel. induction fuel as [|fuel IH]; intros s Hs;
    destruct (Hstep s Hs) as (s1 & s2 & Hc & Hb & Hs2); simpl.
  - exists s1. by rewrite (bind_Done _ _ _ _ _ Hc).
  - rewrite (bind_Done _ _ _ _ _ Hc), (bind_Done _ _ _ _ _ Hb). by apply IH.
Qed.

Lemma wheel_turns (s : state) :
  wheel s ->
  exists s1 s2, block_wrong 2 3 s = Done true s1
                /\ append 2 3 [kA; kW; kD; kS] s1 = Done tt s2 /\ wheel s2.
Proof.
  destruct s as [p l pr co h]. unfold wheel. simpl.
  intros [-> | [-> | ->]]; destruct pr;
    (eexists; eexists; split; [vm_compute; reflexivity|];
     split; [vm_compute; reflexivity|]; simpl; tauto).
Qed.

(** C1 fails on the code: the 2 x 3 board 2 4 _ / 1 5 3 satisfies the
    permutation invariant and [can_solve] accepts it, but [autosolve] does
    not terminate on it.  [solve_2x1] looks for tile 4 next to the blank,
    moves the blank onto it, and goes on with the position it had before;
    column 0 is left as 1 over 5, and the last loop turns the block for
    ever: whatever the fuel, it is used up. *)
Theorem C1_autosolve_diverges :
  valid_board 2 3 [2; 4; -1; 1; 5; 3]
  /\ can_solve 2 3 [2; 4; -1; 1; 5; 3] = Ok true
  /\ forall (fuel : nat) (c : ascii),
       exists s, run_autosolve fuel 2 3 [2; 4; -1; 1; 5; 3] [] c = Halt OutOfFuel s.
Proof.
  split; [|split].
  - apply (bool_decide_unpack _). vm_compute. exact I.
  - vm_compute. reflexivity.
  - intros fuel c. unfold run_autosolve, autosolve.
    erewrite bind_Done by reflexivity.
    destruct (answer_sets_flag c (State [2; 4; -1; 1; 5; 3] [] true [] [])) as [b Hb].
    erewrite bind_Done by exact Hb. simpl.
    destruct b.
    + do 5 (erewrite bind_Done by (vm_compute; reflexivity)).
      edestruct (while_diverges (block_wrong 2 3) (append 2 3 [kA; kW; kD; kS]) wheel
                   wheel_turns fuel) as [s Hs]; [|exists s; apply bind_Halt, Hs].
      left. reflexivity.
    + do 5 (erewrite bind_Done by (vm_compute; reflexivity)).
      edestruct (while_diverges (block_wrong 2 3) (append 2 3 [kA; kW; kD; kS]) wheel
                   wheel_turns fuel) as [s Hs]; [|exists s; apply bind_Halt, Hs].
      left. reflexivity.
Qed.

(** ** Replaying the printed solution *)

Lemma replay_app (M N : Z) (l1 l2 : list key) (p : list Z) :
  replay M N (l1 ++ l2) p = (p' <- replay M N l1 p;; replay M N l2 p').
Proof.
  revert p. induction l1 as [|c l1 IH]; intros p; simpl; [done|].
  destruct (change M N p c); simpl; [apply IH | done].
Qed.

Lemma printed_app (co co' : list event) : printed (co ++ co') = printed co ++ printed co'.
Proof.
  induction co as [|e co IH]; simpl; [done|].
  destruct e; simpl; by rewrite IH.
Qed.

Create HintDb keeps.

Section Logged.
Variables M N : Z.
Variable p0 : list Z.

Lemma keeps_ret {A} (a : A) : keeps M N p0 (ret a).
Proof. intros s a' s' H [= _ <-]. done. Qed.

Lemma keeps_fail {A} (e : error) : keeps M N p0 (@fail A e).
Proof. intros s a' s' H. discriminate. Qed.

Lemma keeps_bind {A B} (m : comp A) (k : A -> comp B) :
  keeps M N p0 m -> (forall a, keeps M N p0 (k a)) -> keeps M N p0 (bind m k).
Proof.
  intros Hm Hk s b s' H. unfold bind.
  destruct (m s) as [a t|e t] eqn:E; [|discriminate].
  intros Hk'. eapply Hk; [|exact Hk']. eapply Hm; [exact H | exact E].
Qed.

Lemma keeps_peek (k : Z) : keeps M N p0 (peek k).
Proof.
  intros s a s' H. unfold peek, lift.
  destruct (rd (puzzle s) k); [|discriminate]. by intros [= _ <-].
Qed.

Lemma keeps_locate (v : Z) : keeps M N p0 (locate M N v).
Proof.
  intros s a s' H. unfold locate, lift.
  destruct (find M N (puzzle s) v); [|discriminate]. by intros [= _ <-].
Qed.

Lemma keeps_get {A} (f : state -> A) : keeps M N p0 (get f).
Proof. intros s a s' H [= _ <-]. done. Qed.

Lemma keeps_emit_screen (p : list Z) : keeps M N p0 (emit (Screen p)).
Proof.
  intros s a s' [Hpr Hlog] [= _ <-]. split; [done|]. simpl.
  rewrite printed_app. simpl. by rewrite app_nil_r.
Qed.

Lemma keeps_emit_row (i : Z) : keeps M N p0 (emit (RowReport i)).
Proof.
  intros s a s' [Hpr Hlog] [= _ <-]. split; [done|]. simpl.
  rewrite printed_app. simpl. by rewrite app_nil_r.
Qed.

Lemma keeps_render : keeps M N p0 render.
Proof.
  unfold render. apply keeps_bind; [apply keeps_get|]. intros [].
  - apply keeps_bind; [apply keeps_get | intros p; apply keeps_emit_screen].
  - apply keeps_ret.
Qed.

(** What [apply_change] and [render] do to the memory. *)
Lemma apply_change_Done (c : key) (s s' : state) (a : unit) :
  apply_change M N c s = Done a s' ->
  change M N (puzzle s) c = Ok (puzzle s')
  /\ sol s' = sol s /\ printout s' = printout s /\ console s' = console s.
Proof.
  unfold apply_change, bind, get, lift, set_puzzle.
  destruct (change M N (puzzle s) c) as [p'|e]; [|discriminate].
  intros [= _ <-]. done.
Qed.

Lemma render_Done (s s' : state) (a : unit) :
  render s = Done a s' ->
  puzzle s' = puzzle s /\ sol s' = sol s /\ printout s' = printout s
  /\ printed (console s') = printed (console s).
Proof.
  unfold render, bind, get, emit, ret.
  destruct (printout s) eqn:Epr; intros [= _ <-]; simpl; [|done].
  rewrite printed_app. simpl. by rewrite app_nil_r.
Qed.

Lemma keeps_auto_change (c : key) : keeps M N p0 (auto_change M N c).
Proof.
  intros s a s' [Hpr Hlog]. unfold auto_change, bind at 1.
  destruct (apply_change M N c s) as [[] s1|e s1] eqn:E1; [|discriminate].
  apply apply_change_Done in E1 as (Hch & Hs1 & Hp1 & Hc1).
  unfold bind, get, set_sol.
  destruct (render _) as [[] s2|e s2] eqn:E2; [|discriminate].
  apply render_Done in E2 as (Hpz & Hs2 & Hp2 & Hc2). simpl in *.
  intros [= _ <-]. split; [congruence|].
  rewrite Hc2, Hs2, Hc1, Hs1, Hpz, app_assoc, replay_app, Hlog. simpl.
  by rewrite Hch.
Qed.

Lemma append_each_Done (l : list key) (s s' : state) (a : unit) :
  append_each M N l s = Done a s' ->
  replay M N l (puzzle s) = Ok (puzzle s')
  /\ sol s' = sol s /\ printout s' = printout s
  /\ printed (console s') = printed (console s).
Proof.
  revert s. induction l as [|c l IH]; intros s; simpl.
  - intros [= _ <-]. done.
  - unfold bind at 1.
    destruct (apply_change M N c s) as [[] s1|e s1] eqn:E1; [|discriminate].
    apply apply_change_Done in E1 as (Hch & Hs1 & Hp1 & Hc1).
    unfold bind at 1.
    destruct (render s1) as [[] s2|e s2] eqn:E2; [|discriminate].
    apply render_Done in E2 as (Hpz & Hs2 & Hp2 & Hc2).
    intros H. apply IH in H as (Hre & Hs3 & Hp3 & Hc3).
    rewrite Hch. simpl. rewrite <- Hpz. split; [done|]. split; [congruence|].
    split; congruence.
Qed.

Lemma keeps_append (l : list key) : keeps M N p0 (append M N l).
Proof.
  intros s a s' [Hpr Hlog]. unfold append, bind, get, set_sol.
  intros H. apply append_each_Done in H as (Hre & Hs & Hp & Hc). simpl in *.
  split; [congruence|].
  rewrite Hc, Hs, app_assoc, replay_app, Hlog. simpl. done.
Qed.

Lemma keeps_times (n : nat) (m : comp unit) : keeps M N p0 m -> keeps M N p0 (times n m).
Proof.
  intros Hm. induction n as [|n IH]; simpl; [apply keeps_ret|].
  apply keeps_bind; [done | intros _; done].
Qed.

Lemma keeps_stmt (m : comp unit) : keeps M N p0 m -> keeps M N p0 (stmt m).
Proof. intros Hm. apply keeps_bind; [done | intros _; apply keeps_ret]. Qed.

Lemma keeps_andthen (a b : comp bool) : keeps M N p0 a -> keeps M N p0 b -> keeps M N p0 (a >>> b).
Proof. intros Ha Hb. apply keeps_bind; [done | intros []; [apply keeps_ret | done]]. Qed.

Lemma keeps_repeat_le (n : nat) (i : Z) (body : Z -> comp bool) :
  (forall k, keeps M N p0 (body k)) -> keeps M N p0 (repeat_le n i body).
Proof.
  intros Hb. revert i. induction n as [|n IH]; intros i; simpl; [apply keeps_ret|].
  apply keeps_andthen; [apply Hb | apply IH].
Qed.

Lemma keeps_for_le (lo hi : Z) (body : Z -> comp bool) :
  (forall k, keeps M N p0 (body k)) -> keeps M N p0 (for_le lo hi body).
Proof. intros Hb. by apply keeps_repeat_le. Qed.

Lemma keeps_while (fuel : nat) (cond : comp bool) (body : comp unit) :
  keeps M N p0 cond -> keeps M N p0 body -> keeps M N p0 (while fuel cond body).
Proof.
  intros Hc Hb. induction fuel as [|fuel IH]; simpl.
  - apply keeps_bind; [done | intros []; [apply keeps_fail | apply keeps_ret]].
  - apply keeps_bind; [done | intros []; [|apply keeps_ret]].
    apply keeps_bind; [done | intros _; done].
Qed.

Lemma keeps_upfrom (n : nat) (i : Z) (body : Z -> comp unit) :
  (forall k, keeps M N p0 (body k)) -> keeps M N p0 (upfrom n i body).
Proof.
  intros Hb. revert i. induction n as [|n IH]; intros i; simpl; [apply keeps_ret|].
  apply keeps_bind; [apply Hb | intros _; apply IH].
Qed.

Hint Resolve keeps_ret keeps_fail keeps_peek keeps_locate keeps_get
  keeps_emit_screen keeps_emit_row keeps_render keeps_auto_change keeps_append : keeps.

Ltac keeps_call :=
  lazymatch goal with
  | |- keeps M N p0 (bind _ _) => apply keeps_bind; [|intros ?; cbv beta zeta]
  | |- keeps M N p0 (if ?b then _ else _) => destruct b
  | |- keeps M N p0 (andthen _ _) => apply keeps_andthen
  | |- keeps M N p0 (stmt _) => apply keeps_stmt
  | |- keeps M N p0 (for_le _ _ _) => apply keeps_for_le; intros ?
  | |- keeps M N p0 (times _ _) => apply keeps_times
  | |- keeps M N p0 (while _ _ _) => apply keeps_while
  | |- keeps M N p0 (upfrom _ _ _) => apply keeps_upfrom; intros ?
  | |- keeps M N p0 _ => solve [eauto with keeps]
  end.
Ltac keeps_all := cbv beta zeta; repeat keeps_call.

Lemma keeps_move_h (c : Z) : keeps M N p0 (move_h M N c).
Proof. unfold move_h. keeps_all. Qed.

Lemma keeps_move_v (r : Z) : keeps M N p0 (move_v M N r).
Proof. unfold move_v. keeps_all. Qed.

Lemma keeps_placed (i j num : Z) : keeps M N p0 (placed N i j num).
Proof. unfold placed. keeps_all. Qed.
Hint Resolve keeps_move_h keeps_move_v keeps_placed : keeps.

Lemma keeps_move (r c i j : Z) : keeps M N p0 (move M N r c i j).
Proof. unfold move. keeps_all. Qed.

Lemma keeps_solve_1x2 (i : Z) : keeps M N p0 (solve_1x2 M N i).
Proof. unfold solve_1x2, from2. keeps_all. Qed.

Lemma keeps_countdown (fuel : nat) (c1 i : Z) (l : list key) :
  keeps M N p0 (countdown M N fuel c1 i l).
Proof. revert c1. induction fuel as [|fuel IH]; intros c1; simpl; keeps_all. Qed.
Hint Resolve keeps_move keeps_solve_1x2 keeps_countdown : keeps.

Lemma keeps_solve_2x1_col (fuel : nat) (i : Z) : keeps M N p0 (solve_2x1_col M N fuel i).
Proof. unfold solve_2x1_col. keeps_all. Qed.

Lemma keeps_solve_2x1 (fuel : nat) : keeps M N p0 (solve_2x1 M N fuel).
Proof. unfold solve_2x1. apply keeps_upfrom. intros k. apply keeps_solve_2x1_col. Qed.

Lemma keeps_place (fuel : nat) (num i j : Z) : keeps M N p0 (place M N fuel num i j).
Proof. unfold place. keeps_all. Qed.

Lemma keeps_all_home (n : nat) (k : Z) : keeps M N p0 (all_home n k).
Proof. revert k. induction n as [|n IH]; intros k; simpl; keeps_all. Qed.
Hint Resolve keeps_solve_2x1 keeps_place keeps_all_home : keeps.

Lemma print_sol_Done (l : list key) (step : Z) (s : state) :
  print_sol l step s
  = Done (step + Z.of_nat (length l))
      (State (puzzle s) (sol s) (printout s) (console s ++ (Printed <$> l)) (history s)).
Proof.
  revert step s. induction l as [|c l IH]; intros step s; simpl.
  - rewrite Z.add_0_r, app_nil_r. by destruct s.
  - unfold bind, emit. rewrite IH. simpl. f_equal; [lia|].
    by rewrite <- app_assoc.
Qed.

Lemma printed_Printed (l : list key) : printed (Printed <$> l) = l.
Proof. induction l as [|c l IH]; [done|]. rewrite fmap_cons. simpl. by rewrite IH. Qed.

(** The report of a phase, followed by [sol.clear()]. *)
Lemma keeps_report_clear {A} (step : Z) (k : Z -> comp A) :
  (forall a, keeps M N p0 (k a)) ->
  keeps M N p0 (step' <- report step;; set_sol [];; k step')%comp.
Proof.
  intros Hk s a s' [Hpr Hlog]. unfold report, bind at 1, bind at 1, get.
  rewrite Hpr. unfold bind at 1. rewrite print_sol_Done.
  unfold bind at 1, set_sol. simpl. apply Hk.
  split; simpl; [done|].
  by rewrite printed_app, printed_Printed, app_nil_r.
Qed.

Lemma keeps_solve_row (fuel : nat) (i step : Z) : keeps M N p0 (solve_row M N fuel i step).
Proof.
  unfold solve_row.
  apply keeps_bind; [keeps_all|intros _].
  apply keeps_bind; [keeps_all|intros _].
  apply keeps_bind; [keeps_all|intros correct].
  apply keeps_bind; [keeps_all|intros _].
  apply keeps_bind; [keeps_all|intros check].
  destruct check; [|keeps_all].
  apply keeps_bind; [keeps_all|intros b].
  apply keeps_bind; [keeps_all|intros _].
  apply keeps_report_clear. intros a. keeps_all.
Qed.

Lemma keeps_solve_rows (fuel n : nat) (i step : Z) : keeps M N p0 (solve_rows M N fuel n i step).
Proof.
  revert i step. induction n as [|n IH]; intros i step; simpl; [keeps_all|].
  apply keeps_bind; [apply keeps_solve_row | intros a; apply IH].
Qed.

Lemma keeps_last_three (fuel : nat) : keeps M N p0 (last_three M N fuel).
Proof. unfold last_three. keeps_all. Qed.

Lemma keeps_block_wrong : keeps M N p0 (block_wrong M N).
Proof. unfold block_wrong. keeps_all. Qed.
Hint Resolve keeps_solve_rows keeps_last_three keeps_block_wrong : keeps.

Lemma keeps_endgame (fuel : nat) : keeps M N p0 (endgame M N fuel).
Proof. unfold endgame. keeps_all. Qed.

(** Everything that [autosolve] does after the prompt. *)
Lemma keeps_after_prompt (fuel : nat) :
  keeps M N p0 (step <- solve_rows M N fuel (Z.to_nat (M - 3)) 0 0;;
         (if 3 <=? M then last_three M N fuel else ret tt);;
         solve_2x1 M N fuel;;
         move_h M N (N - 1);;
         move_v M N (M - 1);;
         endgame M N fuel;;
         step <- report step;;
         set_sol [];;
         p <- get puzzle;;
         emit (Screen p);;
         ret step)%comp.
Proof.
  apply keeps_bind; [keeps_all|intros step].
  apply keeps_bind; [keeps_all|intros _].
  apply keeps_bind; [keeps_all|intros _].
  apply keeps_bind; [keeps_all|intros _].
  apply keeps_bind; [keeps_all|intros _].
  apply keeps_bind; [apply keeps_endgame|intros _].
  apply keeps_report_clear. intros a. keeps_all.
Qed.

End Logged.

Lemma bind_inv {A B} (m : comp A) (k : A -> comp B) (s s' : state) (b : B) :
  bind m k s = Done b s' -> exists a t, m s = Done a t /\ k a t = Done b s'.
Proof.
  unfold bind. destruct (m s) as [a t|e t]; [|discriminate].
  intros H. by exists a, t.
Qed.

Lemma answer_keeps_on (c : ascii) (s : state) :
  c ≠ "N"%char -> c ≠ "n"%char -> answer c s = Done tt s \/ answer c s = set_printout true s.
Proof.
  intros HN Hn.
  destruct c as [[] [] [] [] [] [] [] []]; simpl; auto; congruence.
Qed.

(** [autosolve] returns with [sol] cleared. *)
Lemma autosolve_clears_sol (M N : Z) (fuel : nat) (c : ascii) (s s' : state) (step : Z) :
  autosolve M N fuel c s = Done step s' -> sol s' = [].
Proof.
  unfold autosolve. intros H.
  do 8 (apply bind_inv in H as (? & ? & _ & H)).
  revert H. unfold report, bind, get, set_sol, emit, ret.
  destruct (printout _); rewrite ?print_sol_Done; intros [= _ <-]; done.
Qed.

(** C6, as the specification states it, fails for a run without printout:
    nothing is printed, [sol] comes back empty, and replaying nothing leaves
    the scrambled board. *)
Lemma C6_counterexample :
  ~ (forall (fuel : nat) (M N : Z) (p : list Z) (c : ascii) (step : Z) (s : state),
       valid_board M N p -> can_solve M N p = Ok true ->
       run_autosolve fuel M N p [] c = Done step s ->
       replay M N (printed (console s)) p = Ok (puzzle s)
       \/ replay M N (sol s) p = Ok (puzzle s)).
Proof.
  intros H.
  assert (exists s, run_autosolve 1 2 2 [1; 2; -1; 3] [] "n" = Done 1 s
                    /\ printed (console s) = [] /\ sol s = []
                    /\ puzzle s = [1; 2; 3; -1]) as (s & E & Hc & Hs & Hp).
  { eexists. split; [vm_compute; reflexivity|]. vm_compute. done. }
  apply H in E.
  - rewrite Hc, Hs, Hp in E. simpl in E. destruct E as [E|E]; discriminate E.
  - apply (bool_decide_unpack _). vm_compute. exact I.
  - vm_compute. reflexivity.
Qed.

(** C6, amended: when the answer at the prompt leaves [printout] on (any
    character but 'N' and 'n'), the keys that [autosolve] prints, replayed
    in order through [change] alone from the board it was given, produce
    the board it leaves; [sol] itself comes back empty.  Without printout
    no sequence is reported. *)
Theorem C6_printed_solution_replays (fuel : nat) (M N : Z) (p : list Z) (c : ascii)
    (step : Z) (s : state) :
  c ≠ "N"%char -> c ≠ "n"%char ->
  run_autosolve fuel M N p [] c = Done step s ->
  replay M N (printed (console s)) p = Ok (puzzle s) /\ sol s = [].
Proof.
  intros HN Hn Hrun.
  pose proof (autosolve_clears_sol M N fuel c _ _ _ Hrun) as Hsol.
  split; [|exact Hsol].
  unfold run_autosolve, autosolve in Hrun.
  apply bind_inv in Hrun as ([] & s1 & H1 & Hrun). injection H1 as <-.
  apply bind_inv in Hrun as ([] & s2 & H2 & Hrun).
  assert (s2 = State p [] true [] []) as ->.
  { destruct (answer_keeps_on c (State p [] true [] []) HN Hn) as [E|E];
      rewrite E in H2; by injection H2 as <-. }
  assert (logged M N p (State p [] true [] [])) as Hinit by done.
  destruct (keeps_after_prompt M N p fuel _ _ _ Hinit Hrun) as [_ Hlog].
  by rewrite Hsol, app_nil_r in Hlog.
Qed.

Lemma C6_witness :
  "y"%char ≠ "N"%char /\ "y"%char ≠ "n"%char
  /\ exists step s,
       run_autosolve 1 2 3 [4; 1; 2; -1; 5; 3] [] "y" = Done step s
       /\ replay 2 3 (printed (console s)) [4; 1; 2; -1; 5; 3] = Ok (puzzle s).
Proof.
  split; [discriminate|]. split; [discriminate|].
  assert (exists step s, run_autosolve 1 2 3 [4; 1; 2; -1; 5; 3] [] "y" = Done step s)
    as (step & s & E) by (eexists; eexists; vm_compute; reflexivity).
  exists step, s. split; [exact E|].
  apply (C6_printed_solution_replays 1 2 3 [4; 1; 2; -1; 5; 3] "y" step s);
    [discriminate | discriminate | exact E].
Defined.

(** ** Moves as list surgery *)

Lemma position_app (v : Z) (l1 l2 : list Z) :
  v ∉ l1 -> position v (l1 ++ l2) = (length l1 + position v l2)%nat.
Proof.
  induction l1 as [|x l1 IH]; intros Hn; simpl; [done|].
  apply not_elem_of_cons in Hn as [Hne Hn].
  destruct (Z.eqb_spec x v) as [->|_]; [done|]. by rewrite IH.
Qed.

Lemma position_here (v : Z) (l : list Z) : position v (v :: l) = 0%nat.
Proof. simpl. by rewrite Z.eqb_refl. Qed.

Lemma position_next (v x : Z) (l : list Z) :
  x ≠ v -> position v (x :: l) = S (position v l).
Proof. intros H. simpl. by destruct (Z.eqb_spec x v). Qed.

(** Exchanging two cells of a list split around them. *)
Lemma swap_apart (l1 mid l2 : list Z) (a b : Z) :
  let p := l1 ++ a :: mid ++ b :: l2 in
  let i := Z.of_nat (length l1) in
  let j := Z.of_nat (length l1 + 1 + length mid) in
  swap p i j = Ok (l1 ++ b :: mid ++ a :: l2)
  /\ swap p j i = Ok (l1 ++ b :: mid ++ a :: l2).
Proof.
  intros p i j.
  assert (p !! length l1 = Some a) as Hi.
  { unfold p. by rewrite lookup_app_r, Nat.sub_diag by lia. }
  assert (p !! (length l1 + 1 + length mid)%nat = Some b) as Hj.
  { unfold p. rewrite lookup_app_r by lia.
    replace (length l1 + 1 + length mid - length l1)%nat with (S (length mid)) by lia.
    simpl. by rewrite lookup_app_r, Nat.sub_diag by lia. }
  assert (<[(length l1 + 1 + length mid)%nat := a]> (<[length l1 := b]> p)
          = l1 ++ b :: mid ++ a :: l2) as E1.
  { unfold p. rewrite (insert_app_r_alt l1) by lia. rewrite Nat.sub_diag. simpl.
    rewrite insert_app_r_alt by lia.
    replace (length l1 + 1 + length mid - length l1)%nat with (S (length mid)) by lia.
    simpl. rewrite insert_app_r_alt by lia. by rewrite Nat.sub_diag. }
  assert (<[length l1 := b]> (<[(length l1 + 1 + length mid)%nat := a]> p)
          = l1 ++ b :: mid ++ a :: l2) as E2.
  { rewrite list_insert_insert_ne by lia. exact E1. }
  unfold swap, i, j. rewrite (rd_lookup _ _ _ Hi), (rd_lookup _ _ _ Hj). simpl.
  rewrite !Nat2Z.id. by rewrite E1, E2.
Qed.

Section Moves.
Variables M N : Z.
Hypothesis N_pos : 0 < N.

Lemma find_blank (l1 l2 : list Z) :
  Z.of_nat (length (l1 ++ -1 :: l2)) = M * N -> -1 ∉ l1 ->
  find M N (l1 ++ -1 :: l2) BLANK = Ok (Z.of_nat (length l1)).
Proof.
  intros Hlen Hn. rewrite find_position; [|done|].
  - by rewrite position_app, position_here, Nat.add_0_r.
  - apply elem_of_app. right. by left.
Qed.

(** 'A': the blank, not in column 0, goes one cell to the left. *)
Lemma change_kA (l1 l2 : list Z) (x : Z) :
  Z.of_nat (length (l1 ++ x :: -1 :: l2)) = M * N ->
  -1 ∉ l1 -> x ≠ -1 -> (Z.of_nat (length l1) + 1) mod N ≠ 0 ->
  change M N (l1 ++ x :: -1 :: l2) kA = Ok (l1 ++ -1 :: x :: l2).
Proof.
  intros Hlen Hn Hx Hcol. unfold change.
  replace (l1 ++ x :: -1 :: l2) with ((l1 ++ [x]) ++ -1 :: l2) at 1
    by (by rewrite <- app_assoc).
  rewrite find_blank.
  - simpl rbind. rewrite length_app. simpl length.
    rewrite Z.rem_mod_nonneg by lia.
    replace (Z.of_nat (length l1 + 1)) with (Z.of_nat (length l1) + 1) by lia.
    assert (0 <= (Z.of_nat (length l1) + 1) mod N < N) by (apply Z.mod_pos_bound; lia).
    destruct (Z.ltb_spec 0 ((Z.of_nat (length l1) + 1) mod N)); [|lia].
    replace (Z.of_nat (length l1) + 1 - 1) with (Z.of_nat (length l1)) by lia.
    replace (Z.of_nat (length l1) + 1) with (Z.of_nat (length l1 + 1 + length (@nil Z)))
      by (simpl; lia).
    apply (swap_apart l1 [] l2 x (-1)).
  - by rewrite <- app_assoc.
  - rewrite elem_of_app, list_elem_of_singleton. intros [?|?]; [done|]. congruence.
Qed.

(** 'D': the blank, not in the last column, goes one cell to the right. *)
Lemma change_kD (l1 l2 : list Z) (x : Z) :
  Z.of_nat (length (l1 ++ -1 :: x :: l2)) = M * N ->
  -1 ∉ l1 -> (Z.of_nat (length l1) + 1) mod N ≠ 0 ->
  change M N (l1 ++ -1 :: x :: l2) kD = Ok (l1 ++ x :: -1 :: l2).
Proof.
  intros Hlen Hn Hcol. unfold change. rewrite find_blank by done.
  simpl rbind. rewrite Z.rem_mod_nonneg by lia.
  assert (Z.of_nat (length l1) mod N < N - 1) as Hlt.
  { assert (0 <= Z.of_nat (length l1) mod N < N) by (apply Z.mod_pos_bound; lia).
    destruct (Z.eq_dec (Z.of_nat (length l1) mod N) (N - 1)) as [E|E]; [|lia].
    exfalso. apply Hcol.
    rewrite <- Zplus_mod_idemp_l, E.
    replace (N - 1 + 1) with N by lia. apply Z_mod_same_full. }
  destruct (Z.ltb_spec (Z.of_nat (length l1) mod N) (N - 1)); [|lia].
  replace (Z.of_nat (length l1) + 1) with (Z.of_nat (length l1 + 1 + length (@nil Z)))
    by (simpl; lia).
  apply (swap_apart l1 [] l2 (-1) x).
Qed.

(** 'S': the blank goes one row down, to the cell [N] places on. *)
Lemma change_kS (l1 mid l2 : list Z) (x : Z) :
  Z.of_nat (length (l1 ++ -1 :: mid ++ x :: l2)) = M * N ->
  -1 ∉ l1 -> Z.of_nat (length mid) + 1 = N ->
  change M N (l1 ++ -1 :: mid ++ x :: l2) kS = Ok (l1 ++ x :: mid ++ -1 :: l2).
Proof.
  intros Hlen Hn Hmid. unfold change. rewrite find_blank by done.
  simpl rbind. rewrite Z.quot_div_nonneg by lia.
  rewrite length_app in Hlen. simpl in Hlen. rewrite length_app in Hlen. simpl in Hlen.
  assert (Z.of_nat (length l1) / N < M - 1) as Hrow.
  { apply Z.div_lt_upper_bound; [lia|]. nia. }
  destruct (Z.ltb_spec (Z.of_nat (length l1) / N) (M - 1)); [|lia].
  replace (Z.of_nat (length l1) + N) with (Z.of_nat (length l1 + 1 + length mid)) by lia.
  apply (swap_apart l1 mid l2 (-1) x).
Qed.

(** 'W': the blank goes one row up, to the cell [N] places back. *)
Lemma change_kW (l1 mid l2 : list Z) (x : Z) :
  Z.of_nat (length (l1 ++ x :: mid ++ -1 :: l2)) = M * N ->
  -1 ∉ l1 -> x ≠ -1 -> -1 ∉ mid -> Z.of_nat (length mid) + 1 = N ->
  change M N (l1 ++ x :: mid ++ -1 :: l2) kW = Ok (l1 ++ -1 :: mid ++ x :: l2).
Proof.
  intros Hlen Hn Hx Hm Hmid. unfold change.
  replace (l1 ++ x :: mid ++ -1 :: l2) with ((l1 ++ x :: mid) ++ -1 :: l2) at 1
    by (by rewrite <- app_assoc).
  rewrite find_blank.
  - simpl rbind. rewrite length_app. simpl length.
    rewrite Z.quot_div_nonneg by lia.
    replace (Z.of_nat (length l1 + S (length mid))) with (Z.of_nat (length l1) + 1 * N) by lia.
    rewrite Z.div_add by lia.
    assert (0 <= Z.of_nat (length l1) / N) by (apply Z.div_pos; lia).
    destruct (Z.ltb_spec 0 (Z.of_nat (length l1) / N + 1)); [|lia].
    replace (Z.of_nat (length l1) + 1 * N - N) with (Z.of_nat (length l1)) by lia.
    replace (Z.of_nat (length l1) + 1 * N) with (Z.of_nat (length l1 + 1 + length mid)) by lia.
    apply (swap_apart l1 mid l2 x (-1)).
  - by rewrite <- app_assoc.
  - rewrite elem_of_app, elem_of_cons. intros [?|[?|?]]; [done|congruence|done].
Qed.

End Moves.

(** ** The parity rule is invariant under moves *)

Lemma below_app (x : Z) (l1 l2 : list Z) : below x (l1 ++ l2) = (below x l1 + below x l2)%nat.
Proof.
  unfold below. destruct (x =? -1); [done|]. by rewrite filter_app, length_app.
Qed.

Lemma below_blank (l : list Z) : below (-1) l = 0%nat.
Proof. done. Qed.

Lemma below_cons_blank (x : Z) (l : list Z) : below x (-1 :: l) = below x l.
Proof. rewrite below_cons. simpl. by rewrite orb_true_r. Qed.

(** The blank takes no part in the count. *)
Lemma reverse_pairs_blank (l1 l2 : list Z) :
  reverse_pairs (l1 ++ -1 :: l2) = reverse_pairs (l1 ++ l2).
Proof.
  induction l1 as [|x l1 IH]; simpl; [done|].
  rewrite IH, !below_app, below_cons_blank. done.
Qed.

(** A tile that jumps over [mid] changes the parity of the count by the
    parity of the length of [mid]. *)
Lemma reverse_pairs_jump (l1 mid l2 : list Z) (x : Z) :
  x ≠ -1 -> -1 ∉ mid -> x ∉ mid ->
  Nat.odd (reverse_pairs (l1 ++ x :: mid ++ l2))
  = xorb (Nat.odd (length mid)) (Nat.odd (reverse_pairs (l1 ++ mid ++ x :: l2))).
Proof.
  intros Hx. revert l1. induction mid as [|m mid IH]; intros l1 Hb Hm; simpl.
  - done.
  - apply not_elem_of_cons in Hb as [Hmb Hb]. apply not_elem_of_cons in Hm as [Hxm Hm].
    rewrite (reverse_pairs_swap l1 (mid ++ l2) m x) by congruence.
    replace (l1 ++ m :: x :: mid ++ l2) with ((l1 ++ [m]) ++ x :: mid ++ l2)
      by (by rewrite <- app_assoc).
    rewrite IH by done. rewrite <- app_assoc. simpl.
    rewrite Nat.odd_succ, <- Nat.negb_odd.
    by destruct (Nat.odd (length mid)), (Nat.odd _).
Qed.

Section Parity.
Variables M N : Z.
Hypothesis N_pos : 0 < N.

Lemma blank_row_at (l1 l2 : list Z) :
  -1 ∉ l1 -> blank_row N (l1 ++ -1 :: l2) = Z.of_nat (length l1) / N.
Proof.
  intros Hn. unfold blank_row.
  by rewrite position_app, position_here, Nat.add_0_r.
Qed.

(** A slide along a row. *)
Lemma parity_rule_row (l1 l2 : list Z) (x : Z) :
  -1 ∉ l1 -> x ≠ -1 -> (Z.of_nat (length l1) + 1) mod N ≠ 0 ->
  parity_rule M N (l1 ++ x :: -1 :: l2) = parity_rule M N (l1 ++ -1 :: x :: l2).
Proof.
  intros Hn Hx Hcol. unfold parity_rule.
  assert (reverse_pairs (l1 ++ x :: -1 :: l2) = reverse_pairs (l1 ++ -1 :: x :: l2)) as ->.
  { rewrite (reverse_pairs_blank l1 (x :: l2)).
    replace (l1 ++ x :: -1 :: l2) with ((l1 ++ [x]) ++ -1 :: l2) by (by rewrite <- app_assoc).
    rewrite reverse_pairs_blank. by rewrite <- app_assoc. }
  assert (blank_row N (l1 ++ x :: -1 :: l2) = blank_row N (l1 ++ -1 :: x :: l2)) as ->; [|done].
  rewrite (blank_row_at l1 (x :: l2)) by done.
  replace (l1 ++ x :: -1 :: l2) with ((l1 ++ [x]) ++ -1 :: l2) by (by rewrite <- app_assoc).
  rewrite blank_row_at.
  - rewrite length_app. simpl length.
    replace (Z.of_nat (length l1 + 1)) with (Z.of_nat (length l1) + 1) by lia.
    set (a := Z.of_nat (length l1)) in *.
    assert (0 <= a) by lia.
    pose proof (Z.div_mod a N ltac:(lia)) as Ha.
    pose proof (Z.mod_pos_bound a N N_pos) as Hb.
    pose proof (Z.div_mod (a + 1) N ltac:(lia)) as Ha'.
    pose proof (Z.mod_pos_bound (a + 1) N N_pos) as Hb'.
    nia.
  - rewrite elem_of_app, list_elem_of_singleton. intros [?|?]; [done|congruence].
Qed.

(** A slide along a column. *)
Lemma parity_rule_column (l1 mid l2 : list Z) (x : Z) :
  -1 ∉ l1 -> x ≠ -1 -> -1 ∉ mid -> x ∉ mid -> Z.of_nat (length mid) + 1 = N ->
  parity_rule M N (l1 ++ x :: mid ++ -1 :: l2) = parity_rule M N (l1 ++ -1 :: mid ++ x :: l2).
Proof.
  intros Hn Hx Hb Hm Hmid. unfold parity_rule.
  assert (Nat.odd (reverse_pairs (l1 ++ x :: mid ++ -1 :: l2))
          = xorb (Z.even N) (Nat.odd (reverse_pairs (l1 ++ -1 :: mid ++ x :: l2)))) as Hodd.
  { rewrite (reverse_pairs_blank l1 (mid ++ x :: l2)).
    replace (l1 ++ x :: mid ++ -1 :: l2) with ((l1 ++ x :: mid) ++ -1 :: l2)
      by (by rewrite <- app_assoc).
    rewrite reverse_pairs_blank, <- app_assoc. simpl.
    rewrite reverse_pairs_jump by done. f_equal.
    replace N with (Z.of_nat (S (length mid))) by lia.
    by rewrite even_of_nat, Nat.even_succ. }
  assert (blank_row N (l1 ++ x :: mid ++ -1 :: l2)
          = blank_row N (l1 ++ -1 :: mid ++ x :: l2) + 1) as ->.
  { rewrite (blank_row_at l1 (mid ++ x :: l2)) by done.
    replace (l1 ++ x :: mid ++ -1 :: l2) with ((l1 ++ x :: mid) ++ -1 :: l2)
      by (by rewrite <- app_assoc).
    rewrite blank_row_at.
    - rewrite length_app. simpl length.
      replace (Z.of_nat (length l1 + S (length mid))) with (Z.of_nat (length l1) + 1 * N) by lia.
      by rewrite Z.div_add by lia.
    - rewrite elem_of_app, elem_of_cons. intros [?|[?|?]]; [done|congruence|done]. }
  set (k' := reverse_pairs (l1 ++ x :: mid ++ -1 :: l2)) in *.
  set (k := reverse_pairs (l1 ++ -1 :: mid ++ x :: l2)) in *.
  set (r := blank_row N (l1 ++ -1 :: mid ++ x :: l2)).
  rewrite <- Z.negb_even. rewrite <- !Nat.negb_odd, Hodd.
  destruct (Z.even N); simpl.
  - rewrite !Z.even_add, !Z.even_sub, !Z.even_add, !even_of_nat, <- !Nat.negb_odd, Hodd.
    simpl. generalize (Nat.odd k) (Z.even M) (Z.even r). by intros [] [] [].
  - done.
Qed.

End Parity.

(** ** Legal slides *)

Lemma slides_change (M N : Z) (c : key) (p p' : list Z) :
  0 < N -> Z.of_nat (length p) = M * N ->
  slides N c p p' -> change M N p c = Ok p'.
Proof.
  intros HN Hlen Hs. destruct Hs.
  - by apply change_kA.
  - by apply change_kD.
  - by apply change_kW.
  - by apply change_kS.
Qed.

Lemma slides_parity (M N : Z) (c : key) (p p' : list Z) :
  0 < N -> slides N c p p' -> parity_rule M N p' = parity_rule M N p.
Proof.
  intros HN Hs. destruct Hs.
  - symmetry. by apply parity_rule_row.
  - by apply parity_rule_row.
  - symmetry. by apply parity_rule_column.
  - by apply parity_rule_column.
Qed.

Lemma slides_Permutation (N : Z) (c : key) (p p' : list Z) :
  slides N c p p' -> p' ≡ₚ p.
Proof.
  intros Hs. destruct Hs; apply Permutation_app_head.
  - apply Permutation_swap.
  - apply Permutation_swap.
  - rewrite <- !Permutation_middle. rewrite Permutation_swap. done.
  - rewrite <- !Permutation_middle. rewrite Permutation_swap. done.
Qed.

Lemma position_split (v : Z) (p : list Z) :
  v ∈ p -> exists l1 l2, p = l1 ++ v :: l2 /\ (v ∉ l1) /\ length l1 = position v p.
Proof.
  induction p as [|x p IH]; intros Hin; [by apply elem_of_nil in Hin|].
  simpl. destruct (Z.eqb_spec x v) as [->|Hne].
  - exists [], p. split; [done|]. split; [apply not_elem_of_nil | done].
  - apply elem_of_cons in Hin as [->|Hin]; [done|].
    destruct (IH Hin) as (l1 & l2 & -> & Hn & Hl).
    exists (x :: l1), l2. split; [done|]. split; [|simpl; congruence].
    apply not_elem_of_cons. split; [congruence | done].
Qed.

Lemma snoc_split {A} (l : list A) : l ≠ [] -> exists l' x, l = l' ++ [x].
Proof.
  intros H. destruct l as [|a l] using rev_ind; [done|]. by exists l, a.
Qed.

Lemma lookup_split {A} (l : list A) (i : nat) (x : A) :
  l !! i = Some x -> exists l1 l2, l = l1 ++ x :: l2 /\ length l1 = i.
Proof.
  intros H. exists (take i l), (drop (S i) l). split.
  - by rewrite take_drop_middle.
  - rewrite length_take. apply lookup_lt_Some in H. lia.
Qed.

Lemma swap_Ok_inv (p p' : list Z) (i j : Z) :
  swap p i j = Ok p' -> exists x y, rd p i = Ok x /\ rd p j = Ok y.
Proof.
  unfold swap. destruct (rd p i) as [x|]; [|discriminate].
  destruct (rd p j) as [y|]; [|discriminate]. intros _. by exists x, y.
Qed.

(** Every successful [change] on a board without repeated values is a
    legal slide. *)
Lemma change_slides (M N : Z) (c : key) (p p' : list Z) :
  0 < N -> Z.of_nat (length p) = M * N -> NoDup p ->
  change M N p c = Ok p' -> slides N c p p'.
Proof.
  intros HN Hlen Hnd Hch.
  assert (-1 ∈ p) as Hin.
  { destruct (decide (-1 ∈ p)) as [|Hno]; [done|]. exfalso.
    unfold change, find in Hch. rewrite find_from_absent in Hch; [discriminate|].
    intros Ht. apply Hno. by apply (subseteq_take (Z.to_nat (M * N))). }
  destruct (position_split (-1) p Hin) as (l1 & l2 & -> & Hn1 & Hl1).
  assert (change M N (l1 ++ -1 :: l2) c = Ok p') as Hch' by done.
  unfold change in Hch. rewrite (find_blank M N l1 l2 Hlen Hn1) in Hch.
  simpl rbind in Hch. rewrite Z.rem_mod_nonneg, Z.quot_div_nonneg in Hch by lia.
  apply NoDup_app in Hnd as (Hnd1 & Hdis & Hnd2).
  apply NoDup_cons in Hnd2 as [Hn2 Hnd2].
  pose proof (Z.mod_pos_bound (Z.of_nat (length l1)) N HN) as Hmod.
  destruct c.
  - (* W *)
    destruct (Z.ltb_spec 0 (Z.of_nat (length l1) / N)) as [Hr|]; [|discriminate].
    apply swap_Ok_inv in Hch as (_ & x & _ & Hx).
    apply rd_Ok in Hx as [Hge Hx].
    rewrite lookup_app_l in Hx by lia.
    apply lookup_split in Hx as (l0 & mid & -> & Hl0).
    rewrite length_app in Hge, Hl0. simpl in Hge, Hl0.
    assert (Z.of_nat (length mid) + 1 = N) as Hmid by lia.
    assert (x ≠ -1) as Hx1.
    { intros ->. apply Hn1. apply elem_of_app. right. by left. }
    apply NoDup_app in Hnd1 as (_ & _ & Hnd1). apply NoDup_cons in Hnd1 as [Hxm _].
    assert ((-1 ∉ l0) /\ (-1 ∉ mid)) as [Hb0 Hbm].
    { rewrite elem_of_app, elem_of_cons in Hn1. tauto. }
    assert (slides N kW (l0 ++ x :: mid ++ -1 :: l2) (l0 ++ -1 :: mid ++ x :: l2)) as Hs
      by (by constructor).
    rewrite <- app_assoc in Hch', Hlen. simpl in Hch', Hlen.
    rewrite (slides_change M N _ _ _ HN Hlen Hs) in Hch'. injection Hch' as <-.
    rewrite <- app_assoc. exact Hs.
  - (* A *)
    destruct (Z.ltb_spec 0 (Z.of_nat (length l1) mod N)) as [Hc|]; [|discriminate].
    assert (l1 ≠ []) as Hne by (intros ->; simpl in Hc; rewrite Z.mod_0_l in Hc; lia).
    apply snoc_split in Hne as (l0 & x & ->).
    rewrite length_app in Hc. simpl in Hc.
    assert ((-1 ∉ l0) /\ x ≠ -1) as [Hb0 Hx1].
    { rewrite elem_of_app, list_elem_of_singleton in Hn1. split; [tauto|].
      intros ->. tauto. }
    assert (slides N kA (l0 ++ x :: -1 :: l2) (l0 ++ -1 :: x :: l2)) as Hs.
    { constructor; [done|done|].
      replace (Z.of_nat (length l0) + 1) with (Z.of_nat (length l0 + 1)) by lia. lia. }
    rewrite <- app_assoc in Hch', Hlen. simpl in Hch', Hlen.
    rewrite (slides_change M N _ _ _ HN Hlen Hs) in Hch'. injection Hch' as <-.
    rewrite <- app_assoc. exact Hs.
  - (* S *)
    destruct (Z.ltb_spec (Z.of_nat (length l1) / N) (M - 1)) as [Hr|]; [|discriminate].
    apply swap_Ok_inv in Hch as (_ & x & _ & Hx).
    apply rd_Ok in Hx as [Hge Hx].
    rewrite lookup_app_r in Hx by lia.
    replace (Z.to_nat (Z.of_nat (length l1) + N) - length l1)%nat
      with (S (Z.to_nat (N - 1))) in Hx by lia.
    simpl in Hx.
    apply lookup_split in Hx as (mid & l3 & -> & Hlm).
    assert (x ≠ -1 /\ -1 ∉ mid) as [Hx1 Hbm].
    { rewrite elem_of_app, elem_of_cons in Hn2. split; [intros ->|]; tauto. }
    apply NoDup_app in Hnd2 as (_ & Hxm & _).
    assert (x ∉ mid) as Hxm'.
    { intros Hxin. apply (Hxm x Hxin). by left. }
    assert (slides N kS (l1 ++ -1 :: mid ++ x :: l3) (l1 ++ x :: mid ++ -1 :: l3)) as Hs
      by (constructor; [done|done|done|done|lia]).
    rewrite (slides_change M N _ _ _ HN Hlen Hs) in Hch'. injection Hch' as <-.
    exact Hs.
  - (* D *)
    destruct (Z.ltb_spec (Z.of_nat (length l1) mod N) (N - 1)) as [Hc|]; [|discriminate].
    apply swap_Ok_inv in Hch as (_ & x & _ & Hx).
    apply rd_Ok in Hx as [Hge Hx].
    rewrite lookup_app_r in Hx by lia.
    replace (Z.to_nat (Z.of_nat (length l1) + 1) - length l1)%nat with 1%nat in Hx by lia.
    destruct l2 as [|x' l3]; [done|]. simpl in Hx. injection Hx as ->.
    assert (x ≠ -1) as Hx1.
    { intros ->. apply Hn2. by left. }
    assert (slides N kD (l1 ++ -1 :: x :: l3) (l1 ++ x :: -1 :: l3)) as Hs.
    { constructor; [done|done|].
      rewrite <- Zplus_mod_idemp_l. rewrite Z.mod_small; lia. }
    rewrite (slides_change M N _ _ _ HN Hlen Hs) in Hch'. injection Hch' as <-.
    exact Hs.
Qed.

(** ** The board in canonical order *)

Lemma below_sorted (x : Z) (l : list Z) : (forall y, y ∈ l -> x < y) -> below x l = 0%nat.
Proof.
  intros H. unfold below. destruct (x =? -1); [done|].
  induction l as [|y l IH]; [done|].
  rewrite filter_cons. case_decide as Hd.
  - destruct Hd as [_ Hd]. specialize (H y ltac:(by left)). lia.
  - apply IH. intros z Hz. apply H. by right.
Qed.

Lemma reverse_pairs_seq (start n : nat) : reverse_pairs (Z.of_nat <$> seq start n) = 0%nat.
Proof.
  revert start. induction n as [|n IH]; intros start; [done|].
  simpl. rewrite IH, below_sorted; [done|].
  intros y Hy. apply list_elem_of_fmap in Hy as (k & -> & Hk).
  apply elem_of_seq in Hk. lia.
Qed.

Lemma solved_board_parity (M N : Z) :
  1 <= M -> 1 <= N -> parity_rule M N (solved_board M N) = true.
Proof.
  intros HM HN. unfold parity_rule, solved_board.
  rewrite reverse_pairs_blank, app_nil_r, reverse_pairs_seq.
  destruct (Z.odd N); [done|].
  rewrite blank_row_at.
  - rewrite length_fmap, length_seq.
    replace (Z.of_nat (Z.to_nat (M * N) - 1)) with ((N - 1) + (M - 1) * N) by nia.
    rewrite Z.div_add by lia.
    rewrite Z.div_small by lia.
    replace (M - 1 - (0 + (M - 1))) with 0 by lia. done.
  - intros Hin. apply list_elem_of_fmap in Hin as (k & Hk & _). lia.
Qed.

Lemma solved_board_valid (M N : Z) : valid_board M N (solved_board M N).
Proof. unfold valid_board. reflexivity. Qed.

Lemma can_solve_solved_board (M N : Z) :
  1 <= M -> 1 <= N -> can_solve M N (solved_board M N) = Ok true.
Proof.
  intros HM HN. rewrite can_solve_rule by (try done; apply solved_board_valid).
  by rewrite solved_board_parity.
Qed.

(** A legal slide keeps the invariant and the answer of [can_solve]. *)
Lemma change_can_solve (M N : Z) (c : key) (p p' : list Z) :
  1 <= M -> 1 <= N -> valid_board M N p -> change M N p c = Ok p' ->
  valid_board M N p' /\ can_solve M N p' = can_solve M N p.
Proof.
  intros HM HN Hp Hch.
  assert (slides N c p p') as Hs.
  { apply (change_slides M N); [lia| |by eapply valid_board_NoDup|done].
    apply valid_board_length; [nia|done]. }
  assert (valid_board M N p') as Hp'.
  { unfold valid_board. rewrite (slides_Permutation N c p p' Hs). exact Hp. }
  split; [done|].
  rewrite !can_solve_rule by done. f_equal. apply (slides_parity M N c); [lia|done].
Qed.

(** ** The last 2 x 2 block *)

(** What [append] does when the keys are all legal. *)
Lemma append_each_replay (M N : Z) (l : list key) (s : state) (p' : list Z) :
  replay M N l (puzzle s) = Ok p' ->
  exists s', append_each M N l s = Done tt s'
             /\ puzzle s' = p' /\ sol s' = sol s /\ printout s' = printout s
             /\ length (history s') = (length (history s) + length l)%nat.
Proof.
  revert s. induction l as [|c l IH]; intros s; simpl.
  - intros [= <-]. exists s. by rewrite Nat.add_0_r.
  - destruct (change M N (puzzle s) c) as [p1|e] eqn:E; [|discriminate]. simpl.
    intros Hre.
    set (s1 := State p1 (sol s) (printout s) (console s) (history s ++ [p1])).
    assert (apply_change M N c s = Done tt s1) as H1.
    { unfold apply_change, bind, get, lift. by rewrite E. }
    assert (exists s2, render s1 = Done tt s2 /\ puzzle s2 = p1 /\ sol s2 = sol s
                       /\ printout s2 = printout s /\ history s2 = history s1)
      as (s2 & H2 & Hp2 & Hs2 & Hpr2 & Hh2).
    { unfold render, bind, get, emit, ret. simpl.
      destruct (printout s); eexists; (split; [reflexivity|done]). }
    rewrite <- Hp2 in Hre. destruct (IH s2 Hre) as (s' & H3 & Hp' & Hs' & Hpr' & Hh').
    exists s'. rewrite (bind_Done _ _ _ _ _ H1), (bind_Done _ _ _ _ _ H2).
    split; [done|]. split; [done|]. split; [congruence|]. split; [congruence|].
    rewrite Hh', Hh2. unfold s1. simpl. rewrite length_app. simpl. lia.
Qed.

Lemma append_replay (M N : Z) (l : list key) (s : state) (p' : list Z) :
  replay M N l (puzzle s) = Ok p' ->
  exists s', append M N l s = Done tt s'
             /\ puzzle s' = p' /\ sol s' = sol s ++ l /\ printout s' = printout s
             /\ length (history s') = (length (history s) + length l)%nat.
Proof.
  intros Hre. unfold append, bind, get, set_sol.
  apply (append_each_replay M N l
           (State (puzzle s) (sol s ++ l) (printout s) (console s) (history s))).
  exact Hre.
Qed.

Section Block.
Variables M N : Z.
Hypothesis M_ge : 2 <= M.
Hypothesis N_ge : 2 <= N.
(** The cells before the block, and those between its two rows. *)
Variables H1 H2 : list Z.
Hypothesis H1_length : Z.of_nat (length H1) = (M - 2) * N + N - 2.
Hypothesis H2_length : Z.of_nat (length H2) = N - 2.

Lemma block_length (a b c : Z) : Z.of_nat (length (block H1 H2 a b c)) = M * N.
Proof.
  unfold block. rewrite length_app. simpl. rewrite length_app. simpl. lia.
Qed.

(** The macro A, W, D, S as four legal slides: [a b / c _] becomes [b c / a _]. *)
Lemma block_turn (a b c : Z) :
  NoDup (block H1 H2 a b c) ->
  exists p1 p2 p3,
    slides N kA (block H1 H2 a b c) p1 /\ slides N kW p1 p2
    /\ slides N kD p2 p3 /\ slides N kS p3 (block H1 H2 b c a).
Proof.
  unfold block. intros Hnd.
  apply NoDup_app in Hnd as (_ & Hd1 & Hnd).
  assert (-1 ∉ H1) as Hb1.
  { intros Hin. apply (Hd1 _ Hin). rewrite !elem_of_cons, elem_of_app, !elem_of_cons. intuition congruence. }
  apply NoDup_cons in Hnd as [Ha Hnd]. apply NoDup_cons in Hnd as [Hb Hnd].
  apply NoDup_app in Hnd as (_ & Hd2 & Hnd).
  apply NoDup_cons in Hnd as [Hc _].
  rewrite !elem_of_cons, elem_of_app, !elem_of_cons, elem_of_nil in Ha.
  rewrite elem_of_app, !elem_of_cons, elem_of_nil in Hb.
  rewrite !elem_of_cons, elem_of_nil in Hc.
  assert (-1 ∉ H2) as Hb2.
  { intros Hin. apply (Hd2 _ Hin). rewrite !elem_of_cons. intuition congruence. }
  assert (c ∉ H2) as Hc2.
  { intros Hin. apply (Hd2 _ Hin). rewrite !elem_of_cons. intuition congruence. }
  exists (H1 ++ a :: b :: H2 ++ [-1; c]), (H1 ++ -1 :: b :: H2 ++ [a; c]),
         (H1 ++ b :: -1 :: H2 ++ [a; c]).
  split; [|split; [|split]].
  - replace (H1 ++ a :: b :: H2 ++ [c; -1]) with ((H1 ++ a :: b :: H2) ++ c :: -1 :: [])
      by (rewrite <- app_assoc; done).
    replace (H1 ++ a :: b :: H2 ++ [-1; c]) with ((H1 ++ a :: b :: H2) ++ -1 :: c :: [])
      by (rewrite <- app_assoc; done).
    constructor.
    + rewrite elem_of_app, !elem_of_cons. intuition congruence.
    + intuition congruence.
    + rewrite length_app. simpl.
      replace (Z.of_nat (length H1 + S (S (length H2))) + 1) with ((N - 1) + (M - 1) * N) by lia.
      rewrite Z.mod_add by lia. rewrite Z.mod_small by lia. lia.
  - apply (slides_W N H1 (b :: H2) [c] a); try (intuition congruence).
    + rewrite elem_of_cons. intuition congruence.
    + rewrite elem_of_cons. intuition congruence.
    + simpl. lia.
  - apply (slides_D N H1 (H2 ++ [a; c]) b); try (intuition congruence).
    replace (Z.of_nat (length H1) + 1) with ((N - 1) + (M - 2) * N) by lia.
    rewrite Z.mod_add by lia. rewrite Z.mod_small by lia. lia.
  - replace (H1 ++ b :: -1 :: H2 ++ [a; c]) with ((H1 ++ [b]) ++ -1 :: (H2 ++ [a]) ++ c :: [])
      by (rewrite <- !app_assoc; done).
    replace (H1 ++ b :: c :: H2 ++ [a; -1]) with ((H1 ++ [b]) ++ c :: (H2 ++ [a]) ++ -1 :: [])
      by (rewrite <- !app_assoc; done).
    constructor.
    + rewrite elem_of_app, list_elem_of_singleton. intuition congruence.
    + intuition congruence.
    + rewrite elem_of_app, list_elem_of_singleton. intuition congruence.
    + rewrite elem_of_app, list_elem_of_singleton. intuition congruence.
    + rewrite length_app. simpl. lia.
Qed.

Lemma slides_length (c : key) (p p' : list Z) :
  slides N c p p' -> length p' = length p.
Proof. intros Hs. by rewrite (slides_Permutation N c p p' Hs). Qed.

Lemma block_macro (a b c : Z) :
  NoDup (block H1 H2 a b c) ->
  replay M N [kA; kW; kD; kS] (block H1 H2 a b c) = Ok (block H1 H2 b c a)
  /\ parity_rule M N (block H1 H2 b c a) = parity_rule M N (block H1 H2 a b c)
  /\ NoDup (block H1 H2 b c a).
Proof.
  intros Hnd. destruct (block_turn a b c Hnd) as (p1 & p2 & p3 & S1 & S2 & S3 & S4).
  pose proof (block_length a b c) as L0.
  pose proof (slides_length _ _ _ S1) as L1.
  pose proof (slides_length _ _ _ S2) as L2.
  pose proof (slides_length _ _ _ S3) as L3.
  split; [|split].
  - simpl.
    rewrite (slides_change M N kA _ p1) by (try done; lia). simpl.
    rewrite (slides_change M N kW _ p2) by (try done; lia). simpl.
    rewrite (slides_change M N kD _ p3) by (try done; lia). simpl.
    rewrite (slides_change M N kS _ (block H1 H2 b c a)) by (try done; lia). done.
  - rewrite (slides_parity M N kS p3), (slides_parity M N kD p2),
      (slides_parity M N kW p1), (slides_parity M N kA (block H1 H2 a b c)); (done || lia).
  - rewrite (slides_Permutation N _ _ _ S4), (slides_Permutation N _ _ _ S3),
      (slides_Permutation N _ _ _ S2), (slides_Permutation N _ _ _ S1). done.
Qed.

Lemma block_cells (a b c : Z) :
  rd (block H1 H2 a b c) (M * N - 2) = Ok c
  /\ rd (block H1 H2 a b c) ((M - 1) * N - 1) = Ok b
  /\ rd (block H1 H2 a b c) ((M - 1) * N - 2) = Ok a.
Proof.
  unfold block. split; [|split]; apply rd_Ok; (split; [nia|]).
  - rewrite lookup_app_r by lia.
    replace (Z.to_nat (M * N - 2) - length H1)%nat with (S (S (length H2))) by lia.
    simpl. by rewrite lookup_app_r, Nat.sub_diag by lia.
  - rewrite lookup_app_r by lia.
    by replace (Z.to_nat ((M - 1) * N - 1) - length H1)%nat with 1%nat by lia.
  - rewrite lookup_app_r by lia.
    by replace (Z.to_nat ((M - 1) * N - 2) - length H1)%nat with 0%nat by lia.
Qed.

(** The test of the last loop, on a board of this shape. *)
Lemma block_wrong_block (s : state) (a b c : Z) :
  puzzle s = block H1 H2 a b c ->
  block_wrong M N s
  = Done (negb ((c =? M * N - 1) && (b =? (M - 1) * N) && (a =? (M - 1) * N - 1))) s.
Proof.
  intros Hp. destruct (block_cells a b c) as (Hc & Hb & Ha).
  rewrite <- Hp in Hc, Hb, Ha.
  unfold block_wrong.
  rewrite (bind_Done _ _ _ _ _ (peek_Done _ _ _ Hc)).
  destruct (c =? M * N - 1); cbn [negb andb]; [|done].
  rewrite (bind_Done _ _ _ _ _ (peek_Done _ _ _ Hb)).
  destruct (b =? (M - 1) * N); cbn [negb andb]; [|done].
  rewrite (bind_Done _ _ _ _ _ (peek_Done _ _ _ Ha)). done.
Qed.

End Block.

Section Endgame.
Variables M N : Z.
Hypothesis M_ge : 2 <= M.
Hypothesis N_ge : 2 <= N.

Lemma before_block_length : Z.of_nat (length (before_block M N)) = (M - 2) * N + N - 2.
Proof. unfold before_block, corner. rewrite length_fmap, length_seq. nia. Qed.

Lemma inside_block_length : Z.of_nat (length (inside_block M N)) = N - 2.
Proof. unfold inside_block. rewrite length_fmap, length_seq. lia. Qed.

Lemma solved_board_block :
  solved_board M N
  = block (before_block M N) (inside_block M N) ((M - 1) * N - 1) ((M - 1) * N) (M * N - 1).
Proof.
  unfold solved_board, block, before_block, inside_block.
  replace (Z.to_nat (M * N) - 1)%nat with (corner M N + (2 + (Z.to_nat (N - 2) + 1)))%nat
    by (unfold corner; nia).
  rewrite !seq_app, !fmap_app. simpl. rewrite <- !app_assoc. simpl.
  f_equal. f_equal; [unfold corner; nia|]. f_equal; [unfold corner; nia|].
  replace (S (corner M N + 2)) with (corner M N + 3)%nat by lia.
  rewrite <- app_assoc. simpl. f_equal. f_equal. unfold corner. nia.
Qed.

Lemma block_other (a b c a' b' c' : Z) (k : nat) :
  k ≠ corner M N -> k ≠ S (corner M N) -> k ≠ (corner M N + Z.to_nat N)%nat ->
  block (before_block M N) (inside_block M N) a b c !! k
  = block (before_block M N) (inside_block M N) a' b' c' !! k.
Proof.
  intros K1 K2 K3. unfold block.
  pose proof before_block_length as L1. pose proof inside_block_length as L2.
  assert (length (before_block M N) = (corner M N)) as E1 by (unfold corner; lia).
  destruct (decide (k < (corner M N))%nat) as [Hlt|Hge].
  - by rewrite !lookup_app_l by lia.
  - rewrite !lookup_app_r by lia. rewrite E1.
    destruct (k - (corner M N))%nat as [|[|j]] eqn:Ek; [lia|lia|]. simpl.
    destruct (decide (j < length (inside_block M N))%nat) as [Hj|Hj].
    + by rewrite !lookup_app_l by lia.
    + rewrite !lookup_app_r by lia.
      destruct (j - length (inside_block M N))%nat as [|i] eqn:Ej; [lia|done].
Qed.

Lemma block_at (a b c : Z) :
  block (before_block M N) (inside_block M N) a b c !! (corner M N) = Some a
  /\ block (before_block M N) (inside_block M N) a b c !! S (corner M N) = Some b
  /\ block (before_block M N) (inside_block M N) a b c !! (corner M N + Z.to_nat N)%nat = Some c.
Proof.
  pose proof before_block_length as L1. pose proof inside_block_length as L2.
  assert (length (before_block M N) = (corner M N)) as E1 by (unfold corner; lia).
  unfold block. split; [|split]; rewrite lookup_app_r by lia; rewrite E1.
  - by rewrite Nat.sub_diag.
  - by replace (S (corner M N) - (corner M N))%nat with 1%nat by lia.
  - replace (corner M N + Z.to_nat N - (corner M N))%nat with (S (S (length (inside_block M N)))) by lia.
    simpl. by rewrite lookup_app_r, Nat.sub_diag by lia.
Qed.

(** A board that agrees with the canonical one outside three cells of the
    block has this shape. *)
Lemma agree_block (p : list Z) :
  Z.of_nat (length p) = M * N ->
  (forall k : nat, k ≠ corner M N -> k ≠ S (corner M N) -> k ≠ (corner M N + Z.to_nat N)%nat ->
                   p !! k = solved_board M N !! k) ->
  exists a b c, p = block (before_block M N) (inside_block M N) a b c.
Proof.
  intros Hlen Hag.
  assert (corner M N + Z.to_nat N < length p)%nat as Hc by (unfold corner; nia).
  destruct (lookup_lt_is_Some_2 p (corner M N) ltac:(lia)) as [a Ha].
  destruct (lookup_lt_is_Some_2 p (S (corner M N)) ltac:(lia)) as [b Hb].
  destruct (lookup_lt_is_Some_2 p (corner M N + Z.to_nat N)%nat ltac:(lia)) as [c Hc'].
  exists a, b, c. apply list_eq. intros k.
  destruct (block_at a b c) as (B1 & B2 & B3).
  destruct (decide (k = (corner M N))) as [->|K1]; [congruence|].
  destruct (decide (k = S (corner M N))) as [->|K2]; [congruence|].
  destruct (decide (k = (corner M N + Z.to_nat N)%nat)) as [->|K3]; [congruence|].
  rewrite (Hag k K1 K2 K3), solved_board_block. by apply block_other.
Qed.

Abbreviation B := (block (before_block M N) (inside_block M N)).
Abbreviation t1 := ((M - 1) * N - 1).
Abbreviation t2 := ((M - 1) * N).
Abbreviation t3 := (M * N - 1).

Lemma block_Permutation (a b c a' b' c' : Z) :
  [a; b; c] ≡ₚ [a'; b'; c'] -> B a b c ≡ₚ B a' b' c'.
Proof.
  intros H. unfold block. apply Permutation_app_head.
  change (a :: b :: inside_block M N ++ [c; -1]) with ([a; b] ++ inside_block M N ++ [c; -1]).
  change (a' :: b' :: inside_block M N ++ [c'; -1]) with ([a'; b'] ++ inside_block M N ++ [c'; -1]).
  rewrite !(Permutation_app_swap_app _ (inside_block M N)). apply Permutation_app_head.
  simpl. change [a; b; c; -1] with ([a; b; c] ++ [-1]).
  change [a'; b'; c'; -1] with ([a'; b'; c'] ++ [-1]). by rewrite H.
Qed.

Lemma block_Permutation_inv (a b c a' b' c' : Z) :
  B a b c ≡ₚ B a' b' c' -> [a; b; c] ≡ₚ [a'; b'; c'].
Proof.
  unfold block. intros H. apply Permutation_app_inv_l in H.
  change (a :: b :: inside_block M N ++ [c; -1]) with ([a; b] ++ inside_block M N ++ [c; -1]) in H.
  change (a' :: b' :: inside_block M N ++ [c'; -1]) with ([a'; b'] ++ inside_block M N ++ [c'; -1]) in H.
  rewrite !(Permutation_app_swap_app _ (inside_block M N)) in H.
  apply Permutation_app_inv_l in H. simpl in H.
  change [a; b; c; -1] with ([a; b; c] ++ [-1]) in H.
  change [a'; b'; c'; -1] with ([a'; b'; c'] ++ [-1]) in H.
  by apply Permutation_app_inv_r in H.
Qed.

Lemma targets_distinct : t1 ≠ t2 /\ t1 ≠ t3 /\ t2 ≠ t3.
Proof. lia. Qed.

(** The three arrangements that the macro reaches from the canonical one
    satisfy the invariant and the rule. *)
Lemma even_arrangement (a b c : Z) :
  (a, b, c) = (t1, t2, t3) \/ (a, b, c) = (t3, t1, t2) \/ (a, b, c) = (t2, t3, t1) ->
  valid_board M N (B a b c) /\ parity_rule M N (B a b c) = true.
Proof.
  assert (valid_board M N (B t1 t2 t3)) as V0.
  { rewrite <- solved_board_block. apply solved_board_valid. }
  assert (parity_rule M N (B t1 t2 t3) = true) as P0.
  { rewrite <- solved_board_block. apply solved_board_parity; lia. }
  assert (valid_board M N (B t3 t1 t2)) as V1.
  { unfold valid_board. rewrite <- V0. apply block_Permutation.
    change [t3; t1; t2] with ([t3] ++ [t1; t2]). by rewrite Permutation_app_comm. }
  assert (parity_rule M N (B t3 t1 t2) = true) as P1.
  { rewrite <- P0. symmetry.
    apply (block_macro M N N_ge _ _ before_block_length inside_block_length t3 t1 t2).
    by eapply valid_board_NoDup. }
  assert (valid_board M N (B t2 t3 t1)) as V2.
  { unfold valid_board. rewrite <- V1. apply block_Permutation.
    change [t2; t3; t1] with ([t2] ++ [t3; t1]). by rewrite Permutation_app_comm. }
  assert (parity_rule M N (B t2 t3 t1) = true) as P2.
  { rewrite <- P1. symmetry.
    apply (block_macro M N N_ge _ _ before_block_length inside_block_length t2 t3 t1).
    by eapply valid_board_NoDup. }
  intros [[= -> -> ->]|[[= -> -> ->]|[= -> -> ->]]]; done.
Qed.

(** The other three are one exchange of the top cells away, and are
    rejected by [can_solve]. *)
Lemma odd_arrangement (a b c : Z) :
  (a, b, c) = (t2, t1, t3) \/ (a, b, c) = (t1, t3, t2) \/ (a, b, c) = (t3, t2, t1) ->
  can_solve M N (B a b c) = Ok false.
Proof.
  intros Hodd.
  assert ((b, a, c) = (t1, t2, t3) \/ (b, a, c) = (t3, t1, t2) \/ (b, a, c) = (t2, t3, t1))
    as Heven by (destruct Hodd as [[= -> -> ->]|[[= -> -> ->]|[= -> -> ->]]]; auto).
  destruct (even_arrangement b a c Heven) as [V P].
  assert (a ≠ -1 /\ b ≠ -1 /\ b ≠ a) as (Ha & Hb & Hab)
    by (destruct Hodd as [[= -> -> ->]|[[= -> -> ->]|[= -> -> ->]]]; nia).
  apply (can_solve_swap M N (before_block M N) ((inside_block M N) ++ [c; -1]) b a true);
    try done.
  - apply valid_board_length; [nia | exact V].
  - apply (valid_board_blank M N). exact V.
  - change (before_block M N ++ b :: a :: inside_block M N ++ [c; -1]) with (B b a c).
    rewrite can_solve_rule by (try lia; exact V). by rewrite P.
Qed.

End Endgame.

Lemma while_exit (fuel : nat) (cond : comp bool) (body : comp unit) (s s1 : state) :
  cond s = Done false s1 -> while fuel cond body s = Done tt s1.
Proof. intros Hc. destruct fuel; simpl; by rewrite (bind_Done _ _ _ _ _ Hc). Qed.

Lemma while_turn (fuel : nat) (cond : comp bool) (body : comp unit) (s s1 s2 : state) :
  cond s = Done true s1 -> body s1 = Done tt s2 ->
  while (S fuel) cond body s = while fuel cond body s2.
Proof.
  intros Hc Hb. simpl. by rewrite (bind_Done _ _ _ _ _ Hc), (bind_Done _ _ _ _ _ Hb).
Qed.

Section EndgameRuns.
Variables M N : Z.
Hypothesis M_ge : 2 <= M.
Hypothesis N_ge : 2 <= N.

Abbreviation B := (block (before_block M N) (inside_block M N)).
Abbreviation t1 := ((M - 1) * N - 1).
Abbreviation t2 := ((M - 1) * N).
Abbreviation t3 := (M * N - 1).

Lemma endgame_exit (s : state) :
  puzzle s = B t1 t2 t3 -> forall fuel, endgame M N fuel s = Done tt s.
Proof.
  intros Hp fuel. unfold endgame. apply while_exit.
  rewrite (block_wrong_block M N M_ge N_ge _ _ (before_block_length M N M_ge N_ge)
             (inside_block_length M N N_ge) s _ _ _ Hp).
  by rewrite !Z.eqb_refl.
Qed.

Lemma endgame_turn (s : state) (a b c : Z) :
  puzzle s = B a b c -> NoDup (B a b c) -> (a, b, c) ≠ (t1, t2, t3) ->
  exists s1, puzzle s1 = B b c a
             /\ sol s1 = sol s ++ [kA; kW; kD; kS]
             /\ forall fuel, endgame M N (S fuel) s = endgame M N fuel s1.
Proof.
  intros Hp Hnd Hne.
  destruct (block_macro M N N_ge _ _ (before_block_length M N M_ge N_ge)
              (inside_block_length M N N_ge) a b c Hnd) as (Hre & _ & _).
  rewrite <- Hp in Hre.
  destruct (append_replay M N _ s _ Hre) as (s1 & Happ & Hp1 & Hs1 & _ & _).
  exists s1. split; [done|]. split; [done|]. intros fuel. unfold endgame.
  apply (while_turn fuel _ _ s s s1); [|exact Happ].
  rewrite (block_wrong_block M N M_ge N_ge _ _ (before_block_length M N M_ge N_ge)
             (inside_block_length M N N_ge) s _ _ _ Hp).
  f_equal. apply negb_true_iff, andb_false_iff.
  destruct (Z.eqb_spec c t3) as [->|]; [|left; apply andb_false_iff; by left].
  destruct (Z.eqb_spec b t2) as [->|]; [|left; apply andb_false_iff; by right].
  destruct (Z.eqb_spec a t1) as [->|]; [done | by right].
Qed.

End EndgameRuns.

(** C8: in the last phase of [autosolve], on a board that satisfies the
    invariant, agrees with the canonical board in every cell but the three
    tiles of the bottom-right 2 x 2 block (so the blank is in the
    bottom-right corner) and is accepted by [can_solve], the loop applies
    the macro A, W, D, S at most twice and then stops, the three cells and
    the whole board being in canonical order. *)
Theorem C8_endgame_at_most_two (M N : Z) (s : state) :
  2 <= M -> 2 <= N ->
  valid_board M N (puzzle s) ->
  (forall k : nat,
      k ≠ corner M N -> k ≠ S (corner M N) -> k ≠ (corner M N + Z.to_nat N)%nat ->
      puzzle s !! k = solved_board M N !! k) ->
  can_solve M N (puzzle s) = Ok true ->
  exists (n : nat) (s' : state),
    (n <= 2)%nat
    /\ (forall fuel, (n <= fuel)%nat -> endgame M N fuel s = Done tt s')
    /\ sol s' = sol s ++ mjoin (replicate n [kA; kW; kD; kS])
    /\ puzzle s' = solved_board M N
    /\ rd (puzzle s') ((M - 2) * N + N - 2) = Ok ((M - 2) * N + N - 1)
    /\ rd (puzzle s') ((M - 2) * N + N - 1) = Ok ((M - 2) * N + N)
    /\ rd (puzzle s') ((M - 1) * N + N - 2) = Ok ((M - 1) * N + N - 1).
Proof.
  intros HM HN Hv Hag Hcs.
  assert (Z.of_nat (length (puzzle s)) = M * N) as Hlen
    by (apply valid_board_length; [nia|done]).
  destruct (agree_block M N HM HN (puzzle s) Hlen Hag) as (a & b & c & Hp).
  set (B := block (before_block M N) (inside_block M N)) in *.
  set (t1 := (M - 1) * N - 1). set (t2 := (M - 1) * N). set (t3 := M * N - 1).
  assert (solved_board M N = B t1 t2 t3) as Hsol by (apply solved_board_block; done).
  assert ([a; b; c] ≡ₚ [t1; t2; t3]) as Hperm.
  { apply (block_Permutation_inv M N). fold B. rewrite <- Hp, <- Hsol. exact Hv. }
  assert (NoDup (B a b c)) as Hnd by (rewrite <- Hp; by eapply valid_board_NoDup).
  (* the cells of the block, once it is in canonical order *)
  assert (forall s', puzzle s' = solved_board M N ->
            rd (puzzle s') ((M - 2) * N + N - 2) = Ok ((M - 2) * N + N - 1)
            /\ rd (puzzle s') ((M - 2) * N + N - 1) = Ok ((M - 2) * N + N)
            /\ rd (puzzle s') ((M - 1) * N + N - 2) = Ok ((M - 1) * N + N - 1)) as Hcells.
  { intros s' ->. rewrite Hsol.
    destruct (block_cells M N HM HN _ _ (before_block_length M N HM HN)
                (inside_block_length M N HN) t1 t2 t3) as (C3 & C2 & C1).
    fold B in C1, C2, C3. unfold t1, t2, t3 in *.
    replace ((M - 2) * N + N - 2) with ((M - 1) * N - 2) by lia.
    replace ((M - 2) * N + N - 1) with ((M - 1) * N - 1) by lia.
    replace ((M - 1) * N + N - 2) with (M * N - 2) by lia.
    replace ((M - 2) * N + N) with ((M - 1) * N) by lia.
    replace ((M - 1) * N + N - 1) with (M * N - 1) by lia. done. }
  assert (a ∈ [t1; t2; t3] /\ b ∈ [t1; t2; t3] /\ c ∈ [t1; t2; t3]) as (Ia & Ib & Ic).
  { rewrite <- Hperm. rewrite !elem_of_cons. tauto. }
  assert (NoDup [a; b; c]) as Hnd3.
  { rewrite Hperm. unfold t1, t2, t3. repeat constructor; rewrite ?elem_of_cons, ?elem_of_nil; nia. }
  assert (a ≠ b /\ a ≠ c /\ b ≠ c) as (Hab & Hac & Hbc).
  { apply NoDup_cons in Hnd3 as [F1 F2]. apply NoDup_cons in F2 as [F3 _].
    apply not_elem_of_cons in F1 as [? F1]. apply not_elem_of_cons in F1 as [? _].
    apply not_elem_of_cons in F3 as [? _]. done. }
  rewrite !elem_of_cons, elem_of_nil in Ia, Ib, Ic.
  assert ((a, b, c) = (t1, t2, t3) \/ (a, b, c) = (t3, t1, t2) \/ (a, b, c) = (t2, t3, t1)
          \/ (a, b, c) = (t2, t1, t3) \/ (a, b, c) = (t1, t3, t2) \/ (a, b, c) = (t3, t2, t1))
    as Hcases.
  { destruct Ia as [->|[->|[->|[]]]], Ib as [->|[->|[->|[]]]], Ic as [->|[->|[->|[]]]];
      try (exfalso; tauto); tauto. }
  destruct Hcases as [E|[E|[E|Hodd]]].
  - (* already in order: no application *)
    injection E as -> -> ->. exists 0%nat, s. split; [lia|].
    split; [intros fuel _; by apply endgame_exit|].
    split; [by rewrite app_nil_r|]. split; [by rewrite Hsol|]. apply Hcells. by rewrite Hsol.
  - (* one application *)
    injection E as -> -> ->.
    destruct (endgame_turn M N HM HN s t3 t1 t2 Hp Hnd) as (s1 & Hp1 & Hs1 & Hrun).
    { unfold t1, t2, t3. intros [= ? ? ?]. nia. }
    exists 1%nat, s1. split; [lia|]. split.
    { intros [|fuel] Hf; [lia|]. rewrite Hrun. by apply endgame_exit. }
    split; [by rewrite Hs1|]. split; [by rewrite Hsol|]. apply Hcells. by rewrite Hsol.
  - (* two applications *)
    injection E as -> -> ->.
    destruct (endgame_turn M N HM HN s t2 t3 t1 Hp Hnd) as (s1 & Hp1 & Hs1 & Hrun1).
    { unfold t1, t2, t3. intros [= ? ? ?]. nia. }
    assert (NoDup (B t3 t1 t2)) as Hnd1.
    { apply (block_macro M N HN _ _ (before_block_length M N HM HN)
               (inside_block_length M N HN) t2 t3 t1 Hnd). }
    destruct (endgame_turn M N HM HN s1 t3 t1 t2 Hp1 Hnd1) as (s2 & Hp2 & Hs2 & Hrun2).
    { unfold t1, t2, t3. intros [= ? ? ?]. nia. }
    exists 2%nat, s2. split; [lia|]. split.
    { intros [|[|fuel]] Hf; [lia|lia|]. rewrite Hrun1, Hrun2. by apply endgame_exit. }
    split; [rewrite Hs2, Hs1, <- app_assoc; done|]. split; [by rewrite Hsol|].
    apply Hcells. by rewrite Hsol.
  - (* the other three arrangements are rejected by can_solve *)
    exfalso. rewrite Hp in Hcs. unfold B in Hcs.
    rewrite (odd_arrangement M N HM HN a b c) in Hcs; [discriminate|].
    destruct Hodd as [E|[E|E]]; rewrite E; auto.
Qed.

Lemma C8_witness :
  let s0 := State [2; 3; 1; -1] [] false [] [] in
  2 <= 2 /\ valid_board 2 2 (puzzle s0) /\ can_solve 2 2 (puzzle s0) = Ok true
  /\ exists (n : nat) (s' : state),
       (n <= 2)%nat /\ endgame 2 2 2 s0 = Done tt s' /\ puzzle s' = solved_board 2 2.
Proof.
  intros s0.
  assert (valid_board 2 2 (puzzle s0)) as Hv by (apply (bool_decide_unpack _); vm_compute; exact I).
  assert (can_solve 2 2 (puzzle s0) = Ok true) as Hc by (vm_compute; reflexivity).
  split; [lia|]. split; [exact Hv|]. split; [exact Hc|].
  destruct (C8_endgame_at_most_two 2 2 s0) as (n & s' & Hn & Hrun & _ & Hp & _);
    [lia | lia | exact Hv | | exact Hc |].
  - intros k. change (corner 2 2) with 0%nat. change (Z.to_nat 2) with 2%nat.
    intros K0 K1 K2. destruct k as [|[|[|[|k]]]]; try lia; reflexivity.
  - exists n, s'. split; [exact Hn|]. split; [apply Hrun; exact Hn | exact Hp].
Defined.

(** ** Finalized rows *)

Lemma after_report_split (i : Z) (co co2 : list event) :
  after_report i co = Some co2 -> exists co1, co = co1 ++ RowReport i :: co2.
Proof.
  induction co as [|e co IH]; [discriminate|]. simpl.
  destruct e as [p|j|c].
  - intros H. destruct (IH H) as [co1 ->]. by exists (Screen p :: co1).
  - destruct (Z.eqb_spec j i) as [->|_].
    + intros [= ->]. by exists [].
    + intros H. destruct (IH H) as [co1 ->]. by exists (RowReport j :: co1).
  - intros H. destruct (IH H) as [co1 ->]. by exists (Printed c :: co1).
Qed.

(** C5 fails on the code.  On the 5 x 3 board below, which satisfies the
    invariant and is accepted by [can_solve], [autosolve] reports row 0 as
    solved (1 2 3), fails to solve row 1, and then, while it places tile 9
    for row 2, slides the blank up through column 1 into row 0: the board
    1 _ 3 / 4 2 13 / ... is shown after the report of row 0.  The run never
    leaves that loop; the console is read where the fuel ends. *)
Theorem C5_finalized_row_is_disturbed :
  let p := [8; 4; 6; 12; 2; 13; 7; 3; 10; 1; -1; 5; 11; 9; 14] in
  valid_board 5 3 p
  /\ can_solve 5 3 p = Ok true
  /\ exists s co1 co2,
       run_autosolve 1 5 3 p [] "y" = Halt OutOfFuel s
       /\ console s = co1 ++ RowReport 0 :: co2
       /\ Screen [1; -1; 3; 4; 2; 13; 7; 8; 10; 12; 9; 6; 11; 14; 5] ∈ co2
       /\ finalized_kept 3 0 (console s) = false.
Proof.
  intros p. split; [|split].
  - apply (bool_decide_unpack _). vm_compute. exact I.
  - vm_compute. reflexivity.
  - assert (exists s co2,
              run_autosolve 1 5 3 p [] "y" = Halt OutOfFuel s
              /\ after_report 0 (console s) = Some co2
              /\ bool_decide
                   (Screen [1; -1; 3; 4; 2; 13; 7; 8; 10; 12; 9; 6; 11; 14; 5] ∈ co2) = true
              /\ finalized_kept 3 0 (console s) = false) as (s & co2 & E & Ha & Hd & Hf).
    { eexists. eexists. split; [vm_compute; reflexivity|].
      split; [vm_compute; reflexivity|]. split; vm_compute; reflexivity. }
    apply after_report_split in Ha as [co1 Ha].
    apply bool_decide_eq_true in Hd.
    exists s, co1, co2.
    split; [exact E|]. split; [exact Ha|]. split; [exact Hd | exact Hf].
Qed.

(** * Reachability *)

(** ** Turning three neighbours in a list *)

Lemma rot3_app_r (t t' w : list Z) : rot3 t t' -> rot3 (t ++ w) (t' ++ w).
Proof.
  intros [u v a b c Hu]. rewrite <- !app_assoc. simpl. by constructor.
Qed.

Lemma rot3_app_l (pre t t' : list Z) :
  Nat.even (length pre) = true -> rot3 t t' -> rot3 (pre ++ t) (pre ++ t').
Proof.
  intros Hp [u v a b c Hu]. rewrite !app_assoc. constructor.
  rewrite length_app, Nat.even_add, Hp, Hu. done.
Qed.

Lemma turns_app_r (t t' w : list Z) : turns t t' -> turns (t ++ w) (t' ++ w).
Proof.
  intros H. induction H as [|x y z Hxy _ IH]; [apply rtc_refl|].
  eapply rtc_l; [by apply rot3_app_r | exact IH].
Qed.

Lemma turns_app_l (pre t t' : list Z) :
  Nat.even (length pre) = true -> turns t t' -> turns (pre ++ t) (pre ++ t').
Proof.
  intros Hp H. induction H as [|x y z Hxy _ IH]; [apply rtc_refl|].
  eapply rtc_l; [by apply rot3_app_l | exact IH].
Qed.

Lemma rot3_Permutation (t t' : list Z) : rot3 t t' -> t ≡ₚ t'.
Proof.
  intros [u v a b c _]. apply Permutation_app_head.
  symmetry. apply (Permutation_middle [a; b] v c).
Qed.

Lemma turns_Permutation (t t' : list Z) : turns t t' -> t ≡ₚ t'.
Proof.
  intros H. induction H as [|x y z Hxy _ IH]; [done|].
  etrans; [by apply rot3_Permutation | exact IH].
Qed.

Lemma turns_length (t t' : list Z) : turns t t' -> length t = length t'.
Proof. intros H. by rewrite (turns_Permutation _ _ H). Qed.

Lemma turns_head (a b c : Z) (v : list Z) : turns (a :: b :: c :: v) (c :: a :: b :: v).
Proof. apply rtc_once. by apply (rot3_at [] v a b c). Qed.

Lemma turns_head2 (a b c : Z) (v : list Z) : turns (a :: b :: c :: v) (b :: c :: a :: v).
Proof. etrans; apply turns_head. Qed.

Lemma turns_at2 (x y a b c : Z) (v : list Z) :
  turns (x :: y :: a :: b :: c :: v) (x :: y :: c :: a :: b :: v).
Proof. apply (turns_app_l [x; y]); [done | apply turns_head]. Qed.

(** Any entry of a list of odd length, at least 3, can be brought to the front. *)
Lemma turns_front (k : nat) (t : list Z) (x : Z) :
  length t = (2 * k + 3)%nat -> x ∈ t -> exists t1, turns t (x :: t1).
Proof.
  revert t. induction k as [|k IH]; intros t Hlen Hx.
  - destruct t as [|a [|b [|c [|]]]]; simpl in Hlen; try lia.
    rewrite !elem_of_cons, elem_of_nil in Hx. destruct Hx as [->|[->|[->|[]]]].
    + exists [b; c]. apply rtc_refl.
    + exists [c; a]. apply turns_head2.
    + exists [a; b]. apply turns_head.
  - destruct t as [|a [|b rest]]; simpl in Hlen; try lia.
    rewrite !elem_of_cons in Hx. destruct Hx as [->|[->|Hx]].
    + exists (b :: rest). apply rtc_refl.
    + destruct rest as [|c rest]; simpl in Hlen; [lia|].
      exists (c :: a :: rest). apply turns_head2.
    + destruct (IH rest ltac:(lia) Hx) as [r1 Hr].
      exists (a :: b :: r1). etrans.
      * apply (turns_app_l [a; b]); [done | exact Hr].
      * simpl. apply turns_head.
Qed.

(** In a list of odd length, at least 5, any two entries can be brought to
    the front, in the order asked for. *)
Lemma turns_front2 (k : nat) (t : list Z) (x y : Z) :
  length t = (2 * k + 5)%nat -> x ∈ t -> y ∈ t -> x ≠ y ->
  exists t2, turns t (x :: y :: t2).
Proof.
  intros Hlen Hx Hy Hxy.
  destruct (turns_front (S k) t x ltac:(lia) Hx) as [t1 H1].
  assert (length t1 = (2 * k + 4)%nat) as Hlen1.
  { apply turns_length in H1. simpl in H1. lia. }
  assert (y ∈ x :: t1) as Hy1.
  { by rewrite <- (turns_Permutation _ _ H1). }
  apply elem_of_cons in Hy1 as [->|Hy1]; [done|].
  destruct t1 as [|c t1']; [simpl in Hlen1; lia|].
  apply elem_of_cons in Hy1 as [->|Hy1].
  { exists t1'. exact H1. }
  destruct (turns_front k t1' y ltac:(simpl in Hlen1; lia) Hy1) as [r Hr].
  pose proof (turns_length _ _ Hr) as Hlr.
  destruct r as [|d [|e r]]; [simpl in *; lia..|].
  (* x c y d e ... : six turns give x y e d c ... *)
  exists (e :: d :: c :: r). etrans; [exact H1|]. etrans.
  { apply (turns_app_l [x; c]); [done | exact Hr]. }
  simpl.
  etrans; [apply turns_at2|]. etrans; [apply turns_head|].
  etrans; [apply turns_at2|]. etrans; [apply turns_at2|].
  etrans; [apply turns_head|]. apply turns_head.
Qed.

Lemma tr_other (a b x : Z) : x ≠ a -> x ≠ b -> tr a b x = x.
Proof. intros Ha Hb. unfold tr. by rewrite !decide_False. Qed.

Lemma tr_l (a b : Z) : tr a b a = b.
Proof. unfold tr. by rewrite decide_True. Qed.

Lemma tr_r (a b : Z) : tr a b b = a.
Proof. unfold tr. destruct (decide (b = a)) as [->|]; [done|]. by rewrite decide_True. Qed.

Lemma tr_fmap_other (a b : Z) (l : list Z) : a ∉ l -> b ∉ l -> tr a b <$> l = l.
Proof.
  intros Ha Hb. induction l as [|x l IH]; [done|].
  apply not_elem_of_cons in Ha as [Ha Ha']. apply not_elem_of_cons in Hb as [Hb Hb'].
  rewrite fmap_cons, IH by done. rewrite tr_other by done. done.
Qed.

(** Two lists of odd length with the same entries can be turned into each
    other, possibly up to the exchange of two entries. *)
Lemma turns_sort (k : nat) (t t' : list Z) :
  length t = (2 * k + 1)%nat -> NoDup t -> t ≡ₚ t' ->
  turns t t' \/ exists a b, a ∈ t' /\ b ∈ t' /\ a ≠ b /\ turns t (tr a b <$> t').
Proof.
  revert t t'. induction k as [|k IH]; intros t t' Hlen Hnd Hp.
  { left. pose proof (Permutation_length Hp) as Hl.
    destruct t as [|x [|]]; simpl in Hlen; try lia.
    apply Permutation_singleton_l in Hp as ->. apply rtc_refl. }
  pose proof (Permutation_length Hp) as Hl.
  assert (NoDup t') as Hnd' by (by rewrite <- Hp).
  destruct k as [|k].
  - destruct t' as [|a [|b [|c [|]]]]; simpl in Hl; try lia.
    destruct (turns_front 0 t a ltac:(lia)) as [t1 H1].
    { rewrite Hp. set_solver. }
    pose proof (turns_Permutation _ _ H1) as Hp1. rewrite Hp in Hp1.
    apply Permutation_cons_inv in Hp1.
    pose proof (Permutation_length Hp1) as Hl1.
    destruct t1 as [|x [|y [|]]]; simpl in Hl1; try lia.
    apply Permutation_length_2 in Hp1 as [[E1 E2]|[E1 E2]]; subst x y.
    + left. symmetry in Hp. exact H1.
    + right. exists b, c. apply NoDup_cons in Hnd' as [Ha Hnd'].
      apply NoDup_cons in Hnd' as [Hb _].
      split; [set_solver|]. split; [set_solver|]. split; [set_solver|].
      simpl. rewrite tr_l, tr_r, tr_other by set_solver. exact H1.
  - destruct t' as [|x [|y t'']]; simpl in Hl; try lia.
    apply NoDup_cons in Hnd' as [Hx Hnd']. apply NoDup_cons in Hnd' as [Hy Hnd'].
    destruct (turns_front2 k t x y ltac:(lia)) as [t2 H2].
    { rewrite Hp. set_solver. }
    { rewrite Hp. set_solver. }
    { set_solver. }
    pose proof (turns_Permutation _ _ H2) as Hp2. rewrite Hp in Hp2.
    do 2 apply Permutation_cons_inv in Hp2.
    assert (NoDup t2) as Hnd2 by (by rewrite <- Hp2).
    destruct (IH t2 t'') as [Hr|(a & b & Ha & Hb & Hab & Hr)].
    { rewrite <- Hp2. simpl in Hl. lia. }
    { done. }
    { by symmetry. }
    + left. etrans; [exact H2|]. apply (turns_app_l [x; y]); done.
    + right. exists a, b. split; [set_solver|]. split; [set_solver|]. split; [done|].
      etrans; [exact H2|]. rewrite !fmap_cons.
      rewrite (tr_other a b x) by set_solver. rewrite (tr_other a b y) by set_solver.
      apply (turns_app_l [x; y]); done.
Qed.

(** ** Boards that can be reached by slides *)

Lemma step_sym (N : Z) (p p' : list Z) : step N p p' -> step N p' p.
Proof. intros [l1 l2 x y Hb Hc|l1 mid l2 x y Hb Hc]; constructor; tauto. Qed.

Lemma reach_sym (N : Z) (p q : list Z) : reach N p q -> reach N q p.
Proof.
  intros H. induction H as [|x y z Hxy _ IH]; [apply rtc_refl|].
  eapply rtc_r; [exact IH | by apply step_sym].
Qed.

Lemma step_app_r (N : Z) (p p' w : list Z) : step N p p' -> step N (p ++ w) (p' ++ w).
Proof.
  intros [l1 l2 x y Hb Hc|l1 mid l2 x y Hb Hc]; rewrite <- !app_assoc; simpl.
  - by constructor.
  - rewrite <- !app_assoc. simpl. by constructor.
Qed.

Lemma step_app_l (N : Z) (pre p p' : list Z) :
  0 < N -> Z.of_nat (length pre) mod N = 0 ->
  step N p p' -> step N (pre ++ p) (pre ++ p').
Proof.
  intros HN Hpre [l1 l2 x y Hb Hc|l1 mid l2 x y Hb Hc]; rewrite !app_assoc.
  - constructor; [done|]. rewrite length_app, Nat2Z.inj_add.
    rewrite <- Z.add_assoc, Z.add_mod, Hpre, Z.add_0_l, Z.mod_mod by lia. done.
  - by constructor.
Qed.

Lemma reach_app_r (N : Z) (p q w : list Z) : reach N p q -> reach N (p ++ w) (q ++ w).
Proof.
  intros H. induction H as [|x y z Hxy _ IH]; [apply rtc_refl|].
  eapply rtc_l; [by apply step_app_r | exact IH].
Qed.

Lemma reach_app_l (N : Z) (pre p q : list Z) :
  0 < N -> Z.of_nat (length pre) mod N = 0 ->
  reach N p q -> reach N (pre ++ p) (pre ++ q).
Proof.
  intros HN Hpre H. induction H as [|x y z Hxy _ IH]; [apply rtc_refl|].
  eapply rtc_l; [by apply step_app_l | exact IH].
Qed.

Lemma NoDup_two (l1 mid l2 : list Z) (x y : Z) :
  NoDup (l1 ++ x :: mid ++ y :: l2) ->
  (x ∉ l1) /\ (y ∉ l1) /\ (x ∉ mid) /\ (y ∉ mid) /\ x ≠ y.
Proof.
  rewrite NoDup_app, NoDup_cons, NoDup_app, NoDup_cons.
  intros (_ & H1 & H2 & _ & H3 & H4 & _).
  assert ((x ∉ mid) /\ x ≠ y) as [? ?].
  { rewrite elem_of_app, elem_of_cons in H2. split; [tauto|]. intros ->. tauto. }
  assert (y ∉ mid).
  { intros Hy. apply (H3 y Hy). by left. }
  assert (x ∉ l1).
  { intros Hx. apply (H1 x Hx). by left. }
  assert (y ∉ l1).
  { intros Hy. apply (H1 y Hy). right. rewrite elem_of_app. right. by left. }
  done.
Qed.

Lemma step_slides (N : Z) (p p' : list Z) :
  NoDup p -> step N p p' -> exists c, slides N c p p'.
Proof.
  intros Hnd Hs. revert Hnd.
  destruct Hs as [l1 l2 x y Hb Hc|l1 mid l2 x y Hb Hc]; intros Hnd.
  - destruct (NoDup_two l1 [] l2 x y Hnd) as (Hx & Hy & _ & _ & Hxy).
    destruct Hb as [->| ->].
    + exists kD. by constructor.
    + exists kA. by constructor.
  - destruct (NoDup_two l1 mid l2 x y Hnd) as (Hx & Hy & Hxm & Hym & Hxy).
    destruct Hb as [->| ->].
    + exists kS. by constructor.
    + exists kW. by constructor.
Qed.

Lemma step_Permutation (N : Z) (p p' : list Z) : step N p p' -> p' ≡ₚ p.
Proof.
  intros [l1 l2 x y Hb Hc|l1 mid l2 x y Hb Hc]; apply Permutation_app_head.
  - apply Permutation_swap.
  - rewrite <- !Permutation_middle. rewrite Permutation_swap. done.
Qed.

Lemma reach_Permutation (N : Z) (p q : list Z) : reach N p q -> q ≡ₚ p.
Proof.
  intros H. induction H as [|x y z Hxy _ IH]; [done|].
  rewrite IH. by eapply step_Permutation.
Qed.

(** Slides that lead from one board to another can be played as keys. *)
Lemma reach_replay (M N : Z) (p q : list Z) :
  0 < N -> Z.of_nat (length p) = M * N -> NoDup p ->
  reach N p q -> exists l, replay M N l p = Ok q.
Proof.
  intros HN Hlen Hnd H. induction H as [|x y z Hxy _ IH].
  - by exists [].
  - destruct (step_slides N x y Hnd Hxy) as [c Hs].
    pose proof (step_Permutation N x y Hxy) as Hp.
    destruct IH as [l Hl].
    + by rewrite Hp.
    + by rewrite Hp.
    + exists (c :: l). simpl. rewrite (slides_change M N c x y HN Hlen Hs). exact Hl.
Qed.

Lemma reach_parity (M N : Z) (p q : list Z) :
  0 < N -> NoDup p -> reach N p q -> parity_rule M N q = parity_rule M N p.
Proof.
  intros HN Hnd H. induction H as [|x y z Hxy _ IH]; [done|].
  destruct (step_slides N x y Hnd Hxy) as [c Hs].
  rewrite IH by (by rewrite (step_Permutation N x y Hxy)).
  by apply (slides_parity M N c).
Qed.

(** ** Exchanging two tiles changes the parity *)

Lemma tiles_cons_blank (l : list Z) : tiles (-1 :: l) = tiles l.
Proof. unfold tiles. by rewrite filter_cons_False by (intros H; by apply H). Qed.

Lemma tiles_cons (x : Z) (l : list Z) : x ≠ -1 -> tiles (x :: l) = x :: tiles l.
Proof. intros Hx. unfold tiles. by rewrite filter_cons_True. Qed.

Lemma tiles_app (l1 l2 : list Z) : tiles (l1 ++ l2) = tiles l1 ++ tiles l2.
Proof. apply filter_app. Qed.

Lemma tiles_id (l : list Z) : -1 ∉ l -> tiles l = l.
Proof.
  induction l as [|x l IH]; intros Hn; [done|].
  apply not_elem_of_cons in Hn as [Hx Hn]. rewrite tiles_cons by congruence. by rewrite IH.
Qed.

Lemma elem_of_tiles (x : Z) (l : list Z) : x ∈ tiles l <-> x ≠ -1 /\ x ∈ l.
Proof. unfold tiles. by rewrite list_elem_of_filter. Qed.

Lemma below_tiles (x : Z) (l : list Z) : below x (tiles l) = below x l.
Proof.
  induction l as [|y l IH]; [done|].
  destruct (decide (y = -1)) as [->|Hy].
  - by rewrite tiles_cons_blank, below_cons_blank.
  - rewrite tiles_cons by done. by rewrite !below_cons, IH.
Qed.

Lemma reverse_pairs_tiles (l : list Z) : reverse_pairs (tiles l) = reverse_pairs l.
Proof.
  induction l as [|x l IH]; [done|].
  destruct (decide (x = -1)) as [->|Hx].
  - rewrite tiles_cons_blank. by rewrite IH.
  - rewrite tiles_cons by done. simpl. by rewrite below_tiles, IH.
Qed.

Lemma tr_comm (a b x : Z) : tr a b x = tr b a x.
Proof.
  destruct (decide (x = a)) as [->|Ha]; [by rewrite tr_l, tr_r|].
  destruct (decide (x = b)) as [->|Hb]; [by rewrite tr_l, tr_r|].
  by rewrite !tr_other.
Qed.

Lemma tr_blank (a b x : Z) : a ≠ -1 -> b ≠ -1 -> tr a b x = -1 <-> x = -1.
Proof.
  intros Ha Hb.
  destruct (decide (x = a)) as [->|Ha']; [rewrite tr_l; split; congruence|].
  destruct (decide (x = b)) as [->|Hb']; [rewrite tr_r; split; congruence|].
  by rewrite tr_other.
Qed.

Lemma tiles_fmap_tr (a b : Z) (l : list Z) :
  a ≠ -1 -> b ≠ -1 -> tiles (tr a b <$> l) = tr a b <$> tiles l.
Proof.
  intros Ha Hb. induction l as [|x l IH]; [done|]. rewrite fmap_cons.
  destruct (decide (x = -1)) as [->|Hx].
  - rewrite (tr_other a b (-1)) by congruence. by rewrite !tiles_cons_blank.
  - rewrite !tiles_cons; [|done|by rewrite tr_blank]. by rewrite fmap_cons, IH.
Qed.

Lemma position_fmap_tr (a b : Z) (l : list Z) :
  a ≠ -1 -> b ≠ -1 -> position (-1) (tr a b <$> l) = position (-1) l.
Proof.
  intros Ha Hb. induction l as [|x l IH]; [done|]. rewrite fmap_cons.
  destruct (decide (x = -1)) as [->|Hx].
  - rewrite (tr_other a b (-1)) by congruence. by rewrite !position_here.
  - rewrite !position_next; [|done|by rewrite tr_blank]. by rewrite IH.
Qed.

Lemma tr_invol (a b x : Z) : tr a b (tr a b x) = x.
Proof.
  destruct (decide (x = a)) as [->|Ha]; [by rewrite tr_l, tr_r|].
  destruct (decide (x = b)) as [->|Hb]; [by rewrite tr_r, tr_l|].
  by rewrite !(tr_other a b x).
Qed.

Lemma tr_elem_of (a b x : Z) (l : list Z) : a ∈ l -> b ∈ l -> x ∈ l -> tr a b x ∈ l.
Proof.
  intros Ha Hb Hx.
  destruct (decide (x = a)) as [->|Hxa]; [by rewrite tr_l|].
  destruct (decide (x = b)) as [->|Hxb]; [by rewrite tr_r|].
  by rewrite tr_other.
Qed.

Lemma tr_fmap_Permutation (a b : Z) (l : list Z) :
  NoDup l -> a ∈ l -> b ∈ l -> tr a b <$> l ≡ₚ l.
Proof.
  intros Hnd Ha Hb. apply NoDup_Permutation; [|done|].
  - apply NoDup_fmap_2_strong; [|done].
    intros x y _ _ E. by rewrite <- (tr_invol a b x), E, tr_invol.
  - intros x. rewrite list_elem_of_fmap. split.
    + intros (y & -> & Hy). by apply tr_elem_of.
    + intros Hx. exists (tr a b x). split; [by rewrite tr_invol | by apply tr_elem_of].
Qed.

Lemma reverse_pairs_exchange (l1 mid l2 : list Z) (a b : Z) :
  a ≠ -1 -> b ≠ -1 -> -1 ∉ mid -> a ∉ mid -> b ∉ mid -> a ≠ b ->
  Nat.odd (reverse_pairs (l1 ++ b :: mid ++ a :: l2))
  = negb (Nat.odd (reverse_pairs (l1 ++ a :: mid ++ b :: l2))).
Proof.
  intros Ha Hb Hm Ham Hbm Hab.
  rewrite (reverse_pairs_jump l1 mid (a :: l2) b) by done.
  rewrite (reverse_pairs_jump l1 mid (b :: l2) a) by done.
  replace (l1 ++ mid ++ b :: a :: l2) with ((l1 ++ mid) ++ b :: a :: l2)
    by (by rewrite <- app_assoc).
  rewrite reverse_pairs_swap by done. rewrite <- app_assoc.
  by destruct (Nat.odd (length mid)), (Nat.odd _).
Qed.

Lemma elem_of_split_two (a b : Z) (l : list Z) :
  a ∈ l -> b ∈ l -> a ≠ b ->
  (exists l1 mid l2, l = l1 ++ a :: mid ++ b :: l2) \/
  (exists l1 mid l2, l = l1 ++ b :: mid ++ a :: l2).
Proof.
  intros Ha Hb Hab. apply list_elem_of_split in Ha as (l1 & l2 & ->).
  rewrite elem_of_app, elem_of_cons in Hb. destruct Hb as [Hb|[Hb|Hb]]; [|congruence|].
  - right. apply list_elem_of_split in Hb as (k1 & k2 & ->).
    exists k1, k2, l2. by rewrite <- app_assoc.
  - left. apply list_elem_of_split in Hb as (k1 & k2 & ->). by exists l1, k1, k2.
Qed.

Lemma tr_fmap_two (a b : Z) (l1 mid l2 : list Z) :
  NoDup (l1 ++ a :: mid ++ b :: l2) ->
  tr a b <$> (l1 ++ a :: mid ++ b :: l2) = l1 ++ b :: mid ++ a :: l2.
Proof.
  intros Hnd. destruct (NoDup_two l1 mid l2 a b Hnd) as (Ha1 & Hb1 & Ham & Hbm & Hab).
  assert ((a ∉ l2) /\ (b ∉ l2)) as [Ha2 Hb2].
  { apply NoDup_app in Hnd as (_ & _ & Hnd). apply NoDup_cons in Hnd as [Ha Hnd].
    apply NoDup_app in Hnd as (_ & _ & Hnd). apply NoDup_cons in Hnd as [Hb _].
    split; [|done]. intros H. apply Ha. rewrite elem_of_app, elem_of_cons. tauto. }
  rewrite fmap_app, fmap_cons, fmap_app, fmap_cons.
  rewrite !tr_fmap_other by done. by rewrite tr_l, tr_r.
Qed.

Lemma reverse_pairs_tr (a b : Z) (l : list Z) :
  NoDup l -> -1 ∉ l -> a ∈ l -> b ∈ l -> a ≠ b ->
  Nat.odd (reverse_pairs (tr a b <$> l)) = negb (Nat.odd (reverse_pairs l)).
Proof.
  intros Hnd Hn Ha Hb Hab.
  assert (a ≠ -1) as Ha' by (intros ->; done).
  assert (b ≠ -1) as Hb' by (intros ->; done).
  destruct (elem_of_split_two a b l Ha Hb Hab) as [(l1 & mid & l2 & ->)|(l1 & mid & l2 & ->)].
  - rewrite tr_fmap_two by done.
    destruct (NoDup_two l1 mid l2 a b Hnd) as (_ & _ & Ham & Hbm & _).
    apply reverse_pairs_exchange; try done.
    intros H. apply Hn. rewrite elem_of_app, elem_of_cons, elem_of_app. tauto.
  - rewrite (list_fmap_ext (tr a b) (tr b a) _ (fun _ x _ => tr_comm a b x)).
    rewrite tr_fmap_two by done.
    destruct (NoDup_two l1 mid l2 b a Hnd) as (_ & _ & Hbm & Ham & _).
    apply reverse_pairs_exchange; try done.
    intros H. apply Hn. rewrite elem_of_app, elem_of_cons, elem_of_app. tauto.
Qed.

(** Exchanging two tiles of a board changes the answer of the parity rule. *)
Lemma parity_rule_tr (M N : Z) (q : list Z) (a b : Z) :
  NoDup q -> a ∈ q -> b ∈ q -> a ≠ b -> a ≠ -1 -> b ≠ -1 ->
  parity_rule M N (tr a b <$> q) = negb (parity_rule M N q).
Proof.
  intros Hnd Ha Hb Hab Ha' Hb'. unfold parity_rule, blank_row.
  rewrite position_fmap_tr by done.
  assert (Nat.odd (reverse_pairs (tr a b <$> q)) = negb (Nat.odd (reverse_pairs q))) as Hodd.
  { rewrite <- (reverse_pairs_tiles q), <- (reverse_pairs_tiles (tr a b <$> q)).
    rewrite tiles_fmap_tr by done. apply reverse_pairs_tr; try done.
    - by apply NoDup_filter.
    - rewrite elem_of_tiles. tauto.
    - by rewrite elem_of_tiles.
    - by rewrite elem_of_tiles. }
  destruct (Z.odd N).
  - rewrite <- !Nat.negb_odd, Hodd. by destruct (Nat.odd _).
  - rewrite !Z.even_add, !even_of_nat, <- !Nat.negb_odd, Hodd.
    by destruct (Nat.odd (reverse_pairs q)), (Z.even _).
Qed.

(** Two boards with the same answer of the parity rule: when one can be
    reached from the other up to the exchange of two tiles, it can be
    reached. *)
Lemma reach_same_parity (M N : Z) (p q : list Z) :
  0 < N -> NoDup p -> p ≡ₚ q ->
  parity_rule M N p = parity_rule M N q ->
  reach N p q \/
  (exists a b, a ∈ q /\ b ∈ q /\ a ≠ b /\ a ≠ -1 /\ b ≠ -1 /\ reach N p (tr a b <$> q)) ->
  reach N p q.
Proof.
  intros HN Hnd Hp Hpar [H|(a & b & Ha & Hb & Hab & Ha' & Hb' & H)]; [done|].
  exfalso. pose proof (reach_parity M N _ _ HN Hnd H) as E.
  rewrite parity_rule_tr in E; try done; [|by rewrite <- Hp].
  rewrite Hpar in E. by destruct (parity_rule M N q).
Qed.

(** A board can be brought to any arrangement of its cells, up to the
    exchange of two tiles chosen in advance. *)
Lemma reach_or_exchange (M N : Z) (p q : list Z) (a b : Z) :
  (forall p q : list Z, NoDup p -> -1 ∈ p -> Z.of_nat (length p) = M * N -> p ≡ₚ q ->
     parity_rule M N p = parity_rule M N q -> reach N p q) ->
  NoDup p -> -1 ∈ p -> Z.of_nat (length p) = M * N -> p ≡ₚ q ->
  a ∈ q -> b ∈ q -> a ≠ b -> a ≠ -1 -> b ≠ -1 ->
  reach N p q \/ reach N p (tr a b <$> q).
Proof.
  intros Hmain Hnd Hbl Hlen Hp Ha Hb Hab Ha' Hb'.
  assert (NoDup q) as Hndq by (by rewrite <- Hp).
  destruct (bool_decide (parity_rule M N p = parity_rule M N q)) eqn:E.
  - left. apply bool_decide_eq_true in E. by apply Hmain.
  - right. apply bool_decide_eq_false in E. apply Hmain; try done.
    + by rewrite tr_fmap_Permutation.
    + rewrite parity_rule_tr by done.
      by destruct (parity_rule M N p), (parity_rule M N q).
Qed.

(** ** Boards of two columns *)

Lemma list_ind4 (P : list Z -> Prop) :
  P [] -> (forall a, P [a]) -> (forall a b, P [a; b]) -> (forall a b c, P [a; b; c]) ->
  (forall a b c d r, P r -> P (a :: b :: c :: d :: r)) ->
  forall l, P l.
Proof.
  intros H0 H1 H2 H3 H4. fix IH 1.
  intros [|a [|b [|c [|d r]]]]; [done|done|done|done|]. apply H4, IH.
Qed.

Lemma sn_invol (l : list Z) : sn (sn l) = l.
Proof.
  induction l as [| | | |a b c d r IH] using list_ind4; try done.
  simpl. by rewrite IH.
Qed.

Lemma sn_fmap (f : Z -> Z) (l : list Z) : sn (f <$> l) = f <$> sn l.
Proof.
  induction l as [| | | |a b c d r IH] using list_ind4; try done.
  rewrite !fmap_cons. cbn [sn]. by rewrite IH, !fmap_cons.
Qed.

Lemma sn_Permutation (l : list Z) : sn l ≡ₚ l.
Proof.
  induction l as [| | | |a b c d r IH] using list_ind4; try done.
  simpl. rewrite IH. do 2 apply perm_skip. apply Permutation_swap.
Qed.

(** Two neighbours in the order of [sn] are neighbours on the board. *)
Lemma sn_swap (u v : list Z) (x y : Z) :
  Nat.even (length u + length v) = true -> x = -1 \/ y = -1 ->
  step 2 (sn (u ++ x :: y :: v)) (sn (u ++ y :: x :: v)).
Proof.
  revert v. induction u as [|a|a b|a b c|a b c d r IH] using list_ind4; intros v Hev Hb.
  - destruct v as [|c [|d v']]; by apply (step_row 2 []).
  - destruct v as [|c v']; [done|]. simpl. by apply (step_col 2 [a] [c]).
  - simpl. apply (step_row 2 [a; b]); [tauto | done].
  - destruct v as [|e v']; [done|]. simpl.
    destruct v' as [|f [|g v'']]; by apply (step_col 2 [a; b] [c]).
  - simpl. apply (step_app_l 2 [a; b; d; c]); [done|done|]. by apply IH.
Qed.

(** The cell three places further in the order of [sn], from an even
    place, is the neighbour in the column. *)
Lemma sn_jump (u v : list Z) (a b c y : Z) :
  Nat.even (length u) = true -> y = -1 \/ c = -1 ->
  step 2 (sn (u ++ y :: a :: b :: c :: v)) (sn (u ++ c :: a :: b :: y :: v)).
Proof.
  induction u as [|p|p q|p q r|p q r s u IH] using list_ind4; intros Hev Hb; try done.
  - simpl. by apply (step_col 2 [] [a]).
  - simpl. destruct v as [|d [|e v']]; by apply (step_col 2 [p; q; a] [b]).
  - simpl. apply (step_app_l 2 [p; q; s; r]); [done|done|]. by apply IH.
Qed.

(** The blank walks along the order of [sn]. *)
Lemma sn_walk (u v w : list Z) :
  Nat.even (length u + length v + length w) = false ->
  reach 2 (sn (u ++ -1 :: v ++ w)) (sn (u ++ v ++ -1 :: w)).
Proof.
  revert u. induction v as [|x v IH]; intros u Hev; [apply rtc_refl|].
  eapply rtc_l.
  - apply (sn_swap u (v ++ w) (-1) x); [|by left].
    rewrite length_app. simpl in Hev.
    replace (length u + S (length v) + length w)%nat
      with (S (length u + (length v + length w))) in Hev by lia.
    rewrite Nat.even_succ, <- Nat.negb_even in Hev. by destruct (Nat.even _).
  - replace (u ++ x :: -1 :: v ++ w) with ((u ++ [x]) ++ -1 :: v ++ w)
      by (by rewrite <- app_assoc).
    replace (u ++ (x :: v) ++ -1 :: w) with ((u ++ [x]) ++ v ++ -1 :: w)
      by (by rewrite <- app_assoc).
    apply IH. rewrite length_app. simpl in *.
    replace (length u + 1 + length v + length w)%nat
      with (length u + S (length v) + length w)%nat by lia. done.
Qed.

Lemma sn_turn (t t' : list Z) :
  Nat.even (length t) = false -> rot3 t t' ->
  reach 2 (sn (-1 :: t)) (sn (-1 :: t')).
Proof.
  intros Hev Hr. revert Hev. destruct Hr as [u v a b c Hu]. intros Hev.
  rewrite length_app in Hev. simpl in Hev.
  etrans; [apply (sn_walk [] u (a :: b :: c :: v))|].
  { replace (length (@nil Z) + length u + length (a :: b :: c :: v))%nat
      with (length u + S (S (S (length v))))%nat by (simpl; lia).
    done. }
  etrans.
  { apply rtc_once. apply (sn_jump u v a b c (-1)); [done | by left]. }
  apply reach_sym.
  replace (u ++ c :: a :: b :: -1 :: v) with ([] ++ (u ++ [c; a; b]) ++ -1 :: v)
    by (by rewrite <- app_assoc).
  replace (-1 :: u ++ c :: a :: b :: v) with ([] ++ -1 :: (u ++ [c; a; b]) ++ v)
    by (by rewrite <- app_assoc).
  apply sn_walk.
  replace (length (@nil Z) + length (u ++ [c; a; b]) + length v)%nat
    with (length u + S (S (S (length v))))%nat by (rewrite length_app; simpl; lia).
  done.
Qed.

Lemma sn_turns (t t' : list Z) :
  Nat.even (length t) = false -> turns t t' ->
  reach 2 (sn (-1 :: t)) (sn (-1 :: t')).
Proof.
  intros Hev H. induction H as [|x y z Hxy _ IH]; [apply rtc_refl|].
  etrans; [by apply sn_turn|]. apply IH.
  by rewrite <- (Permutation_length (rot3_Permutation _ _ Hxy)).
Qed.

(** On a board of two columns every arrangement can be reached, up to the
    exchange of two tiles. *)
Lemma reach_two_columns (p q : list Z) :
  NoDup p -> -1 ∈ p -> Nat.even (length p) = true -> p ≡ₚ q ->
  reach 2 p q \/
  exists a b, a ∈ q /\ b ∈ q /\ a ≠ b /\ a ≠ -1 /\ b ≠ -1 /\ reach 2 p (tr a b <$> q).
Proof.
  intros Hnd Hbl Hev Hp.
  assert (-1 ∈ sn p) as Hbp by (by rewrite sn_Permutation).
  assert (-1 ∈ sn q) as Hbq by (by rewrite sn_Permutation, <- Hp).
  apply list_elem_of_split in Hbp as (u & v & Ep).
  apply list_elem_of_split in Hbq as (u' & v' & Eq).
  assert (NoDup (-1 :: u ++ v)) as Hnd1.
  { rewrite Permutation_middle, <- Ep, sn_Permutation. done. }
  apply NoDup_cons in Hnd1 as [Hn1 Hnd1].
  assert (u ++ v ≡ₚ u' ++ v') as Hp1.
  { apply (Permutation_cons_inv (a := -1)).
    rewrite !Permutation_middle, <- Ep, <- Eq, !sn_Permutation. done. }
  assert (-1 ∉ u' ++ v') as Hn2 by (by rewrite <- Hp1).
  assert (Nat.even (length (u ++ v)) = false) as Hodd.
  { assert (length p = S (length (u ++ v))) as E.
    { rewrite <- (Permutation_length (sn_Permutation p)), Ep, !length_app. simpl. lia. }
    rewrite E, Nat.even_succ, <- Nat.negb_even in Hev. by destruct (Nat.even _). }
  assert (Nat.even (length (u' ++ v')) = false) as Hodd'.
  { by rewrite <- (Permutation_length Hp1). }
  assert (exists k, length (u ++ v) = (2 * k + 1)%nat) as [k Hk].
  { apply Nat.odd_spec. by rewrite <- Nat.negb_even, Hodd. }
  assert (reach 2 p (sn (-1 :: u ++ v))) as H1.
  { rewrite <- (sn_invol p), Ep. apply reach_sym. apply (sn_walk [] u v).
    rewrite length_app in Hodd. done. }
  assert (forall w1 w2 : list Z, Nat.even (length (w1 ++ w2)) = false ->
            reach 2 (sn (-1 :: w1 ++ w2)) (sn (w1 ++ -1 :: w2))) as Hback.
  { intros w1 w2 Hw. apply (sn_walk [] w1 w2). rewrite length_app in Hw. done. }
  destruct (turns_sort k (u ++ v) (u' ++ v') Hk Hnd1 Hp1) as [Ht|(a & b & Ha & Hb & Hab & Ht)].
  - left. etrans; [exact H1|]. etrans; [by apply sn_turns|].
    rewrite <- (sn_invol q), Eq. by apply Hback.
  - right. exists a, b.
    assert (a ≠ -1) as Ha' by (intros ->; done).
    assert (b ≠ -1) as Hb' by (intros ->; done).
    assert (forall x, x ∈ u' ++ v' -> x ∈ q) as Hin.
    { intros x Hx. rewrite <- (sn_Permutation q), Eq.
      rewrite elem_of_app, elem_of_cons. rewrite elem_of_app in Hx. tauto. }
    split; [by apply Hin|]. split; [by apply Hin|]. do 3 (split; [done|]).
    etrans; [exact H1|]. etrans; [by apply sn_turns|].
    rewrite <- (sn_invol q), Eq, <- sn_fmap.
    replace (tr a b <$> u' ++ -1 :: v') with ((tr a b <$> u') ++ -1 :: (tr a b <$> v'))
      by (rewrite fmap_app, fmap_cons, (tr_other a b (-1)) by congruence; done).
    rewrite (fmap_app _ u' v'). apply Hback. by rewrite <- fmap_app, length_fmap.
Qed.

(** ** Boards of two rows *)

Lemma list_ind2 (P : list Z -> Prop) :
  P [] -> (forall a, P [a]) -> (forall a b r, P r -> P (a :: b :: r)) -> forall l, P l.
Proof.
  intros H0 H1 H2. fix IH 1. intros [|a [|b r]]; [done|done|]. apply H2, IH.
Qed.

Lemma ev_app (l1 w : list Z) :
  Nat.even (length l1) = true -> ev (l1 ++ w) = ev l1 ++ ev w.
Proof.
  induction l1 as [|a|a b r IH] using list_ind2; intros Hev; [done|done|].
  simpl. by rewrite IH.
Qed.

Lemma od_app (l1 w : list Z) :
  Nat.even (length l1) = true -> od (l1 ++ w) = od l1 ++ od w.
Proof.
  induction l1 as [|a|a b r IH] using list_ind2; intros Hev; [done|done|].
  simpl. by rewrite IH.
Qed.

Lemma ev_fmap (f : Z -> Z) (l : list Z) : ev (f <$> l) = f <$> ev l.
Proof.
  induction l as [|a|a b r IH] using list_ind2; [done|done|].
  rewrite !fmap_cons. cbn [ev]. by rewrite IH, fmap_cons.
Qed.

Lemma od_fmap (f : Z -> Z) (l : list Z) : od (f <$> l) = f <$> od l.
Proof.
  induction l as [|a|a b r IH] using list_ind2; [done|done|].
  rewrite !fmap_cons. cbn [od]. by rewrite IH, fmap_cons.
Qed.

Lemma od_length (l : list Z) : length (od l) = length (ev l).
Proof.
  induction l as [|a|a b r IH] using list_ind2; [done|done|]. simpl. by rewrite IH.
Qed.

Lemma ev_length (l : list Z) : length (ev l) = Nat.div2 (length l).
Proof.
  induction l as [|a|a b r IH] using list_ind2; [done|done|]. simpl. by rewrite IH.
Qed.

Lemma ev_il (r0 r1 : list Z) : length r0 = length r1 -> ev (il r0 r1) = r0.
Proof.
  revert r1. induction r0 as [|a r0 IH]; intros [|b r1] Hl; try done.
  simpl. rewrite IH; [done|]. simpl in Hl. lia.
Qed.

Lemma od_il (r0 r1 : list Z) : length r0 = length r1 -> od (il r0 r1) = r1.
Proof.
  revert r1. induction r0 as [|a r0 IH]; intros [|b r1] Hl; try done.
  simpl. rewrite IH; [done|]. simpl in Hl. lia.
Qed.

Lemma il_Permutation (r0 r1 : list Z) : length r0 = length r1 -> il r0 r1 ≡ₚ r0 ++ r1.
Proof.
  revert r1. induction r0 as [|a r0 IH]; intros [|b r1] Hl; try done.
  simpl. rewrite IH by (simpl in Hl; lia). apply perm_skip. apply Permutation_middle.
Qed.

Lemma il_even (r0 r1 : list Z) : Nat.even (length (il r0 r1)) = true.
Proof.
  revert r1. induction r0 as [|a r0 IH]; intros [|b r1]; try done. simpl. apply IH.
Qed.

Lemma odd_column (n : nat) : (Z.of_nat n + 1) mod 2 ≠ 0 -> Nat.even n = true.
Proof.
  intros H. destruct (Nat.even n) eqn:E; [done|]. exfalso. apply H.
  assert (Nat.odd n = true) as Ho by (by rewrite <- Nat.negb_even, E).
  apply Nat.odd_spec in Ho as [m ->].
  replace (Z.of_nat (2 * m + 1) + 1) with ((Z.of_nat m + 1) * 2) by lia.
  apply Z_mod_mult.
Qed.

(** A slide on the board of two columns is a slide on the board of two rows. *)
Lemma step_deal (x y : list Z) :
  Nat.even (length x) = true -> step 2 x y ->
  step (Z.of_nat (length (ev x))) (ev x ++ od x) (ev y ++ od y).
Proof.
  intros Hev Hs. revert Hev.
  destruct Hs as [l1 l2 a b Hb Hc|l1 mid l2 a b Hb Hc]; intros Hev.
  - apply odd_column in Hc.
    assert (Nat.even (length l2) = true) as H2.
    { rewrite length_app, Nat.even_add, Hc in Hev. simpl in Hev.
      by destruct (Nat.even (length l2)). }
    rewrite !ev_app, !od_app by done. cbn [ev od].
    replace ((ev l1 ++ a :: ev l2) ++ od l1 ++ b :: od l2)
      with (ev l1 ++ a :: (ev l2 ++ od l1) ++ b :: od l2) by (by rewrite <- !app_assoc).
    replace ((ev l1 ++ b :: ev l2) ++ od l1 ++ a :: od l2)
      with (ev l1 ++ b :: (ev l2 ++ od l1) ++ a :: od l2) by (by rewrite <- !app_assoc).
    apply step_col; [done|]. rewrite !length_app. simpl. rewrite od_length. lia.
  - destruct mid as [|m [|]]; simpl in Hc; try lia. clear Hc.
    destruct (Nat.even (length l1)) eqn:H1.
    + destruct l2 as [|c l2].
      { rewrite length_app, Nat.even_add, H1 in Hev. done. }
      assert (Nat.even (length l2) = true) as H2.
      { rewrite length_app, Nat.even_add, H1 in Hev. simpl in Hev.
        by destruct (Nat.even (length l2)). }
      rewrite !ev_app, !od_app by done. cbn [ev od app].
      rewrite <- !app_assoc. simpl.
      apply step_row; [done|].
      rewrite Z.mod_small; [lia|]. rewrite !length_app. simpl. lia.
    + destruct (snoc_split l1) as (l1' & z & ->).
      { by intros ->. }
      assert (Nat.even (length l2) = true) as H2.
      { rewrite length_app, Nat.even_add, H1 in Hev.
        change (length (a :: [m] ++ b :: l2)) with (3 + length l2)%nat in Hev.
        rewrite Nat.even_add in Hev.
        by destruct (Nat.even (length l2)). }
      rewrite length_app in H1. simpl in H1.
      assert (Nat.even (length l1') = true) as H1'.
      { rewrite Nat.add_1_r, Nat.even_succ, <- Nat.negb_even in H1.
        by destruct (Nat.even (length l1')). }
      rewrite <- !app_assoc. cbn [app].
      rewrite !ev_app, !od_app by done. cbn [ev od].
      set (E := ev l1' ++ z :: m :: ev l2).
      rewrite !(app_assoc E). apply step_row; [done|].
      rewrite length_app.
      assert (length E = (length (ev l1') + 2 + length (ev l2))%nat) as HE.
      { unfold E. rewrite length_app. simpl. lia. }
      rewrite od_length.
      replace (Z.of_nat (length E + length (ev l1')) + 1)
        with (Z.of_nat (length (ev l1')) + 1 + 1 * Z.of_nat (length E)) by lia.
      rewrite Z.mod_add by lia. rewrite Z.mod_small by lia. lia.
Qed.

Lemma reach_deal (x y : list Z) :
  Nat.even (length x) = true -> reach 2 x y ->
  reach (Z.of_nat (length (ev x))) (ev x ++ od x) (ev y ++ od y).
Proof.
  intros Hev H. induction H as [|x y z Hxy _ IH]; [apply rtc_refl|].
  pose proof (Permutation_length (step_Permutation 2 x y Hxy)) as Hl.
  eapply rtc_l; [by apply step_deal|].
  rewrite (ev_length x), <- Hl, <- (ev_length y). apply IH. by rewrite Hl.
Qed.

(** On a board of two rows every arrangement can be reached, up to the
    exchange of two tiles. *)
Lemma reach_two_rows (N : nat) (p q : list Z) :
  NoDup p -> -1 ∈ p -> length p = (N + N)%nat -> p ≡ₚ q ->
  reach (Z.of_nat N) p q \/
  exists a b, a ∈ q /\ b ∈ q /\ a ≠ b /\ a ≠ -1 /\ b ≠ -1 /\
    reach (Z.of_nat N) p (tr a b <$> q).
Proof.
  intros Hnd Hbl Hlen Hp.
  pose proof (Permutation_length Hp) as Hlq.
  set (x := il (take N p) (drop N p)). set (y := il (take N q) (drop N q)).
  assert (length (take N p) = length (drop N p)) as Hlp.
  { rewrite length_take, length_drop. lia. }
  assert (length (take N q) = length (drop N q)) as Hlq'.
  { rewrite length_take, length_drop. lia. }
  assert (x ≡ₚ p) as Hx by (unfold x; by rewrite il_Permutation, take_drop).
  assert (y ≡ₚ q) as Hy by (unfold y; by rewrite il_Permutation, take_drop).
  assert (ev x ++ od x = p) as Ex by (unfold x; by rewrite ev_il, od_il, take_drop).
  assert (ev y ++ od y = q) as Ey by (unfold y; by rewrite ev_il, od_il, take_drop).
  assert (length (ev x) = N) as HN.
  { unfold x. rewrite ev_il by done. rewrite length_take. lia. }
  assert (Nat.even (length x) = true) as Hev by apply il_even.
  destruct (reach_two_columns x y) as [H|(a & b & Ha & Hb & Hab & Ha' & Hb' & H)].
  { by rewrite Hx. } { by rewrite Hx. } { done. } { by rewrite Hx, Hy. }
  - left. apply reach_deal in H; [|done]. by rewrite HN, Ex, Ey in H.
  - right. exists a, b. rewrite Hy in Ha, Hb. do 5 (split; [done|]).
    apply reach_deal in H; [|done].
    by rewrite HN, Ex, ev_fmap, od_fmap, <- fmap_app, Ey in H.
Qed.

(** ** Boards of any size *)

Lemma arranges_two_columns (M : Z) : arranges M 2.
Proof.
  intros p q Hnd Hbl Hlen Hp Hpar.
  apply (reach_same_parity M 2); try done.
  apply reach_two_columns; try done.
  rewrite <- even_of_nat, Hlen, Z.even_mul. simpl. apply orb_true_r.
Qed.

Lemma arranges_two_rows (N : Z) : 0 < N -> arranges 2 N.
Proof.
  intros HN p q Hnd Hbl Hlen Hp Hpar.
  apply (reach_same_parity 2 N); try done.
  rewrite <- (Z2Nat.id N) by lia. apply reach_two_rows; try done. lia.
Qed.

(** Part of the cells can be put in front, in a chosen order. *)
Lemma arrange_front (M N : Z) (B A : list Z) :
  0 < N -> arranges M N ->
  NoDup B -> -1 ∈ B -> Z.of_nat (length B) = M * N ->
  NoDup A -> (forall x, x ∈ A -> x ∈ B) -> (length A + 3 <= length B)%nat ->
  exists R, reach N B (A ++ R).
Proof.
  intros HN Harr Hnd Hbl Hlen HndA Hsub Hsz.
  destruct (submseteq_Permutation A B) as [R0 HR0]; [by apply NoDup_submseteq|].
  assert (NoDup (A ++ R0)) as Hnd' by (by rewrite <- HR0).
  pose proof (Permutation_length HR0) as Hl. rewrite length_app in Hl.
  apply NoDup_app in Hnd' as (_ & Hdis & HndR).
  assert (exists a b, a ∈ R0 /\ b ∈ R0 /\ a ≠ b /\ a ≠ -1 /\ b ≠ -1) as
    (a & b & Ha & Hb & Hab & Ha' & Hb').
  { destruct R0 as [|r1 [|r2 [|r3 R0']]]; simpl in Hl; try lia.
    apply NoDup_cons in HndR as [H1 HndR]. apply NoDup_cons in HndR as [H2 HndR].
    apply not_elem_of_cons in H1 as [H12 H1]. apply not_elem_of_cons in H1 as [H13 _].
    apply not_elem_of_cons in H2 as [H23 _].
    destruct (decide (r1 = -1)) as [E1|E1]; [|destruct (decide (r2 = -1)) as [E2|E2]].
    - exists r2, r3. repeat split; [set_solver|set_solver|done|congruence|congruence].
    - exists r1, r3. repeat split; [set_solver|set_solver|done|done|congruence].
    - exists r1, r2. repeat split; [set_solver|set_solver|done|done|done]. }
  destruct (reach_or_exchange M N B (A ++ R0) a b Harr) as [H|H]; try done.
  - rewrite elem_of_app. by right.
  - rewrite elem_of_app. by right.
  - by exists R0.
  - exists (tr a b <$> R0). rewrite fmap_app, (tr_fmap_other a b A) in H; [done| |].
    + intros HA. by apply (Hdis a).
    + intros HA. by apply (Hdis b).
Qed.

(** A blank in the first row can be taken to the second row; the cells in
    front of it stay. *)
Lemma blank_down (N : Z) (p : list Z) (k : nat) :
  0 < N -> NoDup p -> 2 * N <= Z.of_nat (length p) ->
  exists p', reach N p p' /\ (-1 ∉ take (Z.to_nat N) p') /\
             (-1 ∉ take k p -> take k p' = take k p).
Proof.
  intros HN Hnd Hlen. set (n := Z.to_nat N).
  destruct (decide (-1 ∈ take n p)) as [Hin|Hout].
  2:{ exists p. split; [apply rtc_refl | done]. }
  apply list_elem_of_split in Hin as (l1 & l1' & E).
  assert (length (take n p) = n) as Hlt by (rewrite length_take; lia).
  rewrite E, length_app in Hlt. simpl in Hlt.
  set (r := drop n p).
  assert (n <= length r)%nat as Hr by (unfold r; rewrite length_drop; lia).
  destruct (lookup_lt_is_Some_2 r (length l1)) as [x Hx]; [lia|].
  pose proof (take_drop_middle r (length l1) x Hx) as Er.
  assert (p = l1 ++ -1 :: (l1' ++ take (length l1) r) ++ x :: drop (S (length l1)) r) as Ep.
  { rewrite <- (take_drop n p) at 1. rewrite E. fold r. rewrite <- Er at 1.
    by rewrite <- !app_assoc. }
  exists (l1 ++ x :: (l1' ++ take (length l1) r) ++ -1 :: drop (S (length l1)) r).
  rewrite Ep in Hnd. destruct (NoDup_two _ _ _ _ _ Hnd) as (H1 & H2 & H3 & H4 & H5).
  split; [|split].
  - rewrite Ep at 1. apply rtc_once. apply step_col; [by left|].
    rewrite length_app, length_take. lia.
  - replace (l1 ++ x :: (l1' ++ take (length l1) r) ++ -1 :: drop (S (length l1)) r)
      with ((l1 ++ x :: l1') ++ take (length l1) r ++ -1 :: drop (S (length l1)) r)
      by (by rewrite <- !app_assoc).
    rewrite take_app_length' by (rewrite length_app; simpl; lia).
    rewrite elem_of_app, elem_of_cons. intros [?|[?|?]]; [done|congruence|].
    apply H3. rewrite elem_of_app. by left.
  - intros Hk. assert (k <= length l1)%nat as Hkl.
    { destruct (decide (k <= length l1)%nat) as [|Hgt]; [done|]. exfalso. apply Hk.
      rewrite Ep, take_app_ge by lia. rewrite elem_of_app. right.
      destruct (k - length l1)%nat eqn:Ek; [lia|]. simpl. by left. }
    rewrite Ep. by rewrite !take_app_le by lia.
Qed.

(** Taking off the first row: the parity rule of the rest. *)
Lemma reverse_pairs_app_Permutation (top rest rest' : list Z) :
  rest ≡ₚ rest' ->
  (reverse_pairs (top ++ rest) + reverse_pairs rest'
   = reverse_pairs (top ++ rest') + reverse_pairs rest)%nat.
Proof.
  intros Hp. induction top as [|x top IH]; simpl; [lia|].
  rewrite (below_Permutation x (top ++ rest) (top ++ rest')) by (by rewrite Hp). lia.
Qed.

Lemma blank_row_app (N : Z) (top rest : list Z) :
  0 < N -> Z.of_nat (length top) = N -> -1 ∉ top ->
  blank_row N (top ++ rest) = 1 + blank_row N rest.
Proof.
  intros HN Hl Hn. unfold blank_row. rewrite position_app by done.
  rewrite Nat2Z.inj_add, Hl.
  replace (N + Z.of_nat (position (-1) rest)) with (Z.of_nat (position (-1) rest) + 1 * N) by lia.
  rewrite Z.div_add by lia. lia.
Qed.

Lemma parity_rule_rest (M N : Z) (top rest rest' : list Z) :
  0 < N -> Z.of_nat (length top) = N -> -1 ∉ top -> rest ≡ₚ rest' ->
  parity_rule (M + 1) N (top ++ rest) = parity_rule (M + 1) N (top ++ rest') ->
  parity_rule M N rest = parity_rule M N rest'.
Proof.
  intros HN Hl Hn Hp. unfold parity_rule.
  rewrite !blank_row_app by done.
  pose proof (reverse_pairs_app_Permutation top rest rest' Hp) as E.
  assert (Nat.even (reverse_pairs (top ++ rest) + reverse_pairs rest')
          = Nat.even (reverse_pairs (top ++ rest') + reverse_pairs rest)) as E'
    by (by rewrite E).
  rewrite !Nat.even_add in E'.
  replace (M + 1 - 1 - (1 + blank_row N rest)) with (M - 1 - blank_row N rest) by lia.
  replace (M + 1 - 1 - (1 + blank_row N rest')) with (M - 1 - blank_row N rest') by lia.
  destruct (Z.odd N).
  - destruct (Nat.even (reverse_pairs (top ++ rest))), (Nat.even (reverse_pairs rest')),
      (Nat.even (reverse_pairs (top ++ rest'))), (Nat.even (reverse_pairs rest)); done.
  - rewrite !Z.even_add, !even_of_nat.
    destruct (Nat.even (reverse_pairs (top ++ rest))), (Nat.even (reverse_pairs rest')),
      (Nat.even (reverse_pairs (top ++ rest'))), (Nat.even (reverse_pairs rest)),
      (Z.even (M - 1 - blank_row N rest)), (Z.even (M - 1 - blank_row N rest')); done.
Qed.

Section Rows.
Variables M N : Z.
Hypothesis N_ge : 3 <= N.
Hypothesis M_ge : 2 <= M.
Hypothesis two_rows : arranges 2 N.
Hypothesis less_rows : arranges M N.

Let n : nat := Z.to_nat N.

(** One more cell of the first row gets the tile that [q] has there. *)
Lemma place_next (p q : list Z) (k : nat) :
  NoDup p -> -1 ∈ p -> Z.of_nat (length p) = (M + 1) * N -> p ≡ₚ q ->
  -1 ∉ take n q -> (k < n)%nat -> take k p = take k q ->
  exists p', reach N p p' /\ take (S k) p' = take (S k) q.
Proof.
  intros Hnd Hbl Hlen Hp Hq Hk Htk.
  assert (Z.of_nat n = N) as Hn by (unfold n; lia).
  pose proof (Permutation_length Hp) as Hlq.
  destruct (lookup_lt_is_Some_2 q k) as [w Hw]; [nia|].
  assert (w ∈ take n q) as Hwq by (apply elem_of_take; by exists k).
  assert (w ≠ -1) as Hw1 by (by intros ->).
  assert (-1 ∉ take k p) as Hkp.
  { rewrite Htk. intros H. apply Hq. apply elem_of_take in H as (i & Hi & Hik).
    apply elem_of_take. exists i. split; [done | lia]. }
  (* the blank leaves the first row *)
  destruct (blank_down N p k) as (p0 & Hr0 & Hb0 & Hk0); [lia|done|nia|].
  specialize (Hk0 Hkp). fold n in Hb0.
  pose proof (reach_Permutation N p p0 Hr0) as Hp0.
  assert (NoDup p0) as Hnd0 by (by rewrite Hp0).
  assert (length p0 = length p) as Hl0 by (by rewrite Hp0).
  set (top := take n p0). set (low := drop n p0).
  assert (p0 = top ++ low) as E0 by (unfold top, low; by rewrite take_drop).
  assert (length top = n) as Hlt by (unfold top; rewrite length_take; nia).
  assert (Z.of_nat (length low) = M * N) as HlS by (unfold low; rewrite length_drop; nia).
  assert (NoDup top /\ NoDup low) as [Hndt HndS].
  { rewrite E0 in Hnd0. apply NoDup_app in Hnd0. tauto. }
  assert (forall x, x ∈ p0 -> x ∉ top -> x ∈ low) as Hrest.
  { intros x Hx Hxt. rewrite E0, elem_of_app in Hx. tauto. }
  assert (-1 ∈ low) as HbS by (apply Hrest; [by rewrite Hp0 | done]).
  assert (w ∈ p0) as Hw0.
  { rewrite Hp0, Hp. by apply (subseteq_take n q). }
  (* the tile comes to the second row, next to the blank *)
  assert (exists R1, reach N low (-1 :: R1) /\ (w ∈ top \/ exists R2, R1 = w :: R2))
    as (R1 & Hr1 & Hw1').
  { destruct (decide (w ∈ top)) as [Hin|Hout].
    - destruct (arrange_front M N low [-1]) as [R HR]; try done; try lia.
      + apply NoDup_singleton.
      + intros x Hx. apply list_elem_of_singleton in Hx as ->. done.
      + simpl. nia.
      + exists R. split; [done | by left].
    - destruct (arrange_front M N low [-1; w]) as [R HR]; try done; try lia.
      + apply NoDup_cons. split; [|apply NoDup_singleton].
        rewrite list_elem_of_singleton. congruence.
      + intros x Hx. apply elem_of_cons in Hx as [->|Hx]; [done|].
        apply list_elem_of_singleton in Hx as ->. by apply Hrest.
      + simpl. nia.
      + exists (w :: R). split; [done|]. right. by exists R. }
  set (p1 := top ++ -1 :: R1).
  assert (reach N p0 p1) as Hr01.
  { rewrite E0. apply reach_app_l; [lia| |done]. rewrite Hlt, Hn. apply Z_mod_same_full. }
  pose proof (reach_Permutation N p0 p1 Hr01) as Hp1.
  assert (NoDup p1) as Hnd1 by (by rewrite Hp1).
  assert (length p1 = length p) as Hl1 by (by rewrite Hp1).
  (* the first two rows are put in order *)
  set (S2 := take (n + n) p1). set (rest := drop (n + n) p1).
  assert (p1 = S2 ++ rest) as E1 by (unfold S2, rest; by rewrite take_drop).
  assert (length S2 = (n + n)%nat) as HlS2 by (unfold S2; rewrite length_take; nia).
  assert (NoDup S2) as HndS2.
  { rewrite E1 in Hnd1. apply NoDup_app in Hnd1. tauto. }
  assert (S2 = top ++ take n (-1 :: R1)) as ES2.
  { unfold S2, p1. by rewrite take_app_add'. }
  destruct n as [|[|n']] eqn:En; [lia|lia|].
  assert (-1 ∈ S2) as HbS2.
  { rewrite ES2, elem_of_app. right. simpl. by left. }
  assert (w ∈ S2) as HwS2.
  { rewrite ES2, elem_of_app. destruct Hw1' as [?|[R2 ->]]; [by left|].
    right. simpl. right. by left. }
  assert (forall x, x ∈ take (S k) q -> x ∈ S2) as Hsub.
  { intros x. rewrite (take_S_r q k w Hw), elem_of_app, list_elem_of_singleton.
    intros [Hx| ->]; [|done]. rewrite ES2, elem_of_app. left.
    rewrite <- Htk, <- Hk0 in Hx. unfold top.
    apply elem_of_take in Hx as (i & Hi & Hik). apply elem_of_take. exists i.
    split; [done | lia]. }
  destruct (arrange_front 2 N S2 (take (S k) q)) as [R Hr2]; try done; try lia.
  { assert (NoDup q) as Hndq by (by rewrite <- Hp).
    rewrite <- (take_drop (S k) q) in Hndq. apply NoDup_app in Hndq. tauto. }
  { rewrite length_take. lia. }
  exists ((take (S k) q ++ R) ++ rest). split.
  - etrans; [exact Hr0|]. etrans; [exact Hr01|]. rewrite E1 at 1. by apply reach_app_r.
  - rewrite <- app_assoc. apply take_app_length'. rewrite length_take. lia.
Qed.

(** The first row gets the tiles that [q] has there. *)
Lemma place_row (p q : list Z) (k : nat) :
  NoDup p -> -1 ∈ p -> Z.of_nat (length p) = (M + 1) * N -> p ≡ₚ q ->
  -1 ∉ take n q -> (k <= n)%nat ->
  exists p', reach N p p' /\ take k p' = take k q.
Proof.
  intros Hnd Hbl Hlen Hp Hq. induction k as [|k IH]; intros Hk.
  - exists p. split; [apply rtc_refl | done].
  - destruct IH as (pk & Hr & Ht); [lia|].
    pose proof (reach_Permutation N p pk Hr) as Hpk.
    destruct (place_next pk q k) as (p' & Hr' & Ht'); try done.
    + by rewrite Hpk.
    + by rewrite Hpk.
    + by rewrite Hpk.
    + by rewrite Hpk.
    + exists p'. split; [by etrans | done].
Qed.

(** Boards of one more row. *)
Lemma arranges_more_rows : arranges (M + 1) N.
Proof.
  intros p q Hnd Hbl Hlen Hp Hpar.
  assert (Z.of_nat n = N) as Hn by (unfold n; lia).
  assert (NoDup q) as Hndq by (by rewrite <- Hp).
  pose proof (Permutation_length Hp) as Hlq.
  destruct (blank_down N q 0) as (q0 & Hrq & Hbq & _); [lia|done|nia|].
  fold n in Hbq.
  pose proof (reach_Permutation N q q0 Hrq) as Hq0.
  pose proof (reach_parity (M + 1) N q q0 ltac:(lia) Hndq Hrq) as Hparq.
  destruct (place_row p q0 n) as (p' & Hr & Ht); try done.
  { by rewrite Hq0. }
  pose proof (reach_Permutation N p p' Hr) as Hp'.
  pose proof (reach_parity (M + 1) N p p' ltac:(lia) Hnd Hr) as Hparp.
  assert (NoDup p') as Hnd' by (by rewrite Hp').
  assert (p' = take n q0 ++ drop n p') as E' by (by rewrite <- Ht, take_drop).
  assert (q0 = take n q0 ++ drop n q0) as E0 by (by rewrite take_drop).
  assert (length (take n q0) = n) as Hlt.
  { rewrite length_take. rewrite Hq0. nia. }
  assert (drop n p' ≡ₚ drop n q0) as Hpd.
  { apply (Permutation_app_inv_l (take n q0)). by rewrite <- E', <- E0, Hp', Hq0. }
  assert (Z.of_nat (length (drop n p')) = M * N) as Hld.
  { rewrite length_drop, Hp'. nia. }
  apply reach_sym in Hrq. etrans; [exact Hr|]. etrans; [|exact Hrq].
  set (top := take n q0) in *. set (Sp := drop n p') in *. set (Sq := drop n q0) in *.
  clearbody top Sp Sq. subst p' q0.
  apply reach_app_l; [lia|by rewrite Hlt, Hn, Z_mod_same_full|].
  apply less_rows.
  - apply NoDup_app in Hnd'. tauto.
  - assert (-1 ∈ top ++ Sp) as Hb' by (by rewrite Hp').
    rewrite elem_of_app in Hb'. tauto.
  - done.
  - done.
  - apply (parity_rule_rest M N top); [lia|lia|done|done|].
    by rewrite Hparp, Hparq.
Qed.

End Rows.

(** Every size, from two rows and two columns on. *)
Lemma arranges_all (M N : Z) : 2 <= M -> 2 <= N -> arranges M N.
Proof.
  intros HM HN. destruct (decide (N = 2)) as [->|HN2]; [apply arranges_two_columns|].
  assert (forall m : nat, arranges (Z.of_nat m + 2) N) as H.
  { induction m as [|m IH].
    - apply arranges_two_rows. lia.
    - replace (Z.of_nat (S m) + 2) with (Z.of_nat m + 2 + 1) by lia.
      apply arranges_more_rows; [lia|lia| |done]. apply arranges_two_rows. lia. }
  replace M with (Z.of_nat (Z.to_nat (M - 2)) + 2) by lia. apply H.
Qed.

(** ** The solvability test and reachability *)

(** Legal slides keep the invariant and the answer of [can_solve]. *)
Lemma replay_can_solve (M N : Z) (l : list key) (p p' : list Z) :
  1 <= M -> 1 <= N -> valid_board M N p -> replay M N l p = Ok p' ->
  valid_board M N p' /\ can_solve M N p' = can_solve M N p.
Proof.
  intros HM HN. revert p. induction l as [|c l IH]; intros p Hv Hr; simpl in Hr.
  - by injection Hr as <-.
  - destruct (change M N p c) as [p1|e] eqn:Ec; [|done]. simpl in Hr.
    destruct (change_can_solve M N c p p1 HM HN Hv Ec) as [Hv1 Hc1].
    destruct (IH p1 Hv1 Hr) as [Hv' Hc']. split; [done|]. by rewrite Hc', Hc1.
Qed.

(** Two boards with the invariant and the answer [true] can be reached from
    each other by keys. *)
Lemma solvable_replay (M N : Z) (p q : list Z) :
  2 <= M -> 2 <= N -> valid_board M N p -> valid_board M N q ->
  can_solve M N p = Ok true -> can_solve M N q = Ok true ->
  exists l, replay M N l p = Ok q.
Proof.
  intros HM HN Hp Hq Hcp Hcq.
  rewrite can_solve_rule in Hcp, Hcq by (try done; lia).
  apply (reach_replay M N); [lia| |by eapply valid_board_NoDup|].
  - apply valid_board_length; [nia|done].
  - apply (arranges_all M N HM HN).
    + by eapply valid_board_NoDup.
    + by eapply valid_board_blank.
    + apply valid_board_length; [nia|done].
    + unfold valid_board in *. by rewrite Hp, Hq.
    + congruence.
Qed.

(** C3. On every board of [M] rows and [N] columns, [M, N >= 2], that
    satisfies the permutation invariant, [can_solve] returns, and it returns
    [true] exactly when the board is reached from the canonical solved board
    by a finite sequence of legal slides of the blank, and exactly when the
    solved board is reached from it. *)
Theorem C3_can_solve_iff_reachable (M N : Z) (p : list Z) :
  2 <= M -> 2 <= N -> valid_board M N p ->
  (exists b, can_solve M N p = Ok b) /\
  (can_solve M N p = Ok true <-> exists l, replay M N l (solved_board M N) = Ok p) /\
  (can_solve M N p = Ok true <-> exists l, replay M N l p = Ok (solved_board M N)).
Proof.
  intros HM HN Hv.
  pose proof (solved_board_valid M N) as Hs.
  pose proof (can_solve_solved_board M N ltac:(lia) ltac:(lia)) as Hcs.
  split; [|split].
  - exists (parity_rule M N p). apply can_solve_rule; [lia|lia|done].
  - split.
    + intros Hc. by apply solvable_replay.
    + intros [l Hl].
      destruct (replay_can_solve M N l _ _ ltac:(lia) ltac:(lia) Hs Hl) as [_ Hc].
      by rewrite Hc.
  - split.
    + intros Hc. by apply solvable_replay.
    + intros [l Hl].
      destruct (replay_can_solve M N l _ _ ltac:(lia) ltac:(lia) Hv Hl) as [_ Hc].
      by rewrite <- Hc.
Qed.

Lemma C3_witness :
  2 <= 2 /\ 2 <= 3 /\ valid_board 2 3 [2; 4; -1; 1; 5; 3]
  /\ can_solve 2 3 [2; 4; -1; 1; 5; 3] = Ok true
  /\ (exists l, replay 2 3 l (solved_board 2 3) = Ok [2; 4; -1; 1; 5; 3])
  /\ (exists l, replay 2 3 l [2; 4; -1; 1; 5; 3] = Ok (solved_board 2 3)).
Proof.
  assert (valid_board 2 3 [2; 4; -1; 1; 5; 3]) as Hv
    by (apply (bool_decide_unpack _); vm_compute; exact I).
  assert (can_solve 2 3 [2; 4; -1; 1; 5; 3] = Ok true) as Hc by (vm_compute; reflexivity).
  destruct (C3_can_solve_iff_reachable 2 3 [2; 4; -1; 1; 5; 3]) as (_ & H1 & H2);
    [lia | lia | exact Hv |].
  split; [lia|]. split; [lia|]. split; [exact Hv|]. split; [exact Hc|].
  split; [apply H1; exact Hc | apply H2; exact Hc].
Defined.

(** * Further properties of the code *)

(** ** Setting up a game *)

Lemma wr_middle (pre rest : list Z) (x v : Z) :
  wr (pre ++ x :: rest) (Z.of_nat (length pre)) v = Ok (pre ++ v :: rest).
Proof.
  unfold wr. destruct (Z.ltb_spec (Z.of_nat (length pre)) 0) as [Hneg|_]; [lia|].
  rewrite Nat2Z.id, list_lookup_middle by done.
  by rewrite insert_app_r_alt, Nat.sub_diag by lia.
Qed.

(** The loop that numbers the cells. *)
Lemma rloop_wr (n : nat) (pre rest : list Z) :
  (n <= length rest)%nat ->
  rloop n (Z.of_nat (length pre)) (fun i p => wr p i (i + 1)) (pre ++ rest)
  = Ok (pre ++ (Z.of_nat <$> seq (S (length pre)) n) ++ drop n rest).
Proof.
  revert pre rest. induction n as [|n IH]; intros pre rest Hn; simpl.
  - by rewrite drop_0.
  - destruct rest as [|x rest]; simpl in Hn; [lia|].
    rewrite wr_middle. simpl.
    replace (pre ++ Z.of_nat (length pre) + 1 :: rest)
      with ((pre ++ [Z.of_nat (length pre) + 1]) ++ rest) by (by rewrite <- app_assoc).
    replace (Z.of_nat (length pre) + 1) with (Z.of_nat (length (pre ++ [Z.of_nat (length pre) + 1])))
      at 1 by (rewrite length_app; simpl; lia).
    rewrite IH by lia. rewrite length_app, <- app_assoc. simpl.
    rewrite Nat.add_1_r. do 3 f_equal. lia.
Qed.

Lemma initialize_run (M N : Z) (cells : list Z) :
  Z.of_nat (length cells) = M * N ->
  initialize M N cells = if 1 <=? M * N then Ok (solved_board M N) else Err OutOfRange.
Proof.
  intros Hlen. unfold initialize, rfor.
  destruct (Z.leb_spec 1 (M * N)) as [Hge|Hlt].
  - replace (Z.to_nat (M * N - 1 - 0)) with (Z.to_nat (M * N) - 1)%nat by lia.
    set (k := (Z.to_nat (M * N) - 1)%nat).
    pose proof (rloop_wr k [] cells ltac:(lia)) as E.
    simpl in E. change (Z.of_nat 0) with 0 in E. rewrite E. simpl.
    destruct (drop k cells) as [|x [|y rest]] eqn:Ed.
    + apply (f_equal length) in Ed. rewrite length_drop in Ed. simpl in Ed. lia.
    + pose proof (wr_middle (Z.of_nat <$> seq 1 k) [] x (-1)) as W.
      rewrite length_fmap, length_seq in W.
      replace (Z.of_nat k) with (M * N - 1) in W by lia.
      by rewrite W.
    + apply (f_equal length) in Ed. rewrite length_drop in Ed. simpl in Ed. lia.
  - destruct cells; [|simpl in Hlen; lia].
    replace (Z.to_nat (M * N - 1 - 0)) with 0%nat by lia. simpl.
    unfold wr. destruct (Z.ltb_spec (M * N - 1) 0); [done|lia].
Qed.

(** X1. The two initializing statements of [run_MxN] and [run_3x3] leave
    the canonical solved board in an array of [M*N >= 1] cells, whatever the
    array held; on an array without cells the second statement writes
    outside of it. *)
Theorem X1_initialize_gives_solved_board (M N : Z) (cells : list Z) :
  Z.of_nat (length cells) = M * N ->
  initialize M N cells = if 1 <=? M * N then Ok (solved_board M N) else Err OutOfRange.
Proof. apply initialize_run. Qed.

Lemma X1_witness :
  Z.of_nat (length [7; 7; 0; -3; 9; 9]) = 2 * 3
  /\ initialize 2 3 [7; 7; 0; -3; 9; 9] = Ok [1; 2; 3; 4; 5; -1].
Proof.
  split; [reflexivity|].
  exact (X1_initialize_gives_solved_board 2 3 [7; 7; 0; -3; 9; 9] eq_refl).
Defined.




(** ** The solvability test under an exchange of tiles *)

(** X3. On a board with the permutation invariant, exchanging any two
    tiles, wherever they lie, turns the answer of [can_solve] into its
    opposite (the exchange of [reshuffle] is one such). *)
Theorem X3_exchange_flips_can_solve (M N : Z) (p : list Z) (a b : Z) :
  1 <= M -> 1 <= N -> valid_board M N p ->
  a ∈ p -> b ∈ p -> a ≠ b -> a ≠ -1 -> b ≠ -1 ->
  valid_board M N (tr a b <$> p)
  /\ exists r, can_solve M N p = Ok r /\ can_solve M N (tr a b <$> p) = Ok (negb r).
Proof.
  intros HM HN Hp Ha Hb Hab Ha' Hb'.
  pose proof (valid_board_NoDup M N p Hp) as Hnd.
  assert (valid_board M N (tr a b <$> p)) as Hp'.
  { unfold valid_board in *. by rewrite tr_fmap_Permutation. }
  split; [done|]. exists (parity_rule M N p).
  rewrite !can_solve_rule by done. by rewrite parity_rule_tr.
Qed.

Lemma X3_witness :
  valid_board 3 3 [1; 2; 3; 4; 5; 6; 7; 8; -1]
  /\ can_solve 3 3 [1; 2; 3; 4; 5; 6; 7; 8; -1] = Ok true
  /\ can_solve 3 3 [8; 2; 3; 4; 5; 6; 7; 1; -1] = Ok false.
Proof.
  assert (valid_board 3 3 [1; 2; 3; 4; 5; 6; 7; 8; -1]) as Hv
    by (apply (bool_decide_unpack _); vm_compute; exact I).
  destruct (X3_exchange_flips_can_solve 3 3 [1; 2; 3; 4; 5; 6; 7; 8; -1] 1 8)
    as (_ & r & H1 & H2);
    [lia | lia | exact Hv | set_solver | set_solver | lia | lia | lia |].
  split; [exact Hv|].
  assert (can_solve 3 3 [1; 2; 3; 4; 5; 6; 7; 8; -1] = Ok true) as Hc
    by (vm_compute; reflexivity).
  split; [exact Hc|].
  rewrite Hc in H1. injection H1 as <-. exact H2.
Defined.

(** ** The loop of [reshuffle] on a board without two neighbouring tiles *)

Lemma swap_first_no_pair (n i : nat) (p : list Z) :
  (i + S n = length p)%nat -> (forall k, ~ both_tiles p k) ->
  swap_first (S n) (Z.of_nat i) p
  = if bool_decide (last p = Some (-1)) then Ok p else Err OutOfRange.
Proof.
  revert i. induction n as [|n IH]; intros i Hlen Hno.
  - destruct (lookup_lt_is_Some_2 p i ltac:(lia)) as [a Ha].
    assert (last p = Some a) as Hlast.
    { rewrite last_lookup. by replace (Nat.pred (length p)) with i by lia. }
    rewrite Hlast. cbn [swap_first]. rewrite (rd_lookup _ _ _ Ha). cbn [rbind].
    destruct (Z.eqb_spec a (-1)) as [->|Hne].
    + by rewrite bool_decide_eq_true_2.
    + rewrite bool_decide_eq_false_2 by congruence.
      unfold rd. destruct (Z.ltb_spec (Z.of_nat i + 1) 0); [lia|].
      by rewrite lookup_ge_None_2 by lia.
  - destruct (lookup_lt_is_Some_2 p i ltac:(lia)) as [a Ha].
    destruct (lookup_lt_is_Some_2 p (S i) ltac:(lia)) as [b Hb].
    rewrite (swap_first_S (S n) i p a b Ha Hb).
    destruct (Z.eqb_spec a (-1)) as [->|Hna]; [apply IH; [lia|done]|].
    destruct (Z.eqb_spec b (-1)) as [->|Hnb]; [apply IH; [lia|done]|].
    exfalso. apply (Hno i). by exists a, b.
Qed.

(** X4. When no two consecutive cells of the array both hold tiles, the
    [for] loop of [reshuffle] exchanges nothing: it leaves the array as it
    is when the last cell is the blank, and otherwise its last turn reads
    [puzzle[i+1]] one cell past the end. *)
Theorem X4_reshuffle_scan_without_pair (p : list Z) :
  p ≠ [] -> (forall k, ~ both_tiles p k) ->
  swap_first (length p) 0 p
  = if bool_decide (last p = Some (-1)) then Ok p else Err OutOfRange.
Proof.
  intros Hne Hno. destruct p as [|x p]; [done|].
  apply (swap_first_no_pair (length p) 0); [done|exact Hno].
Qed.

Lemma X4_witness :
  swap_first 3 0 [2; -1; 1] = Err OutOfRange /\ swap_first 2 0 [1; -1] = Ok [1; -1].
Proof.
  split.
  - apply (X4_reshuffle_scan_without_pair [2; -1; 1]); [done|].
    intros k (a & b & Ha & Hb & Hna & Hnb).
    destruct k as [|[|[|k]]]; simpl in Ha, Hb; congruence.
  - apply (X4_reshuffle_scan_without_pair [1; -1]); [done|].
    intros k (a & b & Ha & Hb & Hna & Hnb).
    destruct k as [|[|k]]; simpl in Ha, Hb; congruence.
Defined.

(** ** Relations that every step of the solver respects *)

Lemma obeys_Done (R H : state -> state -> Prop) {A} (m : comp A) (s s' : state) (a : A) :
  obeys R H m -> m s = Done a s' -> R s s'.
Proof. intros Hm E. specialize (Hm s). by rewrite E in Hm. Qed.

Lemma obeys_final (R : state -> state -> Prop) {A} (m : comp A) (s : state) :
  obeys R R m -> R s (final (m s)).
Proof. intros Hm. specialize (Hm s). by destruct (m s). Qed.

Create HintDb obeys.

Section Obeys.
Variables M N : Z.
Variables R H : state -> state -> Prop.
Hypothesis R_refl : forall s, R s s.
Hypothesis R_trans : forall s1 s2 s3, R s1 s2 -> R s2 s3 -> R s1 s3.
Hypothesis H_refl : forall s, H s s.
Hypothesis RH_trans : forall s1 s2 s3, R s1 s2 -> H s2 s3 -> H s1 s3.

Lemma obeys_ret {A} (a : A) : obeys R H (ret a).
Proof. intros s. apply R_refl. Qed.

Lemma obeys_fail {A} (e : error) : obeys R H (@fail A e).
Proof. intros s. apply H_refl. Qed.

Lemma obeys_bind {A B} (m : comp A) (k : A -> comp B) :
  obeys R H m -> (forall a, obeys R H (k a)) -> obeys R H (bind m k).
Proof.
  intros Hm Hk s. unfold bind. specialize (Hm s).
  destruct (m s) as [a t|e t]; [|done].
  specialize (Hk a t). destruct (k a t) as [b u|e u]; eauto.
Qed.

Lemma obeys_peek (k : Z) : obeys R H (peek k).
Proof. intros s. unfold peek, lift. destruct (rd (puzzle s) k); eauto. Qed.

Lemma obeys_locate (v : Z) : obeys R H (locate M N v).
Proof. intros s. unfold locate, lift. destruct (find M N (puzzle s) v); eauto. Qed.

Lemma obeys_get {A} (f : state -> A) : obeys R H (get f).
Proof. intros s. apply R_refl. Qed.

(** When the elementary steps respect the relations, so do [auto_change],
    [append] and the reports. *)
Lemma obeys_auto_change_steps (c : key) :
  obeys R H (apply_change M N c) -> (forall l, obeys R H (set_sol l)) -> obeys R H render ->
  obeys R H (auto_change M N c).
Proof.
  intros Hc Hs Hr. unfold auto_change.
  apply obeys_bind; [done|intros _].
  apply obeys_bind; [apply obeys_get|intros l].
  apply obeys_bind; [apply Hs|intros _]. done.
Qed.

Lemma obeys_append_steps (l : list key) :
  (forall c, obeys R H (apply_change M N c)) -> (forall l, obeys R H (set_sol l)) ->
  obeys R H render -> obeys R H (append M N l).
Proof.
  intros Hc Hs Hr. unfold append.
  apply obeys_bind; [apply obeys_get|intros l0].
  apply obeys_bind; [apply Hs|intros _].
  induction l as [|c l IH]; simpl; [apply obeys_ret|].
  apply obeys_bind; [apply Hc|intros _].
  apply obeys_bind; [apply Hr|intros _]. exact IH.
Qed.

Lemma obeys_print_sol (l : list key) (step : Z) :
  (forall e, obeys R H (emit e)) -> obeys R H (print_sol l step).
Proof.
  intros He. revert step. induction l as [|c l IH]; intros step; simpl; [apply obeys_ret|].
  apply obeys_bind; [apply He | intros _; apply IH].
Qed.

Lemma obeys_report (step : Z) : (forall e, obeys R H (emit e)) -> obeys R H (report step).
Proof.
  intros He. unfold report.
  apply obeys_bind; [apply obeys_get|intros b].
  apply obeys_bind; [apply obeys_get|intros l].
  destruct b; [by apply obeys_print_sol | apply obeys_ret].
Qed.

Lemma obeys_row_report_steps (i step : Z) :
  (forall e, obeys R H (emit e)) -> (forall l, obeys R H (set_sol l)) ->
  obeys R H (b <- get printout;;
             (if b then p <- get puzzle;; emit (Screen p);; emit (RowReport i) else ret tt);;
             step' <- report step;;
             set_sol [];;
             ret step')%comp.
Proof.
  intros He Hs.
  apply obeys_bind; [apply obeys_get|intros b].
  apply obeys_bind.
  { destruct b; [|apply obeys_ret].
    apply obeys_bind; [apply obeys_get|intros p].
    apply obeys_bind; [apply He | intros _; apply He]. }
  intros _. apply obeys_bind; [by apply obeys_report|intros step'].
  apply obeys_bind; [apply Hs | intros _; apply obeys_ret].
Qed.

Lemma obeys_closing (step : Z) :
  (forall e, obeys R H (emit e)) -> (forall l, obeys R H (set_sol l)) ->
  obeys R H (closing step).
Proof.
  intros He Hs. unfold closing.
  apply obeys_bind; [by apply obeys_report|intros step'].
  apply obeys_bind; [apply Hs|intros _].
  apply obeys_bind; [apply obeys_get|intros p].
  apply obeys_bind; [apply He | intros _; apply obeys_ret].
Qed.

Hypothesis auto_change_obeys : forall c, obeys R H (auto_change M N c).
Hypothesis append_obeys : forall l, obeys R H (append M N l).

Lemma obeys_times (n : nat) (m : comp unit) : obeys R H m -> obeys R H (times n m).
Proof.
  intros Hm. induction n as [|n IH]; simpl; [apply obeys_ret|].
  apply obeys_bind; [done | intros _; done].
Qed.

Lemma obeys_stmt (m : comp unit) : obeys R H m -> obeys R H (stmt m).
Proof. intros Hm. apply obeys_bind; [done | intros _; apply obeys_ret]. Qed.

Lemma obeys_andthen (a b : comp bool) : obeys R H a -> obeys R H b -> obeys R H (a >>> b).
Proof. intros Ha Hb. apply obeys_bind; [done | intros []; [apply obeys_ret | done]]. Qed.

Lemma obeys_repeat_le (n : nat) (i : Z) (body : Z -> comp bool) :
  (forall k, obeys R H (body k)) -> obeys R H (repeat_le n i body).
Proof.
  intros Hb. revert i. induction n as [|n IH]; intros i; simpl; [apply obeys_ret|].
  apply obeys_andthen; [apply Hb | apply IH].
Qed.

Lemma obeys_for_le (lo hi : Z) (body : Z -> comp bool) :
  (forall k, obeys R H (body k)) -> obeys R H (for_le lo hi body).
Proof. intros Hb. by apply obeys_repeat_le. Qed.

Lemma obeys_while (fuel : nat) (cond : comp bool) (body : comp unit) :
  obeys R H cond -> obeys R H body -> obeys R H (while fuel cond body).
Proof.
  intros Hc Hb. induction fuel as [|fuel IH]; simpl.
  - apply obeys_bind; [done | intros []; [apply obeys_fail | apply obeys_ret]].
  - apply obeys_bind; [done | intros []; [|apply obeys_ret]].
    apply obeys_bind; [done | intros _; done].
Qed.

Lemma obeys_upfrom (n : nat) (i : Z) (body : Z -> comp unit) :
  (forall k, obeys R H (body k)) -> obeys R H (upfrom n i body).
Proof.
  intros Hb. revert i. induction n as [|n IH]; intros i; simpl; [apply obeys_ret|].
  apply obeys_bind; [apply Hb | intros _; apply IH].
Qed.

Hint Resolve obeys_ret obeys_fail obeys_peek obeys_locate obeys_get
  auto_change_obeys append_obeys : obeys.

Ltac obeys_call :=
  lazymatch goal with
  | |- obeys _ _ (bind _ _) => apply obeys_bind; [|intros ?; cbv beta zeta]
  | |- obeys _ _ (if ?b then _ else _) => destruct b
  | |- obeys _ _ (andthen _ _) => apply obeys_andthen
  | |- obeys _ _ (stmt _) => apply obeys_stmt
  | |- obeys _ _ (for_le _ _ _) => apply obeys_for_le; intros ?
  | |- obeys _ _ (times _ _) => apply obeys_times
  | |- obeys _ _ (while _ _ _) => apply obeys_while
  | |- obeys _ _ (upfrom _ _ _) => apply obeys_upfrom; intros ?
  | |- obeys _ _ _ => solve [eauto with obeys]
  end.
Ltac obeys_all := cbv beta zeta; repeat obeys_call.

Lemma obeys_move_h (c : Z) : obeys R H (move_h M N c).
Proof. unfold move_h. obeys_all. Qed.

Lemma obeys_move_v (r : Z) : obeys R H (move_v M N r).
Proof. unfold move_v. obeys_all. Qed.

Lemma obeys_placed (i j num : Z) : obeys R H (placed N i j num).
Proof. unfold placed. obeys_all. Qed.
Hint Resolve obeys_move_h obeys_move_v obeys_placed : obeys.

Lemma obeys_move (r c i j : Z) : obeys R H (move M N r c i j).
Proof. unfold move. obeys_all. Qed.

Lemma obeys_solve_1x2 (i : Z) : obeys R H (solve_1x2 M N i).
Proof. unfold solve_1x2, from2. obeys_all. Qed.

Lemma obeys_countdown (fuel : nat) (c1 i : Z) (l : list key) :
  obeys R H (countdown M N fuel c1 i l).
Proof. revert c1. induction fuel as [|fuel IH]; intros c1; simpl; obeys_all. Qed.
Hint Resolve obeys_move obeys_solve_1x2 obeys_countdown : obeys.

Lemma obeys_solve_2x1_col (fuel : nat) (i : Z) : obeys R H (solve_2x1_col M N fuel i).
Proof. unfold solve_2x1_col. obeys_all. Qed.

Lemma obeys_solve_2x1 (fuel : nat) : obeys R H (solve_2x1 M N fuel).
Proof. unfold solve_2x1. apply obeys_upfrom. intros k. apply obeys_solve_2x1_col. Qed.

Lemma obeys_place (fuel : nat) (num i j : Z) : obeys R H (place M N fuel num i j).
Proof. unfold place. obeys_all. Qed.

Lemma obeys_all_home (n : nat) (k : Z) : obeys R H (all_home n k).
Proof. revert k. induction n as [|n IH]; intros k; simpl; obeys_all. Qed.
Hint Resolve obeys_solve_2x1 obeys_place obeys_all_home : obeys.

Lemma obeys_last_three (fuel : nat) : obeys R H (last_three M N fuel).
Proof. unfold last_three. obeys_all. Qed.

Lemma obeys_block_wrong : obeys R H (block_wrong M N).
Proof. unfold block_wrong. obeys_all. Qed.
Hint Resolve obeys_last_three obeys_block_wrong : obeys.

Lemma obeys_endgame (fuel : nat) : obeys R H (endgame M N fuel).
Proof. unfold endgame. obeys_all. Qed.
Hint Resolve obeys_endgame : obeys.

(** The report of a finished row, as [solve_row] makes it. *)
Hypothesis row_report_obeys : forall i step,
  obeys R H (b <- get printout;;
             (if b then p <- get puzzle;; emit (Screen p);; emit (RowReport i) else ret tt);;
             step' <- report step;;
             set_sol [];;
             ret step')%comp.

Lemma obeys_solve_row (fuel : nat) (i step : Z) : obeys R H (solve_row M N fuel i step).
Proof.
  unfold solve_row.
  apply obeys_bind; [obeys_all|intros _].
  apply obeys_bind; [obeys_all|intros _].
  apply obeys_bind; [obeys_all|intros correct].
  apply obeys_bind; [obeys_all|intros _].
  apply obeys_bind; [obeys_all|intros check].
  destruct check; [apply row_report_obeys | apply obeys_ret].
Qed.

Lemma obeys_solve_rows (fuel n : nat) (i step : Z) : obeys R H (solve_rows M N fuel n i step).
Proof.
  revert i step. induction n as [|n IH]; intros i step; simpl; [apply obeys_ret|].
  apply obeys_bind; [apply obeys_solve_row | intros a; apply IH].
Qed.
Hint Resolve obeys_solve_rows : obeys.

Lemma obeys_solving (fuel : nat) : obeys R H (solving M N fuel).
Proof. unfold solving. obeys_all. Qed.

End Obeys.

(** ** What the elementary steps do to the memory *)

Lemma apply_change_run (M N : Z) (c : key) (s : state) :
  apply_change M N c s
  = match change M N (puzzle s) c with
    | Ok p' => Done tt (State p' (sol s) (printout s) (console s) (history s ++ [p']))
    | Err e => Halt e s
    end.
Proof.
  unfold apply_change, bind, get, lift, set_puzzle.
  by destruct (change M N (puzzle s) c).
Qed.

Lemma render_run (s : state) :
  render s
  = Done tt (State (puzzle s) (sol s) (printout s)
               (console s ++ if printout s then [Screen (puzzle s)] else []) (history s)).
Proof.
  unfold render, bind, get, emit, ret. destruct s as [p l [] co h]; simpl; [done|].
  by rewrite app_nil_r.
Qed.

Lemma auto_change_run (M N : Z) (c : key) (s : state) :
  auto_change M N c s
  = match change M N (puzzle s) c with
    | Ok p' => Done tt (State p' (sol s ++ [c]) (printout s)
                          (console s ++ if printout s then [Screen p'] else [])
                          (history s ++ [p']))
    | Err e => Halt e s
    end.
Proof.
  unfold auto_change, bind at 1. rewrite apply_change_run.
  destruct (change M N (puzzle s) c) as [p'|e]; [|done].
  unfold bind, get, set_sol. by rewrite render_run.
Qed.

Lemma closing_run (step : Z) (s : state) :
  closing step s
  = Done (step + Z.of_nat (length (sol s)))
      (State (puzzle s) [] (printout s)
         (console s ++ (if printout s then Printed <$> sol s else []) ++ [Screen (puzzle s)])
         (history s)).
Proof.
  unfold closing, report, bind at 1, bind at 1, get.
  destruct (printout s) eqn:Epr.
  - unfold bind at 1. rewrite print_sol_Done. unfold bind, set_sol, get, emit, ret. simpl.
    by rewrite Epr, <- app_assoc.
  - unfold bind, ret, set_sol, get, emit. simpl. by rewrite Epr.
Qed.

Lemma bind_assoc {A B C} (m : comp A) (k : A -> comp B) (k' : B -> comp C) (s : state) :
  bind (bind m k) k' s = bind m (fun a => bind (k a) k') s.
Proof. unfold bind. by destruct (m s). Qed.

Lemma bind_ext {A B} (m : comp A) (k k' : A -> comp B) (s : state) :
  (forall a t, k a t = k' a t) -> bind m k s = bind m k' s.
Proof. intros E. unfold bind. by destruct (m s). Qed.

(** [autosolve] is the prompt, the solving and the closing report, in
    this order. *)
Lemma autosolve_phases (M N : Z) (fuel : nat) (c : ascii) (s : state) :
  autosolve M N fuel c s
  = (set_printout true;; answer c;; step <- solving M N fuel;; closing step)%comp s.
Proof.
  unfold autosolve.
  apply bind_ext; intros _ s1. apply bind_ext; intros _ s2.
  symmetry. unfold solving.
  rewrite bind_assoc. apply bind_ext; intros step s3.
  do 5 (rewrite bind_assoc; apply bind_ext; intros _ ?).
  done.
Qed.

(** ** The cells of the board are kept *)

Lemma swap_Permutation (p p' : list Z) (i j : Z) : swap p i j = Ok p' -> p' ≡ₚ p.
Proof.
  intros Hs. destruct (swap_Ok_inv p p' i j Hs) as (x & y & Hx & Hy).
  apply rd_Ok in Hx as [Hi Hx]. apply rd_Ok in Hy as [Hj Hy].
  destruct (Nat.lt_total (Z.to_nat i) (Z.to_nat j)) as [Hlt|[Heq|Hgt]].
  - destruct (lookup_split p (Z.to_nat i) x Hx) as (l1 & r & -> & Hl1).
    rewrite lookup_app_r in Hy by lia.
    destruct (Z.to_nat j - length l1)%nat as [|k] eqn:Ek; [lia|]. simpl in Hy.
    destruct (lookup_split r k y Hy) as (mid & l2 & -> & Hmid).
    destruct (swap_apart l1 mid l2 x y) as [E _].
    replace (Z.of_nat (length l1)) with i in E by lia.
    replace (Z.of_nat (length l1 + 1 + length mid)) with j in E by lia.
    rewrite E in Hs. injection Hs as <-.
    apply Permutation_app_head. rewrite <- !Permutation_middle. apply Permutation_swap.
  - assert (i = j) as -> by lia. unfold swap in Hs.
    rewrite (proj2 (rd_Ok p j x) (conj Hj Hx)) in Hs. simpl in Hs. injection Hs as <-.
    assert (x = y) as -> by congruence.
    by rewrite list_insert_insert_eq, list_insert_id.
  - destruct (lookup_split p (Z.to_nat j) y Hy) as (l1 & r & -> & Hl1).
    rewrite lookup_app_r in Hx by lia.
    destruct (Z.to_nat i - length l1)%nat as [|k] eqn:Ek; [lia|]. simpl in Hx.
    destruct (lookup_split r k x Hx) as (mid & l2 & -> & Hmid).
    destruct (swap_apart l1 mid l2 y x) as [_ E].
    replace (Z.of_nat (length l1)) with j in E by lia.
    replace (Z.of_nat (length l1 + 1 + length mid)) with i in E by lia.
    rewrite E in Hs. injection Hs as <-.
    apply Permutation_app_head. rewrite <- !Permutation_middle. apply Permutation_swap.
Qed.

(** Whatever the array holds, a successful [change] keeps its cells. *)
Lemma change_Permutation (M N : Z) (c : key) (p p' : list Z) :
  change M N p c = Ok p' -> p' ≡ₚ p.
Proof.
  unfold change. destruct (find M N p BLANK) as [pos|e]; [|discriminate]. simpl.
  destruct c.
  - destruct (0 <? pos ÷ N); [apply swap_Permutation | discriminate].
  - destruct (0 <? Z.rem pos N); [apply swap_Permutation | discriminate].
  - destruct (pos ÷ N <? M - 1); [apply swap_Permutation | discriminate].
  - destruct (Z.rem pos N <? N - 1); [apply swap_Permutation | discriminate].
Qed.

Section SameCells.
Variables M N : Z.

Lemma same_cells_refl (s : state) : same_cells s s.
Proof. by unfold same_cells. Qed.

Lemma same_cells_trans (s1 s2 s3 : state) :
  same_cells s1 s2 -> same_cells s2 s3 -> same_cells s1 s3.
Proof. unfold same_cells. intros H1 H2. by rewrite H2. Qed.

Lemma same_cells_apply_change (c : key) : obeys same_cells same_cells (apply_change M N c).
Proof.
  intros s. rewrite apply_change_run.
  destruct (change M N (puzzle s) c) as [p'|e] eqn:E; [|apply same_cells_refl].
  by apply change_Permutation in E.
Qed.

Lemma same_cells_set_sol (l : list key) : obeys same_cells same_cells (set_sol l).
Proof. intros s. unfold same_cells. simpl. done. Qed.

Lemma same_cells_emit (e : event) : obeys same_cells same_cells (emit e).
Proof. intros s. unfold same_cells. simpl. done. Qed.

Lemma same_cells_render : obeys same_cells same_cells render.
Proof. intros s. rewrite render_run. unfold same_cells. simpl. done. Qed.

Ltac cells_facts :=
  first [ apply same_cells_refl | apply same_cells_trans
        | apply same_cells_apply_change | apply same_cells_set_sol
        | apply same_cells_emit | apply same_cells_render ].

Lemma same_cells_auto_change (c : key) : obeys same_cells same_cells (auto_change M N c).
Proof.
  apply obeys_auto_change_steps; cells_facts.
Qed.

Lemma same_cells_append (l : list key) : obeys same_cells same_cells (append M N l).
Proof.
  apply obeys_append_steps; cells_facts.
Qed.

Ltac cells_moves :=
  first [ apply same_cells_refl | apply same_cells_trans
        | apply same_cells_auto_change | apply same_cells_append
        | apply same_cells_emit | apply same_cells_set_sol ].

Lemma same_cells_solving (fuel : nat) : obeys same_cells same_cells (solving M N fuel).
Proof.
  apply obeys_solving; try cells_moves.
  intros i step. apply obeys_row_report_steps; cells_moves.
Qed.

Lemma same_cells_autosolve (fuel : nat) (c : ascii) :
  obeys same_cells same_cells (autosolve M N fuel c).
Proof.
  intros s. rewrite autosolve_phases. revert s.
  apply obeys_bind; try cells_moves.
  { intros s. unfold same_cells. simpl. done. }
  intros _. apply obeys_bind; try cells_moves.
  { intros s. destruct c as [[] [] [] [] [] [] [] []]; unfold same_cells; simpl; done. }
  intros _. apply obeys_bind; try cells_moves.
  { apply same_cells_solving. }
  intros step. apply obeys_closing; cells_moves.
Qed.

End SameCells.

(** X5. [autosolve] and the routines it is made of never lose, repeat or
    invent a cell: whatever the array holds, whatever the sizes, and
    whether the run returns, stops on an error or uses up its loops, the
    board it leaves is a rearrangement of the board it was given. *)
Theorem X5_solver_keeps_the_cells (M N : Z) :
  (forall fuel p l c, puzzle (final (run_autosolve fuel M N p l c)) ≡ₚ p)
  /\ (forall r c i j s, puzzle (final (move M N r c i j s)) ≡ₚ puzzle s)
  /\ (forall i s, puzzle (final (solve_1x2 M N i s)) ≡ₚ puzzle s)
  /\ (forall fuel s, puzzle (final (solve_2x1 M N fuel s)) ≡ₚ puzzle s)
  /\ (forall l s, puzzle (final (append M N l s)) ≡ₚ puzzle s).
Proof.
  split; [|split; [|split; [|split]]].
  - intros fuel p l c.
    apply (obeys_final same_cells (autosolve M N fuel c) (State p l true [] [])).
    apply same_cells_autosolve.
  - intros r c i j s. apply (obeys_final same_cells (move M N r c i j) s).
    apply obeys_move;
      first [ apply same_cells_refl | apply same_cells_trans
            | apply (same_cells_auto_change M N) | apply (same_cells_append M N) ].
  - intros i s. apply (obeys_final same_cells (solve_1x2 M N i) s).
    apply obeys_solve_1x2;
      first [ apply same_cells_refl | apply same_cells_trans
            | apply (same_cells_auto_change M N) | apply (same_cells_append M N) ].
  - intros fuel s. apply (obeys_final same_cells (solve_2x1 M N fuel) s).
    apply obeys_solve_2x1;
      first [ apply same_cells_refl | apply same_cells_trans
            | apply (same_cells_auto_change M N) | apply (same_cells_append M N) ].
  - intros l s. apply (obeys_final same_cells (append M N l) s). apply same_cells_append.
Qed.

(** ** The answer of [can_solve] is kept *)

Section SameAnswer.
Variables M N : Z.
Hypothesis M_ge : 1 <= M.
Hypothesis N_ge : 1 <= N.

Lemma same_answer_refl (s : state) : same_answer M N s s.
Proof. by unfold same_answer. Qed.

Lemma same_answer_trans (s1 s2 s3 : state) :
  same_answer M N s1 s2 -> same_answer M N s2 s3 -> same_answer M N s1 s3.
Proof.
  unfold same_answer. intros H1 H2 Hv. destruct (H1 Hv) as [Hv2 E2].
  destruct (H2 Hv2) as [Hv3 E3]. split; [done | congruence].
Qed.

Lemma same_answer_same_board (s s' : state) : puzzle s' = puzzle s -> same_answer M N s s'.
Proof. unfold same_answer. intros ->. done. Qed.

Lemma same_answer_apply_change (c : key) :
  obeys (same_answer M N) (same_answer M N) (apply_change M N c).
Proof.
  intros s. rewrite apply_change_run.
  destruct (change M N (puzzle s) c) as [p'|e] eqn:E; [|apply same_answer_refl].
  intros Hv. by apply (change_can_solve M N c).
Qed.

Lemma same_answer_set_sol (l : list key) : obeys (same_answer M N) (same_answer M N) (set_sol l).
Proof. intros s. by apply same_answer_same_board. Qed.

Lemma same_answer_emit (e : event) : obeys (same_answer M N) (same_answer M N) (emit e).
Proof. intros s. by apply same_answer_same_board. Qed.

Lemma same_answer_render : obeys (same_answer M N) (same_answer M N) render.
Proof. intros s. rewrite render_run. by apply same_answer_same_board. Qed.

Ltac answer_facts :=
  first [ apply same_answer_refl | apply same_answer_trans
        | apply same_answer_apply_change | apply same_answer_set_sol
        | apply same_answer_emit | apply same_answer_render ].

Lemma same_answer_auto_change (c : key) :
  obeys (same_answer M N) (same_answer M N) (auto_change M N c).
Proof. apply obeys_auto_change_steps; answer_facts. Qed.

Lemma same_answer_append (l : list key) :
  obeys (same_answer M N) (same_answer M N) (append M N l).
Proof. apply obeys_append_steps; answer_facts. Qed.

Ltac answer_moves :=
  first [ apply same_answer_refl | apply same_answer_trans
        | apply same_answer_auto_change | apply same_answer_append
        | apply same_answer_emit | apply same_answer_set_sol ].

Lemma same_answer_solving (fuel : nat) :
  obeys (same_answer M N) (same_answer M N) (solving M N fuel).
Proof.
  apply obeys_solving; try answer_moves.
  intros i step. apply obeys_row_report_steps; answer_moves.
Qed.

Lemma same_answer_autosolve (fuel : nat) (c : ascii) :
  obeys (same_answer M N) (same_answer M N) (autosolve M N fuel c).
Proof.
  intros s. rewrite autosolve_phases. revert s.
  apply obeys_bind; try answer_moves.
  { intros s. by apply same_answer_same_board. }
  intros _. apply obeys_bind; try answer_moves.
  { intros s. destruct c as [[] [] [] [] [] [] [] []]; by apply same_answer_same_board. }
  intros _. apply obeys_bind; try answer_moves.
  { apply same_answer_solving. }
  intros step. apply obeys_closing; answer_moves.
Qed.

End SameAnswer.

(** X6. Run on a board with the permutation invariant, [autosolve] leaves
    a board with the invariant on which [can_solve] answers as it did on
    the board given, whether the run returns, stops on an error or uses up
    its loops; so on a board that [can_solve] rejects it never leaves the
    canonical solved board. *)
Theorem X6_solver_keeps_the_answer (fuel : nat) (M N : Z) (p : list Z) (l : list key)
    (c : ascii) :
  1 <= M -> 1 <= N -> valid_board M N p ->
  let s := final (run_autosolve fuel M N p l c) in
  valid_board M N (puzzle s)
  /\ can_solve M N (puzzle s) = can_solve M N p
  /\ (can_solve M N p = Ok false -> puzzle s ≠ solved_board M N).
Proof.
  intros HM HN Hv s.
  assert (same_answer M N (State p l true [] []) s) as Hs.
  { apply (obeys_final (same_answer M N) (autosolve M N fuel c)).
    by apply same_answer_autosolve. }
  clearbody s. destruct (Hs Hv) as [Hv' Hc]. simpl in Hc.
  split; [exact Hv'|]. split; [exact Hc|].
  intros Hno Hsolved. rewrite Hsolved, can_solve_solved_board, Hno in Hc by done.
  discriminate Hc.
Qed.

Lemma X6_witness :
  valid_board 2 2 [2; 1; 3; -1]
  /\ can_solve 2 2 [2; 1; 3; -1] = Ok false
  /\ puzzle (final (run_autosolve 5 2 2 [2; 1; 3; -1] [] "y")) ≠ solved_board 2 2.
Proof.
  assert (valid_board 2 2 [2; 1; 3; -1]) as Hv
    by (apply (bool_decide_unpack _); vm_compute; exact I).
  assert (can_solve 2 2 [2; 1; 3; -1] = Ok false) as Hc by (vm_compute; reflexivity).
  split; [exact Hv|]. split; [exact Hc|].
  apply (X6_solver_keeps_the_answer 5 2 2 [2; 1; 3; -1] [] "y"); [lia | lia | exact Hv | exact Hc].
Defined.

(** ** The keys that are logged are the moves that are made *)

Section LogsMoves.
Variables M N : Z.

Lemma logs_moves_refl (s : state) : logs_moves M N s s.
Proof. exists []. by rewrite !app_nil_r, Nat.add_0_r. Qed.

Lemma logs_moves_trans (s1 s2 s3 : state) :
  logs_moves M N s1 s2 -> logs_moves M N s2 s3 -> logs_moves M N s1 s3.
Proof.
  intros (l1 & E1 & R1 & L1) (l2 & E2 & R2 & L2). exists (l1 ++ l2).
  split; [by rewrite E2, E1, app_assoc|]. split.
  - by rewrite replay_app, R1.
  - rewrite L2, L1, length_app. lia.
Qed.

Lemma whatever_refl (s : state) : whatever s s.
Proof. done. Qed.

Lemma whatever_after (R : state -> state -> Prop) (s1 s2 s3 : state) :
  R s1 s2 -> whatever s2 s3 -> whatever s1 s3.
Proof. done. Qed.

Lemma logs_moves_auto_change (c : key) : obeys (logs_moves M N) whatever (auto_change M N c).
Proof.
  intros s. rewrite auto_change_run.
  destruct (change M N (puzzle s) c) as [p'|e] eqn:E; [|done].
  exists [c]. simpl. rewrite E. split; [done|]. split; [done|].
  by rewrite length_app.
Qed.

Lemma append_each_logs (l : list key) (s : state) :
  match append_each M N l s with
  | Done _ s' =>
      replay M N l (puzzle s) = Ok (puzzle s') /\ sol s' = sol s
      /\ length (history s') = (length (history s) + length l)%nat
  | Halt _ _ => True
  end.
Proof.
  revert s. induction l as [|c l IH]; intros s; simpl.
  - by rewrite Nat.add_0_r.
  - unfold bind at 1. rewrite apply_change_run.
    destruct (change M N (puzzle s) c) as [p'|e] eqn:E; [|done].
    unfold bind at 1. rewrite render_run. simpl.
    match goal with |- context [append_each M N l ?t] => specialize (IH t) end.
    destruct (append_each M N l _) as [[] s'|e s']; [|done]. simpl in IH.
    destruct IH as (Hr & Hs & Hh). split; [done|]. split; [done|].
    rewrite Hh, length_app. simpl. lia.
Qed.

Lemma logs_moves_append (l : list key) : obeys (logs_moves M N) whatever (append M N l).
Proof.
  intros s. unfold append, bind, get, set_sol.
  match goal with |- context [append_each M N l ?t] => pose proof (append_each_logs l t) as Hl end.
  destruct (append_each M N l _) as [[] s'|e s']; [|done]. simpl in Hl.
  destruct Hl as (Hr & Hs & Hh). by exists l.
Qed.

End LogsMoves.

Ltac logs_facts :=
  first [ apply logs_moves_refl | apply logs_moves_trans | apply whatever_refl
        | apply (whatever_after (logs_moves _ _)) | apply logs_moves_auto_change
        | apply logs_moves_append ].

(** X7. When [move], [solve_1x2], [solve_2x1], [move_h] or [move_v]
    returns, the vector [sol] has grown by exactly the keys that were
    played: replaying the new entries through [change] from the board
    before the call gives the board after it, and [change] was called once
    for each of them. *)
Theorem X7_helpers_log_their_moves (M N : Z) (s s' : state) :
  (forall r c i j, move M N r c i j s = Done tt s' -> logs_moves M N s s')
  /\ (forall i, solve_1x2 M N i s = Done tt s' -> logs_moves M N s s')
  /\ (forall fuel, solve_2x1 M N fuel s = Done tt s' -> logs_moves M N s s')
  /\ (forall c, move_h M N c s = Done tt s' -> logs_moves M N s s')
  /\ (forall r, move_v M N r s = Done tt s' -> logs_moves M N s s').
Proof.
  split; [|split; [|split; [|split]]].
  - intros r c i j. apply (obeys_Done (logs_moves M N) whatever).
    apply obeys_move; logs_facts.
  - intros i. apply (obeys_Done (logs_moves M N) whatever).
    apply obeys_solve_1x2; logs_facts.
  - intros fuel. apply (obeys_Done (logs_moves M N) whatever).
    apply obeys_solve_2x1; logs_facts.
  - intros c. apply (obeys_Done (logs_moves M N) whatever).
    apply obeys_move_h; logs_facts.
  - intros r. apply (obeys_Done (logs_moves M N) whatever).
    apply obeys_move_v; logs_facts.
Qed.

Lemma X7_witness :
  let s := State [1; 2; -1; 3] [] false [] [] in
  let s' := State [1; 2; 3; -1] [kD] false [] [[1; 2; 3; -1]] in
  move_h 2 2 1 s = Done tt s' /\ logs_moves 2 2 s s'.
Proof.
  intros s s'.
  assert (move_h 2 2 1 s = Done tt s') as E by (vm_compute; reflexivity).
  split; [exact E|].
  destruct (X7_helpers_log_their_moves 2 2 s s') as (_ & _ & _ & H & _).
  apply (H 1). exact E.
Defined.

(** ** The number that [autosolve] returns *)

Lemma logs_moves_tally (M N : Z) (s s' : state) : logs_moves M N s s' -> tally s' = tally s.
Proof.
  intros (l & E & _ & L). unfold tally. rewrite E, L, length_app. lia.
Qed.

(** The report of a finished row, with [sol.clear()]. *)
Lemma row_report_run (i step : Z) (s : state) :
  (b <- get printout;;
   (if b then p <- get puzzle;; emit (Screen p);; emit (RowReport i) else ret tt);;
   step' <- report step;;
   set_sol [];;
   ret step')%comp s
  = Done (step + Z.of_nat (length (sol s)))
      (State (puzzle s) [] (printout s)
         (console s ++ if printout s
                       then Screen (puzzle s) :: RowReport i :: (Printed <$> sol s) else [])
         (history s)).
Proof.
  destruct s as [p l [] co h]; unfold report, bind, get, emit, ret, set_sol;
    cbn [puzzle sol printout console history].
  - rewrite print_sol_Done. cbn [puzzle sol printout console history].
    by rewrite <- !app_assoc.
  - by rewrite app_nil_r.
Qed.

Section Counting.
Variables M N : Z.

Ltac moved H :=
  apply (obeys_Done (logs_moves M N) whatever) in H;
  [apply logs_moves_tally in H | try logs_facts].

Lemma solve_row_counts (fuel : nat) (i step step' : Z) (s s' : state) :
  solve_row M N fuel i step s = Done step' s' -> step' + tally s' = step + tally s.
Proof.
  unfold solve_row. intros H.
  apply bind_inv in H as ([] & s1 & H1 & H).
  moved H1; [|apply obeys_upfrom; try logs_facts; intros j; apply obeys_place; logs_facts].
  apply bind_inv in H as ([] & s2 & H2 & H).
  moved H2; [|apply obeys_solve_1x2; logs_facts].
  apply bind_inv in H as (correct & s3 & H3 & H).
  moved H3; [|apply obeys_all_home; logs_facts].
  apply bind_inv in H as ([] & s4 & H4 & H).
  moved H4; [|destruct (negb correct); [apply logs_moves_append | apply obeys_ret; logs_facts]].
  apply bind_inv in H as (check & s5 & H5 & H).
  moved H5; [|apply obeys_all_home; logs_facts].
  destruct check.
  - rewrite row_report_run in H. injection H as <- <-.
    unfold tally in *. simpl. lia.
  - injection H as <- <-. lia.
Qed.

Lemma solve_rows_counts (fuel n : nat) (i step step' : Z) (s s' : state) :
  solve_rows M N fuel n i step s = Done step' s' -> step' + tally s' = step + tally s.
Proof.
  revert i step s. induction n as [|n IH]; intros i step s; simpl.
  - by intros [= <- <-].
  - intros H. apply bind_inv in H as (step1 & s1 & H1 & H).
    apply solve_row_counts in H1. apply IH in H. lia.
Qed.

Lemma solving_counts (fuel : nat) (step : Z) (s s' : state) :
  solving M N fuel s = Done step s' -> step + tally s' = tally s.
Proof.
  unfold solving. intros H.
  apply bind_inv in H as (step0 & s1 & H1 & H). apply solve_rows_counts in H1.
  apply bind_inv in H as ([] & s2 & H2 & H).
  moved H2; [|destruct (3 <=? M); [apply obeys_last_three | apply obeys_ret]; logs_facts].
  apply bind_inv in H as ([] & s3 & H3 & H).
  moved H3; [|apply obeys_solve_2x1; logs_facts].
  apply bind_inv in H as ([] & s4 & H4 & H).
  moved H4; [|apply obeys_move_h; logs_facts].
  apply bind_inv in H as ([] & s5 & H5 & H).
  moved H5; [|apply obeys_move_v; logs_facts].
  apply bind_inv in H as ([] & s6 & H6 & H).
  moved H6; [|apply obeys_endgame; logs_facts].
  injection H as <- <-. lia.
Qed.

End Counting.

(** X8. The number that [autosolve] returns is the number of moves it
    made, that is of calls of [change], plus the number of keys that [sol]
    held on entry: every move is counted once, with or without printout,
    whether or not its row was reported. *)
Theorem X8_autosolve_counts_its_moves (fuel : nat) (M N : Z) (p : list Z) (l : list key)
    (c : ascii) (step : Z) (s : state) :
  run_autosolve fuel M N p l c = Done step s ->
  step = Z.of_nat (length l) + Z.of_nat (length (history s)).
Proof.
  unfold run_autosolve. rewrite autosolve_phases. intros H.
  apply bind_inv in H as ([] & s1 & H1 & H). injection H1 as <-.
  apply bind_inv in H as ([] & s2 & H2 & H).
  assert (tally s2 = Z.of_nat (length l)) as Ht.
  { destruct c as [[] [] [] [] [] [] [] []]; injection H2 as <-; unfold tally; simpl; lia. }
  apply bind_inv in H as (step0 & s3 & H3 & H).
  apply solving_counts in H3. rewrite closing_run in H. injection H as <- <-.
  unfold tally in *. simpl. lia.
Qed.

Lemma X8_witness :
  exists s, run_autosolve 2 2 2 [-1; 1; 3; 2] [kW] "n" = Done 3 s
            /\ 3 = Z.of_nat (length [kW]) + Z.of_nat (length (history s)).
Proof.
  eexists. split; [vm_compute; reflexivity|].
  eapply (X8_autosolve_counts_its_moves 2 2 2 [-1; 1; 3; 2] [kW] "n").
  vm_compute. reflexivity.
Defined.

(** ** A run without printout *)

Section Quiet.
Variables M N : Z.

Lemma quiet_refl (s : state) : quiet s s.
Proof. by unfold quiet. Qed.

Lemma quiet_trans (s1 s2 s3 : state) : quiet s1 s2 -> quiet s2 s3 -> quiet s1 s3.
Proof.
  unfold quiet. intros H1 H2 Hoff. destruct (H1 Hoff) as [Hoff2 E2].
  destruct (H2 Hoff2) as [Hoff3 E3]. split; [done | congruence].
Qed.

Lemma quiet_apply_change (c : key) : obeys quiet quiet (apply_change M N c).
Proof.
  intros s. rewrite apply_change_run.
  destruct (change M N (puzzle s) c); [|apply quiet_refl]. by unfold quiet.
Qed.

Lemma quiet_set_sol (l : list key) : obeys quiet quiet (set_sol l).
Proof. intros s. unfold quiet. simpl. done. Qed.

Lemma quiet_render : obeys quiet quiet render.
Proof.
  intros s. rewrite render_run. unfold quiet. simpl. intros ->. by rewrite app_nil_r.
Qed.

Lemma quiet_row_report (i step : Z) :
  obeys quiet quiet
    (b <- get printout;;
     (if b then p <- get puzzle;; emit (Screen p);; emit (RowReport i) else ret tt);;
     step' <- report step;;
     set_sol [];;
     ret step')%comp.
Proof.
  intros s. rewrite row_report_run. unfold quiet. simpl. intros ->. by rewrite app_nil_r.
Qed.

Ltac quiet_facts :=
  first [ apply quiet_refl | apply quiet_trans | apply quiet_apply_change
        | apply quiet_set_sol | apply quiet_render ].

Lemma quiet_auto_change (c : key) : obeys quiet quiet (auto_change M N c).
Proof. apply obeys_auto_change_steps; quiet_facts. Qed.

Lemma quiet_append (l : list key) : obeys quiet quiet (append M N l).
Proof. apply obeys_append_steps; quiet_facts. Qed.

Lemma quiet_solving (fuel : nat) : obeys quiet quiet (solving M N fuel).
Proof.
  apply obeys_solving;
    first [ apply quiet_refl | apply quiet_trans | apply quiet_auto_change
          | apply quiet_append | apply quiet_row_report ].
Qed.

End Quiet.

(** X9. When the answer at the prompt is 'n' or 'N', [autosolve] draws no
    board, prints no key and reports no row while it solves: if it returns,
    all that the console holds is the final board, displayed by the last
    statement; if it stops on the way, the console holds nothing. *)
Theorem X9_no_printout_no_display (fuel : nat) (M N : Z) (p : list Z) (l : list key)
    (c : ascii) :
  c = "n"%char \/ c = "N"%char ->
  match run_autosolve fuel M N p l c with
  | Done _ s => console s = [Screen (puzzle s)] /\ printout s = false
  | Halt _ s => console s = [] /\ printout s = false
  end.
Proof.
  intros Hc. unfold run_autosolve. rewrite autosolve_phases.
  assert (answer c (State p l true [] []) = Done tt (State p l false [] [])) as Ha
    by (by destruct Hc as [-> | ->]).
  rewrite (bind_Done (set_printout true) _ (State p l true [] []) (State p l true [] []) tt
             eq_refl).
  rewrite (bind_Done _ _ _ _ tt Ha). unfold bind at 1.
  pose proof (quiet_solving M N fuel (State p l false [] [])) as Hq.
  destruct (solving M N fuel _) as [step s|e s].
  - destruct (Hq eq_refl) as [Hoff Hco]. rewrite closing_run. simpl.
    rewrite Hoff, Hco. done.
  - destruct (Hq eq_refl) as [Hoff Hco]. done.
Qed.

Lemma X9_witness :
  exists s, run_autosolve 2 2 2 [-1; 1; 3; 2] [] "n" = Done 2 s
            /\ console s = [Screen [1; 2; 3; -1]].
Proof.
  pose proof (X9_no_printout_no_display 2 2 2 [-1; 1; 3; 2] [] "n" (or_introl eq_refl)) as H.
  assert (exists s, run_autosolve 2 2 2 [-1; 1; 3; 2] [] "n" = Done 2 s
                    /\ puzzle s = [1; 2; 3; -1]) as (s & E & Hp)
    by (eexists; split; vm_compute; reflexivity).
  rewrite E in H. destruct H as [H _]. exists s. split; [exact E|]. by rewrite H, Hp.
Defined.

(** ** What a return of [autosolve] tells *)

Lemma while_Done (fuel : nat) (cond : comp bool) (body : comp unit) (s s' : state) :
  while fuel cond body s = Done tt s' -> exists t, cond t = Done false s'.
Proof.
  revert s. induction fuel as [|fuel IH]; intros s; simpl; intros H;
    apply bind_inv in H as (b & t & Hc & H); destruct b.
  - discriminate.
  - injection H as <-. by exists s.
  - apply bind_inv in H as ([] & t' & _ & H). by apply (IH t').
  - injection H as <-. by exists s.
Qed.

Lemma peek_inv (k v : Z) (s s' : state) :
  peek k s = Done v s' -> s' = s /\ rd (puzzle s) k = Ok v.
Proof. unfold peek, lift. destruct (rd (puzzle s) k); [|done]. by intros [= -> ->]. Qed.

Lemma block_wrong_false (M N : Z) (s s' : state) :
  block_wrong M N s = Done false s' ->
  s' = s
  /\ rd (puzzle s) (M * N - 2) = Ok (M * N - 1)
  /\ rd (puzzle s) ((M - 1) * N - 1) = Ok ((M - 1) * N)
  /\ rd (puzzle s) ((M - 1) * N - 2) = Ok ((M - 1) * N - 1).
Proof.
  unfold block_wrong. intros H.
  apply bind_inv in H as (a & t & Ha & H). apply peek_inv in Ha as [-> Ha].
  destruct (Z.eqb_spec a (M * N - 1)) as [->|]; [simpl in H|discriminate].
  apply bind_inv in H as (b & t & Hb & H). apply peek_inv in Hb as [-> Hb].
  destruct (Z.eqb_spec b ((M - 1) * N)) as [->|]; [simpl in H|discriminate].
  apply bind_inv in H as (c & t & Hc & H). apply peek_inv in Hc as [-> Hc].
  unfold ret in H. injection H as H <-.
  destruct (Z.eqb_spec c ((M - 1) * N - 1)) as [->|]; [done|discriminate].
Qed.

(** [autosolve] returns only through the exit of its last loop. *)
Lemma return_block_home (fuel : nat) (M N : Z) (p : list Z) (l : list key)
    (c : ascii) (step : Z) (s : state) :
  run_autosolve fuel M N p l c = Done step s ->
  rd (puzzle s) (M * N - 2) = Ok (M * N - 1)
  /\ rd (puzzle s) ((M - 1) * N - 1) = Ok ((M - 1) * N)
  /\ rd (puzzle s) ((M - 1) * N - 2) = Ok ((M - 1) * N - 1).
Proof.
  unfold run_autosolve. rewrite autosolve_phases. intros H.
  apply bind_inv in H as (? & s1 & _ & H). apply bind_inv in H as (? & s2 & _ & H).
  apply bind_inv in H as (step0 & s3 & Hs & H).
  rewrite closing_run in H. injection H as _ <-. cbn [puzzle].
  unfold solving in Hs.
  do 5 (apply bind_inv in Hs as (? & ? & _ & Hs)).
  apply bind_inv in Hs as ([] & s4 & He & Hs). unfold ret in Hs. injection Hs as _ <-.
  apply while_Done in He as (t & Ht). apply block_wrong_false in Ht as (-> & Ht). exact Ht.
Qed.

(** X10. [autosolve] returns only through the exit of its last loop: when
    it returns, on whatever board and vector it was called, the three tiles
    of the bottom-right block are home, that is, the cells M*N-2,
    (M-1)*N-1 and (M-1)*N-2 hold M*N-1, (M-1)*N and (M-1)*N-1. *)
Theorem X10_return_means_block_home (fuel : nat) (M N : Z) (p : list Z) (l : list key)
    (c : ascii) (step : Z) (s : state) :
  run_autosolve fuel M N p l c = Done step s ->
  rd (puzzle s) (M * N - 2) = Ok (M * N - 1)
  /\ rd (puzzle s) ((M - 1) * N - 1) = Ok ((M - 1) * N)
  /\ rd (puzzle s) ((M - 1) * N - 2) = Ok ((M - 1) * N - 1).
Proof. apply return_block_home. Qed.

Lemma X10_witness :
  exists s, run_autosolve 2 2 3 [1; 2; 3; 4; -1; 5] [] "y" = Done 5 s
            /\ rd (puzzle s) 4 = Ok 5 /\ rd (puzzle s) 2 = Ok 3 /\ rd (puzzle s) 1 = Ok 2.
Proof.
  assert (exists s, run_autosolve 2 2 3 [1; 2; 3; 4; -1; 5] [] "y" = Done 5 s) as [s E]
    by (eexists; vm_compute; reflexivity).
  exists s. split; [exact E|].
  exact (X10_return_means_block_home 2 2 3 [1; 2; 3; 4; -1; 5] [] "y" 5 s E).
Defined.

(** ** Where [move_h] and [move_v] take the blank *)

Lemma rd_insert (p : list Z) (i : nat) (v k : Z) :
  (i < length p)%nat ->
  rd (<[i := v]> p) k = if k =? Z.of_nat i then Ok v else rd p k.
Proof.
  intros Hi. unfold rd. destruct (Z.eqb_spec k (Z.of_nat i)) as [->|Hne].
  - destruct (Z.ltb_spec (Z.of_nat i) 0); [lia|].
    by rewrite Nat2Z.id, list_lookup_insert_eq.
  - destruct (Z.ltb_spec k 0); [done|]. by rewrite list_lookup_insert_ne by lia.
Qed.

Section Slides.
Variables M N : Z.
Hypothesis N_pos : 0 < N.

Lemma cell_mod (r c : Z) : 0 <= c < N -> (r * N + c) mod N = c.
Proof. intros H. rewrite Z.add_comm, Z_mod_plus_full. by apply Z.mod_small. Qed.

Lemma cell_div (r c : Z) : 0 <= c < N -> (r * N + c) / N = r.
Proof. intros H. rewrite Z.div_add_l by lia. rewrite Z.div_small by lia. lia. Qed.

Lemma cell_split (k : Z) : k = k / N * N + k mod N /\ 0 <= k mod N < N.
Proof. split; [pose proof (Z.div_mod k N); lia | apply Z.mod_pos_bound; lia]. Qed.

Lemma offset_nonzero (c : key) : offset N c ≠ 0.
Proof. destruct c; simpl; lia. Qed.

(** [change] in terms of cells: a legal key exchanges the blank with the
    cell at its offset. *)
Lemma change_at (p : list Z) (c : key) :
  Z.of_nat (length p) = M * N -> -1 ∈ p -> legal M N (blank_cell p) c ->
  0 <= blank_cell p + offset N c < M * N
  /\ exists y, rd p (blank_cell p + offset N c) = Ok y
       /\ change M N p c
          = Ok (<[Z.to_nat (blank_cell p + offset N c) := -1]>
                  (<[Z.to_nat (blank_cell p) := y]> p)).
Proof.
  intros Hlen Hin Hl.
  pose proof (position_lt _ _ Hin) as Hlt. pose proof (position_lookup _ _ Hin) as Hb.
  pose proof (cell_split (blank_cell p)) as [Hsplit Hcol].
  unfold blank_cell in *. set (pos := Z.of_nat (position (-1) p)) in *.
  assert (0 <= pos < M * N) as Hpos by lia.
  assert (0 <= pos / N) as Hrow by (apply Z.div_pos; lia).
  assert (pos / N < M) as Hrow' by (apply Z.div_lt_upper_bound; lia).
  assert (0 <= pos + offset N c < M * N) as Hrange by (destruct c; simpl in *; nia).
  split; [exact Hrange|].
  destruct (p !! Z.to_nat (pos + offset N c)) as [y|] eqn:Ey;
    [|apply lookup_ge_None in Ey; lia].
  exists y.
  assert (rd p pos = Ok (-1)) as Hrb by (by apply rd_lookup).
  assert (rd p (pos + offset N c) = Ok y) as Hry by (apply rd_Ok; split; [lia|done]).
  split; [exact Hry|].
  unfold change. rewrite find_position by done.
  change (Z.of_nat (position BLANK p)) with pos. simpl rbind.
  rewrite Z.quot_div_nonneg, Z.rem_mod_nonneg by lia.
  destruct c; simpl in *.
  - assert (0 < pos / N) by (apply Z.div_str_pos; lia).
    destruct (Z.ltb_spec 0 (pos / N)); [|lia].
    unfold swap. rewrite Hrb. simpl. replace (pos - N) with (pos + - N) by lia.
    by rewrite Hry.
  - destruct (Z.ltb_spec 0 (pos mod N)); [|lia].
    unfold swap. rewrite Hrb. simpl. replace (pos - 1) with (pos + -1) by lia.
    by rewrite Hry.
  - assert (pos / N < M - 1) by (apply Z.div_lt_upper_bound; lia).
    destruct (Z.ltb_spec (pos / N) (M - 1)); [|lia].
    unfold swap. rewrite Hrb. simpl. by rewrite Hry.
  - destruct (Z.ltb_spec (pos mod N) (N - 1)); [|lia].
    unfold swap. rewrite Hrb. simpl. by rewrite Hry.
Qed.

(** One legal key: the blank goes to the cell at the offset, the tile
    that was there comes to the cell of the blank, nothing else changes. *)
Lemma auto_change_slides (c : key) (s : state) :
  Z.of_nat (length (puzzle s)) = M * N -> NoDup (puzzle s) -> -1 ∈ puzzle s ->
  legal M N (blank_cell (puzzle s)) c ->
  exists s', auto_change M N c s = Done tt s'
    /\ sol s' = sol s ++ [c]
    /\ length (puzzle s') = length (puzzle s)
    /\ NoDup (puzzle s')
    /\ -1 ∈ puzzle s'
    /\ blank_cell (puzzle s') = blank_cell (puzzle s) + offset N c
    /\ rd (puzzle s') (blank_cell (puzzle s))
       = rd (puzzle s) (blank_cell (puzzle s) + offset N c)
    /\ (forall k, k ≠ blank_cell (puzzle s) -> k ≠ blank_cell (puzzle s) + offset N c ->
          rd (puzzle s') k = rd (puzzle s) k).
Proof.
  intros Hlen Hnd Hin Hl.
  destruct (change_at (puzzle s) c Hlen Hin Hl) as (Hrange & y & Hy & Hc).
  pose proof (offset_nonzero c) as Hoff.
  pose proof (position_lt _ _ Hin) as Hlt.
  pose proof (change_Permutation _ _ _ _ _ Hc) as Hperm.
  rewrite auto_change_run, Hc. eexists. split; [reflexivity|]. cbn [puzzle sol].
  revert Hperm Hy Hrange. unfold blank_cell in *.
  set (pos := Z.of_nat (position (-1) (puzzle s))). set (p := puzzle s) in *.
  intros Hperm Hy Hrange.
  assert (Z.to_nat (pos + offset N c) < length (<[Z.to_nat pos := y]> p))%nat as Hin1
    by (rewrite length_insert; lia).
  assert (Z.to_nat pos < length p)%nat as Hin0 by lia.
  split; [done|]. split; [by rewrite !length_insert|].
  split; [by rewrite Hperm|]. split; [by rewrite Hperm|].
  split; [|split].
  - rewrite (position_unique (-1) _ (Z.to_nat (pos + offset N c))); [lia| |].
    + by rewrite Hperm.
    + by apply list_lookup_insert_eq.
  - rewrite rd_insert by done.
    destruct (Z.eqb_spec pos (Z.of_nat (Z.to_nat (pos + offset N c)))); [lia|].
    rewrite rd_insert by done.
    destruct (Z.eqb_spec pos (Z.of_nat (Z.to_nat pos))); [by rewrite Hy|lia].
  - intros k Hk1 Hk2. rewrite rd_insert by done.
    destruct (Z.eqb_spec k (Z.of_nat (Z.to_nat (pos + offset N c)))); [lia|].
    rewrite rd_insert by done.
    destruct (Z.eqb_spec k (Z.of_nat (Z.to_nat pos))); [lia|done].
Qed.

(** [d] legal keys of the same kind: the blank goes [d] cells along the
    line of its offset, each tile on its way comes one cell back, nothing
    else changes. *)
Lemma times_slides (c : key) (d : nat) (s : state) :
  Z.of_nat (length (puzzle s)) = M * N -> NoDup (puzzle s) -> -1 ∈ puzzle s ->
  (forall j, 0 <= j < Z.of_nat d -> legal M N (blank_cell (puzzle s) + j * offset N c) c) ->
  exists s', times d (auto_change M N c) s = Done tt s'
    /\ sol s' = sol s ++ replicate d c
    /\ length (puzzle s') = length (puzzle s)
    /\ NoDup (puzzle s')
    /\ -1 ∈ puzzle s'
    /\ blank_cell (puzzle s') = blank_cell (puzzle s) + Z.of_nat d * offset N c
    /\ (forall j, 0 <= j < Z.of_nat d ->
          rd (puzzle s') (blank_cell (puzzle s) + j * offset N c)
          = rd (puzzle s) (blank_cell (puzzle s) + (j + 1) * offset N c))
    /\ (forall k, (forall j, 0 <= j <= Z.of_nat d -> k ≠ blank_cell (puzzle s) + j * offset N c) ->
          rd (puzzle s') k = rd (puzzle s) k).
Proof.
  revert s. induction d as [|d IH]; intros s Hlen Hnd Hin Hl.
  - exists s. simpl. rewrite app_nil_r. repeat split; try done; [lia|intros; lia].
  - pose proof (offset_nonzero c) as Hoff.
    destruct (auto_change_slides c s Hlen Hnd Hin) as
      (s1 & E1 & Hsol1 & Hlen1 & Hnd1 & Hin1 & Hb1 & Hy1 & Hk1).
    { specialize (Hl 0). rewrite Z.mul_0_l, Z.add_0_r in Hl. apply Hl. lia. }
    destruct (IH s1) as (s' & E' & Hsol' & Hlen' & Hnd' & Hin' & Hb' & Hy' & Hk');
      [by rewrite Hlen1|done|done| |].
    { intros j Hj. rewrite Hb1.
      replace (blank_cell (puzzle s) + offset N c + j * offset N c)
        with (blank_cell (puzzle s) + (j + 1) * offset N c) by lia.
      apply Hl. lia. }
    exists s'. simpl times. rewrite (bind_Done _ _ _ _ _ E1).
    split; [exact E'|]. split.
    { rewrite Hsol', Hsol1, <- app_assoc. done. }
    split; [by rewrite Hlen'|]. split; [done|]. split; [done|].
    rewrite Hb1 in *. set (pos := blank_cell (puzzle s)) in *.
    set (o := offset N c) in *.
    split; [lia|]. split.
    + intros j Hj. destruct (Z.eq_dec j 0) as [->|Hj0].
      * rewrite Z.mul_0_l, Z.add_0_r, Hk'; [by rewrite Hy1; f_equal; lia|].
        intros j Hj'. nia.
      * replace (pos + j * o) with (pos + o + (j - 1) * o) by lia.
        rewrite Hy' by lia. rewrite Hk1 by nia. f_equal. lia.
    + intros k Hk. rewrite Hk'.
      * apply Hk1.
        -- specialize (Hk 0). lia.
        -- specialize (Hk 1). lia.
      * intros j Hj. specialize (Hk (j + 1)). lia.
Qed.

Lemma locate_blank (s : state) :
  Z.of_nat (length (puzzle s)) = M * N -> -1 ∈ puzzle s ->
  locate M N (-1) s = Done (blank_cell (puzzle s)) s.
Proof. intros Hlen Hin. unfold locate, lift. by rewrite find_position. Qed.

Lemma move_h_run (c : Z) (s : state) :
  Z.of_nat (length (puzzle s)) = M * N -> NoDup (puzzle s) -> -1 ∈ puzzle s ->
  0 <= c < N ->
  exists s', move_h M N c s = Done tt s'
    /\ sol s' = sol s ++ replicate (Z.to_nat (Z.abs (blank_col N (puzzle s) - c)))
                           (if c <? blank_col N (puzzle s) then kA else kD)
    /\ length (puzzle s') = length (puzzle s)
    /\ NoDup (puzzle s')
    /\ -1 ∈ puzzle s'
    /\ blank_cell (puzzle s') = blank_row N (puzzle s) * N + c
    /\ (forall k, blank_row N (puzzle s) * N + c <= k < blank_cell (puzzle s) ->
          rd (puzzle s') (k + 1) = rd (puzzle s) k)
    /\ (forall k, blank_cell (puzzle s) < k <= blank_row N (puzzle s) * N + c ->
          rd (puzzle s') (k - 1) = rd (puzzle s) k)
    /\ (forall k, k < Z.min (blank_cell (puzzle s)) (blank_row N (puzzle s) * N + c)
                  \/ Z.max (blank_cell (puzzle s)) (blank_row N (puzzle s) * N + c) < k ->
          rd (puzzle s') k = rd (puzzle s) k).
Proof.
  intros Hlen Hnd Hin Hc.
  unfold move_h. rewrite (bind_Done _ _ _ _ _ (locate_blank s Hlen Hin)). cbv zeta.
  pose proof (cell_split (blank_cell (puzzle s))) as [Hsplit Hcol].
  assert (0 <= blank_cell (puzzle s)) as Hpos by (unfold blank_cell; lia).
  rewrite Z.rem_mod_nonneg by lia.
  unfold blank_col, blank_row. change (Z.of_nat (position (-1) (puzzle s))) with (blank_cell (puzzle s)).
  set (pos := blank_cell (puzzle s)) in *. set (col := pos mod N) in *.
  set (row := pos / N) in *.
  destruct (Z.ltb_spec 0 (col - c)) as [Hd|Hd].
  - destruct (times_slides kA (Z.to_nat (col - c)) s Hlen Hnd Hin)
      as (s' & E & Hsol & Hlen' & Hnd' & Hin' & Hb & Hy & Hk).
    { intros j Hj. simpl. fold pos.
      replace (pos + j * -1) with (row * N + (col - j)) by lia.
      rewrite cell_mod by lia. lia. }
    fold pos in Hb, Hy, Hk. simpl offset in *.
    rewrite Z2Nat.id in Hb, Hy, Hk by lia.
    exists s'. split; [exact E|].
    destruct (Z.ltb_spec c col); [|lia].
    replace (Z.abs (col - c)) with (col - c) by lia.
    split; [exact Hsol|]. split; [exact Hlen'|]. split; [exact Hnd'|]. split; [exact Hin'|].
    split; [lia|]. split; [|split].
    + intros k Hk'. specialize (Hy (pos - k - 1)).
      replace (pos + (pos - k - 1) * -1) with (k + 1) in Hy by lia.
      replace (pos + (pos - k - 1 + 1) * -1) with k in Hy by lia.
      apply Hy. lia.
    + intros k Hk'. lia.
    + intros k Hk'. apply Hk. intros j Hj. lia.
  - destruct (times_slides kD (Z.to_nat (-1 * (col - c))) s Hlen Hnd Hin)
      as (s' & E & Hsol & Hlen' & Hnd' & Hin' & Hb & Hy & Hk).
    { intros j Hj. simpl. fold pos.
      replace (pos + j * 1) with (row * N + (col + j)) by lia.
      rewrite cell_mod by lia. lia. }
    fold pos in Hb, Hy, Hk. simpl offset in *.
    rewrite Z2Nat.id in Hb, Hy, Hk by lia.
    exists s'. split; [exact E|].
    destruct (Z.ltb_spec c col); [lia|].
    replace (Z.abs (col - c)) with (-1 * (col - c)) by lia.
    split; [exact Hsol|]. split; [exact Hlen'|]. split; [exact Hnd'|]. split; [exact Hin'|].
    split; [lia|]. split; [|split].
    + intros k Hk'. lia.
    + intros k Hk'. specialize (Hy (k - pos - 1)).
      replace (pos + (k - pos - 1) * 1) with (k - 1) in Hy by lia.
      replace (pos + (k - pos - 1 + 1) * 1) with k in Hy by lia.
      apply Hy. lia.
    + intros k Hk'. apply Hk. intros j Hj. lia.
Qed.

Lemma move_v_run (r : Z) (s : state) :
  Z.of_nat (length (puzzle s)) = M * N -> NoDup (puzzle s) -> -1 ∈ puzzle s ->
  0 <= r < M ->
  exists s', move_v M N r s = Done tt s'
    /\ sol s' = sol s ++ replicate (Z.to_nat (Z.abs (blank_row N (puzzle s) - r)))
                           (if r <? blank_row N (puzzle s) then kW else kS)
    /\ length (puzzle s') = length (puzzle s)
    /\ NoDup (puzzle s')
    /\ -1 ∈ puzzle s'
    /\ blank_cell (puzzle s') = r * N + blank_col N (puzzle s)
    /\ (forall i, r <= i < blank_row N (puzzle s) ->
          rd (puzzle s') ((i + 1) * N + blank_col N (puzzle s))
          = rd (puzzle s) (i * N + blank_col N (puzzle s)))
    /\ (forall i, blank_row N (puzzle s) < i <= r ->
          rd (puzzle s') ((i - 1) * N + blank_col N (puzzle s))
          = rd (puzzle s) (i * N + blank_col N (puzzle s)))
    /\ (forall k, k mod N ≠ blank_col N (puzzle s)
                  \/ k / N < Z.min (blank_row N (puzzle s)) r
                  \/ Z.max (blank_row N (puzzle s)) r < k / N ->
          rd (puzzle s') k = rd (puzzle s) k).
Proof.
  intros Hlen Hnd Hin Hr.
  unfold move_v. rewrite (bind_Done _ _ _ _ _ (locate_blank s Hlen Hin)). cbv zeta.
  pose proof (cell_split (blank_cell (puzzle s))) as [Hsplit Hcol].
  pose proof (position_lt _ _ Hin) as Hlt.
  assert (0 <= blank_cell (puzzle s) < M * N) as Hpos by (unfold blank_cell; lia).
  rewrite Z.quot_div_nonneg by lia.
  unfold blank_col, blank_row. change (Z.of_nat (position (-1) (puzzle s))) with (blank_cell (puzzle s)).
  set (pos := blank_cell (puzzle s)) in *. set (col := pos mod N) in *.
  set (row := pos / N) in *.
  assert (0 <= row < M) as Hrow
    by (split; [apply Z.div_pos; lia | apply Z.div_lt_upper_bound; lia]).
  assert (forall k j, k = pos + j * N -> k mod N = col /\ k / N = row + j) as Hline.
  { intros k j ->. replace (pos + j * N) with ((row + j) * N + col) by lia.
    by rewrite cell_mod, cell_div. }
  destruct (Z.ltb_spec 0 (row - r)) as [Hd|Hd].
  - destruct (times_slides kW (Z.to_nat (row - r)) s Hlen Hnd Hin)
      as (s' & E & Hsol & Hlen' & Hnd' & Hin' & Hb & Hy & Hk).
    { intros j Hj. simpl. fold pos.
      assert ((j + 1) * N <= row * N) by (apply Z.mul_le_mono_nonneg_r; lia). lia. }
    fold pos in Hb, Hy, Hk. simpl offset in *.
    rewrite Z2Nat.id in Hb, Hy, Hk by lia.
    exists s'. split; [exact E|].
    destruct (Z.ltb_spec r row); [|lia].
    replace (Z.abs (row - r)) with (row - r) by lia.
    split; [exact Hsol|]. split; [exact Hlen'|]. split; [exact Hnd'|]. split; [exact Hin'|].
    split; [lia|]. split; [|split].
    + intros i Hi. specialize (Hy (row - i - 1)).
      replace (pos + (row - i - 1) * - N) with ((i + 1) * N + col) in Hy by lia.
      replace (pos + (row - i - 1 + 1) * - N) with (i * N + col) in Hy by lia.
      apply Hy. lia.
    + intros i Hi. lia.
    + intros k Hk'. apply Hk. intros j Hj ->.
      destruct (Hline (pos + j * - N) (- j)) as [Hm Hq]; [lia|]. lia.
  - destruct (times_slides kS (Z.to_nat (-1 * (row - r))) s Hlen Hnd Hin)
      as (s' & E & Hsol & Hlen' & Hnd' & Hin' & Hb & Hy & Hk).
    { intros j Hj. simpl. fold pos.
      assert ((j + 1) * N <= (r - row) * N) by (apply Z.mul_le_mono_nonneg_r; lia).
      assert ((r + 1) * N <= M * N) by (apply Z.mul_le_mono_nonneg_r; lia). lia. }
    fold pos in Hb, Hy, Hk. simpl offset in *.
    rewrite Z2Nat.id in Hb, Hy, Hk by lia.
    exists s'. split; [exact E|].
    destruct (Z.ltb_spec r row); [lia|].
    replace (Z.abs (row - r)) with (-1 * (row - r)) by lia.
    split; [exact Hsol|]. split; [exact Hlen'|]. split; [exact Hnd'|]. split; [exact Hin'|].
    split; [lia|]. split; [|split].
    + intros i Hi. lia.
    + intros i Hi. specialize (Hy (i - row - 1)).
      replace (pos + (i - row - 1) * N) with ((i - 1) * N + col) in Hy by lia.
      replace (pos + (i - row - 1 + 1) * N) with (i * N + col) in Hy by lia.
      apply Hy. lia.
    + intros k Hk'. apply Hk. intros j Hj ->.
      destruct (Hline (pos + j * N) j) as [Hm Hq]; [lia|]. lia.
Qed.

End Slides.

Lemma valid_board_shape (M N : Z) (p : list Z) :
  1 <= M -> 1 <= N -> valid_board M N p ->
  Z.of_nat (length p) = M * N /\ NoDup p /\ -1 ∈ p.
Proof.
  intros HM HN Hv. split; [apply valid_board_length; [nia|done]|].
  split; [by apply (valid_board_NoDup M N) | by apply (valid_board_blank M N)].
Qed.

Lemma move_h_cells (M N c : Z) (s s' : state) :
  move_h M N c s = Done tt s' -> puzzle s' ≡ₚ puzzle s.
Proof.
  apply (obeys_Done same_cells same_cells). apply obeys_move_h;
    first [ apply same_cells_refl | apply same_cells_trans
          | apply (same_cells_auto_change M N) | apply (same_cells_append M N) ].
Qed.

Lemma move_v_cells (M N r : Z) (s s' : state) :
  move_v M N r s = Done tt s' -> puzzle s' ≡ₚ puzzle s.
Proof.
  apply (obeys_Done same_cells same_cells). apply obeys_move_v;
    first [ apply same_cells_refl | apply same_cells_trans
          | apply (same_cells_auto_change M N) | apply (same_cells_append M N) ].
Qed.

(** X11. [move_h] with a column 0 <= c < N, on a board that satisfies the
    invariant: it returns, and the blank is then in column c of the row it
    was in.  [sol] has grown by one 'A' for each column that c lies to the
    left of the blank, or one 'D' for each column it lies to the right.
    Each tile that was between has moved one cell toward the place that the
    blank left, and no other cell has changed. *)
Theorem X11_move_h_contract (M N c : Z) (s : state) :
  1 <= M -> 1 <= N -> valid_board M N (puzzle s) -> 0 <= c < N ->
  exists s', move_h M N c s = Done tt s'
    /\ blank_cell (puzzle s') = blank_row N (puzzle s) * N + c
    /\ sol s' = sol s ++ replicate (Z.to_nat (Z.abs (blank_col N (puzzle s) - c)))
                           (if c <? blank_col N (puzzle s) then kA else kD)
    /\ (forall k, blank_row N (puzzle s) * N + c <= k < blank_cell (puzzle s) ->
          rd (puzzle s') (k + 1) = rd (puzzle s) k)
    /\ (forall k, blank_cell (puzzle s) < k <= blank_row N (puzzle s) * N + c ->
          rd (puzzle s') (k - 1) = rd (puzzle s) k)
    /\ (forall k, k < Z.min (blank_cell (puzzle s)) (blank_row N (puzzle s) * N + c)
                  \/ Z.max (blank_cell (puzzle s)) (blank_row N (puzzle s) * N + c) < k ->
          rd (puzzle s') k = rd (puzzle s) k).
Proof.
  intros HM HN Hv Hc. destruct (valid_board_shape M N _ HM HN Hv) as (Hlen & Hnd & Hin).
  destruct (move_h_run M N ltac:(lia) c s Hlen Hnd Hin Hc)
    as (s' & E & Hsol & _ & _ & _ & Hb & Hl & Hr & Hk).
  exists s'. auto 10.
Qed.

Lemma X11_witness :
  exists s', move_h 2 3 0 (State [1; 2; 3; 4; 5; -1] [] false [] []) = Done tt s'
             /\ blank_cell (puzzle s') = 3
             /\ sol s' = [kA; kA]
             /\ rd (puzzle s') 4 = Ok 4 /\ rd (puzzle s') 5 = Ok 5.
Proof.
  assert (valid_board 2 3 [1; 2; 3; 4; 5; -1]) as Hv
    by (apply (bool_decide_unpack _); vm_compute; exact I).
  destruct (X11_move_h_contract 2 3 0 (State [1; 2; 3; 4; 5; -1] [] false [] [])
              ltac:(lia) ltac:(lia) Hv ltac:(lia)) as (s' & E & Hb & Hsol & Hl & _ & _).
  exists s'. split; [exact E|]. split; [exact Hb|]. split; [exact Hsol|].
  split; [apply (Hl 3) | apply (Hl 4)]; vm_compute; split; congruence.
Defined.

(** X12. [move_v] with a row 0 <= r < M, on a board that satisfies the
    invariant: it returns, and the blank is then in row r of the column it
    was in.  [sol] has grown by one 'W' for each row that r lies above the
    blank, or one 'S' for each row it lies below.  Each tile of that column
    that was between has moved one row toward the place that the blank
    left, and no other cell has changed. *)
Theorem X12_move_v_contract (M N r : Z) (s : state) :
  1 <= M -> 1 <= N -> valid_board M N (puzzle s) -> 0 <= r < M ->
  exists s', move_v M N r s = Done tt s'
    /\ blank_cell (puzzle s') = r * N + blank_col N (puzzle s)
    /\ sol s' = sol s ++ replicate (Z.to_nat (Z.abs (blank_row N (puzzle s) - r)))
                           (if r <? blank_row N (puzzle s) then kW else kS)
    /\ (forall i, r <= i < blank_row N (puzzle s) ->
          rd (puzzle s') ((i + 1) * N + blank_col N (puzzle s))
          = rd (puzzle s) (i * N + blank_col N (puzzle s)))
    /\ (forall i, blank_row N (puzzle s) < i <= r ->
          rd (puzzle s') ((i - 1) * N + blank_col N (puzzle s))
          = rd (puzzle s) (i * N + blank_col N (puzzle s)))
    /\ (forall k, k mod N ≠ blank_col N (puzzle s)
                  \/ k / N < Z.min (blank_row N (puzzle s)) r
                  \/ Z.max (blank_row N (puzzle s)) r < k / N ->
          rd (puzzle s') k = rd (puzzle s) k).
Proof.
  intros HM HN Hv Hr. destruct (valid_board_shape M N _ HM HN Hv) as (Hlen & Hnd & Hin).
  destruct (move_v_run M N ltac:(lia) r s Hlen Hnd Hin Hr)
    as (s' & E & Hsol & _ & _ & _ & Hb & Hu & Hd & Hk).
  exists s'. auto 10.
Qed.

Lemma X12_witness :
  exists s', move_v 3 2 0 (State [1; 2; 3; 4; 5; -1] [] false [] []) = Done tt s'
             /\ blank_cell (puzzle s') = 1
             /\ sol s' = [kW; kW]
             /\ rd (puzzle s') 3 = Ok 2 /\ rd (puzzle s') 5 = Ok 4
             /\ rd (puzzle s') 4 = Ok 5.
Proof.
  assert (valid_board 3 2 [1; 2; 3; 4; 5; -1]) as Hv
    by (apply (bool_decide_unpack _); vm_compute; exact I).
  destruct (X12_move_v_contract 3 2 0 (State [1; 2; 3; 4; 5; -1] [] false [] [])
              ltac:(lia) ltac:(lia) Hv ltac:(lia)) as (s' & E & Hb & Hsol & Hu & _ & Hk).
  exists s'. split; [exact E|]. split; [exact Hb|]. split; [exact Hsol|].
  split; [|split].
  - apply (Hu 0). vm_compute. split; congruence.
  - apply (Hu 1). vm_compute. split; congruence.
  - apply (Hk 4). left. vm_compute. congruence.
Defined.

(** X13. [move_h(c)] followed by [move_v(r)], and [move_v(r)] followed by
    [move_h(c)], with 0 <= r < M and 0 <= c < N on a board that satisfies
    the invariant: both return with the blank in the cell of row r and
    column c, on a board that satisfies the invariant, and [sol] has grown
    by the horizontal and the vertical keys in the order of the calls.
    With r = M-1 and c = N-1, as before the last loop of [autosolve], the
    blank is in the bottom-right corner. *)
Theorem X13_blank_is_sent_to_a_cell (M N r c : Z) (s : state) :
  1 <= M -> 1 <= N -> valid_board M N (puzzle s) -> 0 <= r < M -> 0 <= c < N ->
  let h := replicate (Z.to_nat (Z.abs (blank_col N (puzzle s) - c)))
             (if c <? blank_col N (puzzle s) then kA else kD) in
  let v := replicate (Z.to_nat (Z.abs (blank_row N (puzzle s) - r)))
             (if r <? blank_row N (puzzle s) then kW else kS) in
  (exists s', (move_h M N c;; move_v M N r)%comp s = Done tt s'
     /\ valid_board M N (puzzle s')
     /\ blank_cell (puzzle s') = r * N + c
     /\ sol s' = sol s ++ h ++ v)
  /\ (exists s', (move_v M N r;; move_h M N c)%comp s = Done tt s'
        /\ valid_board M N (puzzle s')
        /\ blank_cell (puzzle s') = r * N + c
        /\ sol s' = sol s ++ v ++ h).
Proof.
  intros HM HN Hv Hr Hc h v.
  destruct (valid_board_shape M N _ HM HN Hv) as (Hlen & Hnd & Hin).
  assert (0 < N) as HN' by lia.
  pose proof (cell_split N HN' (blank_cell (puzzle s))) as [_ Hcol].
  split.
  - destruct (move_h_run M N HN' c s Hlen Hnd Hin Hc)
      as (s1 & E1 & Hsol1 & Hlen1 & Hnd1 & Hin1 & Hb1 & _).
    rewrite <- Hlen1 in Hlen.
    destruct (move_v_run M N HN' r s1 Hlen Hnd1 Hin1 Hr)
      as (s' & E' & Hsol' & _ & _ & _ & Hb' & _).
    exists s'. rewrite (bind_Done _ _ _ _ _ E1). split; [exact E'|].
    split; [|split].
    + unfold valid_board. rewrite (move_v_cells _ _ _ _ _ E'), (move_h_cells _ _ _ _ _ E1).
      exact Hv.
    + rewrite Hb'. unfold blank_col. rewrite Hb1, cell_mod by lia. done.
    + rewrite Hsol', Hsol1, <- app_assoc. unfold blank_row at 1 2.
      change (Z.of_nat (position (-1) (puzzle s1))) with (blank_cell (puzzle s1)).
      rewrite Hb1, cell_div by lia. done.
  - destruct (move_v_run M N HN' r s Hlen Hnd Hin Hr)
      as (s1 & E1 & Hsol1 & Hlen1 & Hnd1 & Hin1 & Hb1 & _).
    rewrite <- Hlen1 in Hlen.
    destruct (move_h_run M N HN' c s1 Hlen Hnd1 Hin1 Hc)
      as (s' & E' & Hsol' & _ & _ & _ & Hb' & _).
    exists s'. rewrite (bind_Done _ _ _ _ _ E1). split; [exact E'|].
    split; [|split].
    + unfold valid_board. rewrite (move_h_cells _ _ _ _ _ E'), (move_v_cells _ _ _ _ _ E1).
      exact Hv.
    + rewrite Hb'. unfold blank_row.
      change (Z.of_nat (position (-1) (puzzle s1))) with (blank_cell (puzzle s1)).
      rewrite Hb1, cell_div by done. done.
    + rewrite Hsol', Hsol1, <- app_assoc. unfold blank_col at 1 2.
      rewrite Hb1, cell_mod by done. done.
Qed.

Lemma X13_witness :
  exists s', (move_h 3 3 2;; move_v 3 3 2)%comp
               (State [1; -1; 3; 4; 2; 5; 7; 8; 6] [] false [] []) = Done tt s'
             /\ blank_cell (puzzle s') = 8
             /\ sol s' = [kD; kS; kS].
Proof.
  assert (valid_board 3 3 [1; -1; 3; 4; 2; 5; 7; 8; 6]) as Hv
    by (apply (bool_decide_unpack _); vm_compute; exact I).
  destruct (X13_blank_is_sent_to_a_cell 3 3 2 2
              (State [1; -1; 3; 4; 2; 5; 7; 8; 6] [] false [] [])
              ltac:(lia) ltac:(lia) Hv ltac:(lia) ltac:(lia))
    as [(s' & E & _ & Hb & Hsol) _].
  exists s'. split; [exact E|]. split; [exact Hb|]. exact Hsol.
Defined.

(** ** The last loop on the six arrangements of the block *)

Section EndgameCases.
Variables M N : Z.
Hypothesis M_ge : 2 <= M.
Hypothesis N_ge : 2 <= N.

Abbreviation B := (block (before_block M N) (inside_block M N)).
Abbreviation t1 := ((M - 1) * N - 1).
Abbreviation t2 := ((M - 1) * N).
Abbreviation t3 := (M * N - 1).

(** On a board with the invariant whose other cells are home, the three
    tiles of the block are in one of six arrangements: the three that the
    macro reaches from the canonical one, accepted by [can_solve], and the
    three others, which it rejects. *)
Lemma block_arrangements (a b c : Z) :
  valid_board M N (B a b c) ->
  (can_solve M N (B a b c) = Ok true
   /\ ((a, b, c) = (t1, t2, t3) \/ (a, b, c) = (t3, t1, t2) \/ (a, b, c) = (t2, t3, t1)))
  \/ (can_solve M N (B a b c) = Ok false
      /\ ((a, b, c) = (t2, t1, t3) \/ (a, b, c) = (t1, t3, t2) \/ (a, b, c) = (t3, t2, t1))).
Proof.
  intros Hv.
  assert ([a; b; c] ≡ₚ [t1; t2; t3]) as Hperm.
  { apply (block_Permutation_inv M N). rewrite <- (solved_board_block M N M_ge N_ge).
    exact Hv. }
  assert (a ∈ [t1; t2; t3] /\ b ∈ [t1; t2; t3] /\ c ∈ [t1; t2; t3]) as (Ia & Ib & Ic).
  { rewrite <- Hperm. rewrite !elem_of_cons. tauto. }
  assert (NoDup [a; b; c]) as Hnd3.
  { rewrite Hperm. repeat constructor; rewrite ?elem_of_cons, ?elem_of_nil; nia. }
  assert (a ≠ b /\ a ≠ c /\ b ≠ c) as (Hab & Hac & Hbc).
  { apply NoDup_cons in Hnd3 as [F1 F2]. apply NoDup_cons in F2 as [F3 _].
    apply not_elem_of_cons in F1 as [? F1]. apply not_elem_of_cons in F1 as [? _].
    apply not_elem_of_cons in F3 as [? _]. done. }
  rewrite !elem_of_cons, elem_of_nil in Ia, Ib, Ic.
  assert (((a, b, c) = (t1, t2, t3) \/ (a, b, c) = (t3, t1, t2) \/ (a, b, c) = (t2, t3, t1))
          \/ ((a, b, c) = (t2, t1, t3) \/ (a, b, c) = (t1, t3, t2) \/ (a, b, c) = (t3, t2, t1)))
    as [Heven|Hodd].
  { destruct Ia as [->|[->|[->|[]]]], Ib as [->|[->|[->|[]]]], Ic as [->|[->|[->|[]]]];
      try (exfalso; tauto); tauto. }
  - left. split; [|exact Heven].
    destruct (even_arrangement M N M_ge N_ge a b c Heven) as [_ Hpar].
    rewrite can_solve_rule by (try lia; exact Hv). by rewrite Hpar.
  - right. split; [|exact Hodd]. by apply odd_arrangement.
Qed.

Lemma block_wrong_unless (s : state) (a b c : Z) :
  puzzle s = B a b c -> (a, b, c) ≠ (t1, t2, t3) -> block_wrong M N s = Done true s.
Proof.
  intros Hp Hne.
  rewrite (block_wrong_block M N M_ge N_ge _ _ (before_block_length M N M_ge N_ge)
             (inside_block_length M N N_ge) s _ _ _ Hp).
  f_equal. apply negb_true_iff, andb_false_iff.
  destruct (Z.eqb_spec c t3) as [->|]; [|left; apply andb_false_iff; by left].
  destruct (Z.eqb_spec b t2) as [->|]; [|left; apply andb_false_iff; by right].
  destruct (Z.eqb_spec a t1) as [->|]; [done | by right].
Qed.

(** From an arrangement that [can_solve] rejects the macro leads to the
    next one, round and round: the loop uses up any allowance. *)
Lemma endgame_spins (fuel : nat) (s : state) (a b c : Z) :
  puzzle s = B a b c -> NoDup (B a b c) ->
  (a, b, c) = (t2, t1, t3) \/ (a, b, c) = (t1, t3, t2) \/ (a, b, c) = (t3, t2, t1) ->
  exists s', endgame M N fuel s = Halt OutOfFuel s'.
Proof.
  revert s a b c. induction fuel as [|fuel IH]; intros s a b c Hp Hnd Hodd;
    assert ((a, b, c) ≠ (t1, t2, t3)) as Hne
      by (destruct Hodd as [E|[E|E]]; rewrite E; intros H; injection H; intros; nia).
  - exists s.
    change (endgame M N 0 s)
      with (bind (block_wrong M N) (fun b : bool => if b then fail OutOfFuel else ret tt) s).
    by rewrite (bind_Done _ _ _ _ _ (block_wrong_unless s a b c Hp Hne)).
  - destruct (endgame_turn M N M_ge N_ge s a b c Hp Hnd Hne) as (s1 & Hp1 & _ & Hrun).
    rewrite Hrun. apply (IH s1 b c a Hp1).
    + apply (block_macro M N N_ge _ _ (before_block_length M N M_ge N_ge)
               (inside_block_length M N N_ge) a b c Hnd).
    + destruct Hodd as [[= -> -> ->]|[[= -> -> ->]|[= -> -> ->]]]; auto.
Qed.

(** From an arrangement that [can_solve] accepts the loop stops within two
    turns, on the canonical board. *)
Lemma endgame_settles (s : state) (a b c : Z) :
  puzzle s = B a b c -> NoDup (B a b c) ->
  (a, b, c) = (t1, t2, t3) \/ (a, b, c) = (t3, t1, t2) \/ (a, b, c) = (t2, t3, t1) ->
  exists (n : nat) (s' : state),
    (n <= 2)%nat
    /\ (forall fuel, (n <= fuel)%nat -> endgame M N fuel s = Done tt s')
    /\ sol s' = sol s ++ mjoin (replicate n [kA; kW; kD; kS])
    /\ puzzle s' = solved_board M N.
Proof.
  intros Hp Hnd Heven. rewrite (solved_board_block M N M_ge N_ge).
  destruct Heven as [E|[E|E]]; injection E as -> -> ->.
  - exists 0%nat, s. split; [lia|].
    split; [intros fuel _; by apply endgame_exit|]. split; [by rewrite app_nil_r|done].
  - destruct (endgame_turn M N M_ge N_ge s t3 t1 t2 Hp Hnd) as (s1 & Hp1 & Hs1 & Hrun).
    { intros [= ? ? ?]. nia. }
    exists 1%nat, s1. split; [lia|]. split.
    { intros [|fuel] Hf; [lia|]. rewrite Hrun. by apply endgame_exit. }
    split; [by rewrite Hs1|done].
  - destruct (endgame_turn M N M_ge N_ge s t2 t3 t1 Hp Hnd) as (s1 & Hp1 & Hs1 & Hrun1).
    { intros [= ? ? ?]. nia. }
    assert (NoDup (B t3 t1 t2)) as Hnd1.
    { apply (block_macro M N N_ge _ _ (before_block_length M N M_ge N_ge)
               (inside_block_length M N N_ge) t2 t3 t1 Hnd). }
    destruct (endgame_turn M N M_ge N_ge s1 t3 t1 t2 Hp1 Hnd1) as (s2 & Hp2 & Hs2 & Hrun2).
    { intros [= ? ? ?]. nia. }
    exists 2%nat, s2. split; [lia|]. split.
    { intros [|[|fuel]] Hf; [lia|lia|]. rewrite Hrun1, Hrun2. by apply endgame_exit. }
    split; [rewrite Hs2, Hs1, <- app_assoc; done|done].
Qed.

End EndgameCases.

(** X14. The last loop of [autosolve] on a board that satisfies the
    invariant and agrees with the canonical board in every cell but the
    three tiles of the bottom-right block, when [can_solve] rejects the
    board: the macro A, W, D, S takes the three tiles round without ever
    bringing them home, and the loop does not end; whatever the number of
    turns allowed, it is used up. *)
Theorem X14_endgame_never_ends_when_rejected (M N : Z) (s : state) :
  2 <= M -> 2 <= N ->
  valid_board M N (puzzle s) ->
  (forall k : nat,
      k ≠ corner M N -> k ≠ S (corner M N) -> k ≠ (corner M N + Z.to_nat N)%nat ->
      puzzle s !! k = solved_board M N !! k) ->
  can_solve M N (puzzle s) = Ok false ->
  forall fuel, exists s', endgame M N fuel s = Halt OutOfFuel s'.
Proof.
  intros HM HN Hv Hag Hcs fuel.
  assert (Z.of_nat (length (puzzle s)) = M * N) as Hlen
    by (apply valid_board_length; [nia|done]).
  destruct (agree_block M N HM HN (puzzle s) Hlen Hag) as (a & b & c & Hp).
  rewrite Hp in Hv, Hcs.
  destruct (block_arrangements M N HM HN a b c Hv) as [[Hyes _]|[_ Hodd]]; [congruence|].
  apply (endgame_spins M N HM HN fuel s a b c Hp); [|exact Hodd].
  by apply (valid_board_NoDup M N).
Qed.

Lemma X14_witness :
  exists s', endgame 3 3 7 (State [1; 2; 3; 4; 6; 5; 7; 8; -1] [] true [] [])
             = Halt OutOfFuel s'.
Proof.
  apply (X14_endgame_never_ends_when_rejected 3 3
           (State [1; 2; 3; 4; 6; 5; 7; 8; -1] [] true [] [])); [lia|lia| | |].
  - apply (bool_decide_unpack _). vm_compute. exact I.
  - intros k K1 K2 K3. do 9 (destruct k as [|k]; [done || (exfalso; vm_compute in K1, K2, K3; congruence)|]).
    done.
  - vm_compute. reflexivity.
Defined.

(** ** Boards of two rows and two columns *)

Lemma move_h_answer (M N c : Z) (s s' : state) :
  1 <= M -> 1 <= N -> move_h M N c s = Done tt s' -> same_answer M N s s'.
Proof.
  intros HM HN. apply (obeys_Done (same_answer M N) (same_answer M N)).
  apply obeys_move_h;
    first [ apply same_answer_refl | apply same_answer_trans
          | by apply same_answer_auto_change | by apply same_answer_append ].
Qed.

Lemma move_v_answer (M N r : Z) (s s' : state) :
  1 <= M -> 1 <= N -> move_v M N r s = Done tt s' -> same_answer M N s s'.
Proof.
  intros HM HN. apply (obeys_Done (same_answer M N) (same_answer M N)).
  apply obeys_move_v;
    first [ apply same_answer_refl | apply same_answer_trans
          | by apply same_answer_auto_change | by apply same_answer_append ].
Qed.

(** With two rows and two columns there is no row and no column to solve
    before the block: [autosolve] sends the blank to the corner and enters
    its last loop. *)
Lemma solving_two_by_two (fuel : nat) (s : state) :
  solving 2 2 fuel s = (move_h 2 2 1;; move_v 2 2 1;; endgame 2 2 fuel;; ret 0)%comp s.
Proof. reflexivity. Qed.

Lemma corner_board (p : list Z) :
  Z.of_nat (length p) = 4 -> -1 ∈ p -> blank_cell p = 3 ->
  exists a b c, p = block (before_block 2 2) (inside_block 2 2) a b c.
Proof.
  intros Hlen Hin Hb. pose proof (position_lookup _ _ Hin) as Hl.
  unfold blank_cell in Hb. replace (position (-1) p) with 3%nat in Hl by lia.
  destruct p as [|a [|b [|c [|d [|]]]]]; simpl in Hlen; try lia.
  injection Hl as ->. by exists a, b, c.
Qed.

(** From the prompt to the last loop on a 2 x 2 board: the blank is in
    the corner, and the invariant and the answer of [can_solve] are kept. *)
Lemma two_by_two_to_corner (s : state) :
  valid_board 2 2 (puzzle s) ->
  exists s' a b c,
    (move_h 2 2 1;; move_v 2 2 1)%comp s = Done tt s'
    /\ puzzle s' = block (before_block 2 2) (inside_block 2 2) a b c
    /\ valid_board 2 2 (puzzle s')
    /\ can_solve 2 2 (puzzle s') = can_solve 2 2 (puzzle s).
Proof.
  intros Hv.
  destruct (valid_board_shape 2 2 _ ltac:(lia) ltac:(lia) Hv) as (Hlen & Hnd & Hin).
  destruct (move_h_run 2 2 ltac:(lia) 1 s Hlen Hnd Hin ltac:(lia))
    as (s1 & E1 & _ & Hlen1 & Hnd1 & Hin1 & Hb1 & _).
  assert (Z.of_nat (length (puzzle s1)) = 2 * 2) as Hlen1' by (by rewrite Hlen1).
  destruct (move_v_run 2 2 ltac:(lia) 1 s1 Hlen1' Hnd1 Hin1 ltac:(lia))
    as (s' & E' & _ & Hlen' & _ & Hin' & Hb' & _).
  unfold blank_col in Hb'. rewrite Hb1, (cell_mod 2) in Hb' by lia.
  destruct (corner_board (puzzle s')) as (a & b & c & Hp); [lia|done|done|].
  destruct (move_h_answer 2 2 1 s s1 ltac:(lia) ltac:(lia) E1 Hv) as [Hv1 Hc1].
  destruct (move_v_answer 2 2 1 s1 s' ltac:(lia) ltac:(lia) E' Hv1) as [Hv' Hc'].
  exists s', a, b, c. rewrite (bind_Done _ _ _ _ _ E1).
  split; [exact E'|]. split; [exact Hp|]. split; [exact Hv'|]. by rewrite Hc'.
Qed.

(** X15. [autosolve] on the boards of two rows and two columns that
    satisfy the invariant, with whatever [sol] holds and whatever is
    answered at the prompt.  When [can_solve] accepts the board, the run
    returns, with the canonical board, as soon as two turns of the last
    loop are allowed.  When [can_solve] rejects it, the run does not end:
    whatever the number of turns allowed, the last loop uses it up. *)
Theorem X15_two_by_two_boards (p : list Z) (l : list key) (c : ascii) :
  valid_board 2 2 p ->
  (can_solve 2 2 p = Ok true ->
   exists step s,
     (forall fuel, (2 <= fuel)%nat -> run_autosolve fuel 2 2 p l c = Done step s)
     /\ puzzle s = solved_board 2 2)
  /\ (can_solve 2 2 p = Ok false ->
      forall fuel, exists s, run_autosolve fuel 2 2 p l c = Halt OutOfFuel s).
Proof.
  intros Hv.
  destruct (answer_sets_flag c (State p l true [] [])) as [b Hb].
  cbn [puzzle sol console history] in Hb. set (s1 := State p l b [] []) in *.
  assert (forall fuel, run_autosolve fuel 2 2 p l c
                       = (step <- solving 2 2 fuel;; closing step)%comp s1) as Hrun.
  { intros fuel. unfold run_autosolve. rewrite autosolve_phases.
    rewrite (bind_Done (set_printout true) _ (State p l true [] []) (State p l true [] []) tt
               eq_refl).
    by rewrite (bind_Done _ _ _ _ tt Hb). }
  destruct (two_by_two_to_corner s1 Hv) as (s2 & x & y & z & E & Hp & Hv2 & Hc2).
  assert (NoDup (block (before_block 2 2) (inside_block 2 2) x y z)) as Hnd
    by (rewrite <- Hp; by apply (valid_board_NoDup 2 2)).
  apply bind_inv in E as ([] & s1' & E1 & E2).
  rewrite Hp in Hv2, Hc2. cbn [puzzle s1] in Hc2.
  destruct (block_arrangements 2 2 ltac:(lia) ltac:(lia) x y z Hv2) as [[Hyes Heven]|[Hno Hodd]].
  - split; [intros _|congruence].
    destruct (endgame_settles 2 2 ltac:(lia) ltac:(lia) s2 x y z Hp Hnd Heven)
      as (n & s3 & Hn & Hend & _ & Hp3).
    eexists _, _. split.
    + intros fuel Hf. rewrite Hrun, (bind_Done _ _ s1 s3 0).
      * rewrite closing_run. reflexivity.
      * rewrite solving_two_by_two, (bind_Done _ _ _ _ _ E1), (bind_Done _ _ _ _ _ E2).
        rewrite (bind_Done _ _ _ _ _ (Hend fuel ltac:(lia))). done.
    + exact Hp3.
  - split; [congruence|intros _ fuel].
    destruct (endgame_spins 2 2 ltac:(lia) ltac:(lia) fuel s2 x y z Hp Hnd Hodd) as [s3 Hs3].
    exists s3. rewrite Hrun. apply bind_Halt.
    rewrite solving_two_by_two, (bind_Done _ _ _ _ _ E1), (bind_Done _ _ _ _ _ E2).
    by apply bind_Halt.
Qed.

Lemma X15_witness :
  (exists step s, run_autosolve 2 2 2 [3; 1; -1; 2] [] "y" = Done step s
                  /\ puzzle s = [1; 2; 3; -1])
  /\ (exists s, run_autosolve 50 2 2 [1; 3; -1; 2] [] "y" = Halt OutOfFuel s).
Proof.
  split.
  - assert (valid_board 2 2 [3; 1; -1; 2]) as Hv
      by (apply (bool_decide_unpack _); vm_compute; exact I).
    destruct (X15_two_by_two_boards [3; 1; -1; 2] [] "y" Hv) as [Hyes _].
    destruct Hyes as (step & s & Hrun & Hp); [vm_compute; reflexivity|].
    exists step, s. split; [apply Hrun; lia | exact Hp].
  - assert (valid_board 2 2 [1; 3; -1; 2]) as Hv
      by (apply (bool_decide_unpack _); vm_compute; exact I).
    destruct (X15_two_by_two_boards [1; 3; -1; 2] [] "y" Hv) as [_ Hno].
    apply Hno. vm_compute. reflexivity.
Defined.

(** ** A row is reported when it is complete *)

Lemma reports_after_any (N : Z) (prev : option (list Z)) (co : list event) :
  reports_after N None co -> reports_after N prev co.
Proof. destruct co as [|[p|i|c] co]; simpl; tauto. Qed.

Lemma reports_after_app (N : Z) (prev : option (list Z)) (co1 co2 : list event) :
  reports_after N prev co1 -> reports_after N None co2 -> reports_after N prev (co1 ++ co2).
Proof.
  revert prev. induction co1 as [|[p|i|c] co1 IH]; intros prev H1 H2; simpl in *.
  - by apply reports_after_any.
  - by apply IH.
  - split; [tauto|]. apply IH; tauto.
  - by apply IH.
Qed.

Lemma reports_after_Printed (N : Z) (l : list key) : reports_after N None (Printed <$> l).
Proof. induction l as [|c l IH]; simpl; done. Qed.

Lemma reports_after_split (N : Z) (prev : option (list Z)) (co co1 co2 : list event) (i : Z) :
  reports_after N prev co -> co = co1 ++ RowReport i :: co2 ->
  (co1 = [] /\ exists q, prev = Some q /\ row_home N i q)
  \/ (exists co0 q, co1 = co0 ++ [Screen q] /\ row_home N i q).
Proof.
  revert prev co. induction co1 as [|e co1 IH]; intros prev co H ->; simpl in H.
  - left. split; [done|]. destruct prev as [q|]; [|tauto]. exists q. tauto.
  - right.
    assert (exists prev', reports_after N prev' (co1 ++ RowReport i :: co2)
                          /\ (forall q, prev' = Some q -> e = Screen q)) as (prev' & H' & He).
    { destruct e as [p|k|c].
      - exists (Some p). split; [done|]. by intros q [= ->].
      - exists None. split; [tauto|done].
      - exists None. split; [done|done]. }
    destruct (IH prev' _ H' eq_refl) as [[-> (q & -> & Hq)]|(co0 & q & -> & Hq)].
    + exists [], q. by rewrite (He q eq_refl).
    + exists (e :: co0), q. done.
Qed.

Section Truthful.
Variables M N : Z.

Lemma reports_rows_refl (s : state) : reports_rows N s s.
Proof. exists []. by rewrite app_nil_r. Qed.

Lemma reports_rows_trans (s1 s2 s3 : state) :
  reports_rows N s1 s2 -> reports_rows N s2 s3 -> reports_rows N s1 s3.
Proof.
  intros (co1 & E1 & H1) (co2 & E2 & H2). exists (co1 ++ co2).
  split; [by rewrite E2, E1, app_assoc | by apply reports_after_app].
Qed.

Lemma reports_rows_same_console (s s' : state) :
  console s' = console s -> reports_rows N s s'.
Proof. intros E. exists []. by rewrite app_nil_r. Qed.

Lemma reports_rows_apply_change (c : key) :
  obeys (reports_rows N) (reports_rows N) (apply_change M N c).
Proof.
  intros s. rewrite apply_change_run.
  destruct (change M N (puzzle s) c); by apply reports_rows_same_console.
Qed.

Lemma reports_rows_set_sol (l : list key) :
  obeys (reports_rows N) (reports_rows N) (set_sol l).
Proof. intros s. by apply reports_rows_same_console. Qed.

Lemma reports_rows_render : obeys (reports_rows N) (reports_rows N) render.
Proof.
  intros s. rewrite render_run. eexists. split; [reflexivity|]. by destruct (printout s).
Qed.

Lemma reports_rows_auto_change (c : key) :
  obeys (reports_rows N) (reports_rows N) (auto_change M N c).
Proof.
  apply obeys_auto_change_steps;
    first [ apply reports_rows_refl | apply reports_rows_trans
          | apply reports_rows_apply_change | apply reports_rows_set_sol
          | apply reports_rows_render ].
Qed.

Lemma reports_rows_append (l : list key) :
  obeys (reports_rows N) (reports_rows N) (append M N l).
Proof.
  apply obeys_append_steps;
    first [ apply reports_rows_refl | apply reports_rows_trans
          | apply reports_rows_apply_change | apply reports_rows_set_sol
          | apply reports_rows_render ].
Qed.

Ltac reports_facts :=
  first [ apply reports_rows_refl | apply reports_rows_trans
        | apply reports_rows_auto_change | apply reports_rows_append ].

(** A scan that answers [true] has found every cell home. *)
Lemma all_home_inv (n : nat) (k : Z) (s s' : state) :
  all_home n k s = Done true s' ->
  s' = s /\ forall j, 0 <= j < Z.of_nat n -> rd (puzzle s) (k + j) = Ok (k + j + 1).
Proof.
  revert k. induction n as [|n IH]; intros k; simpl.
  - intros [= <-]. split; [done|]. intros j Hj. lia.
  - intros H. apply bind_inv in H as (v & t & Hv & H). apply peek_inv in Hv as [-> Hv].
    destruct (Z.eqb_spec v (k + 1)) as [->|]; simpl in H; [|discriminate].
    destruct (IH _ H) as [-> Hrest]. split; [done|]. intros j Hj.
    destruct (Z.eq_dec j 0) as [->|Hj0]; [by rewrite Z.add_0_r|].
    replace (k + j) with (k + 1 + (j - 1)) by lia. apply Hrest. lia.
Qed.

Lemma reports_rows_solve_row (fuel : nat) (i step : Z) :
  obeys (reports_rows N) (reports_rows N) (solve_row M N fuel i step).
Proof.
  unfold solve_row.
  apply obeys_bind; [reports_facts..| |intros _].
  { apply obeys_upfrom; [reports_facts..|]. intros k. apply obeys_place; reports_facts. }
  apply obeys_bind; [reports_facts..| |intros _].
  { apply obeys_solve_1x2; reports_facts. }
  apply obeys_bind; [reports_facts..| |intros correct].
  { apply obeys_all_home; reports_facts. }
  apply obeys_bind; [reports_facts..| |intros _].
  { destruct correct; simpl; [apply obeys_ret; reports_facts | reports_facts]. }
  intros s. unfold bind at 1.
  pose proof (obeys_all_home (reports_rows N) (reports_rows N) reports_rows_refl
                reports_rows_trans reports_rows_refl reports_rows_trans
                (Z.to_nat N) (i * N) s) as Hscan.
  destruct (all_home (Z.to_nat N) (i * N) s) as [check t|e t] eqn:E; [|exact Hscan].
  destruct check.
  - apply all_home_inv in E as [-> Hrow]. rewrite row_report_run.
    eexists. split; [reflexivity|]. destruct (printout s); [|done].
    simpl. split; [|apply reports_after_Printed].
    intros j Hj. apply Hrow. lia.
  - eapply reports_rows_trans; [exact Hscan|]. apply reports_rows_refl.
Qed.

Lemma reports_rows_solve_rows (fuel n : nat) (i step : Z) :
  obeys (reports_rows N) (reports_rows N) (solve_rows M N fuel n i step).
Proof.
  revert i step. induction n as [|n IH]; intros i step; simpl.
  - apply obeys_ret; reports_facts.
  - apply obeys_bind; [reports_facts..|apply reports_rows_solve_row|intros a; apply IH].
Qed.

Lemma reports_rows_solving (fuel : nat) :
  obeys (reports_rows N) (reports_rows N) (solving M N fuel).
Proof.
  unfold solving.
  apply obeys_bind; [reports_facts..|apply reports_rows_solve_rows|intros step].
  apply obeys_bind; [reports_facts..| |intros _].
  { destruct (3 <=? M); [apply obeys_last_three | apply obeys_ret]; reports_facts. }
  apply obeys_bind; [reports_facts..|apply obeys_solve_2x1; reports_facts|intros _].
  apply obeys_bind; [reports_facts..|apply obeys_move_h; reports_facts|intros _].
  apply obeys_bind; [reports_facts..|apply obeys_move_v; reports_facts|intros _].
  apply obeys_bind; [reports_facts..|apply obeys_endgame; reports_facts|intros _].
  apply obeys_ret; reports_facts.
Qed.

Lemma reports_rows_autosolve (fuel : nat) (c : ascii) :
  obeys (reports_rows N) (reports_rows N) (autosolve M N fuel c).
Proof.
  intros s. rewrite autosolve_phases. revert s.
  apply obeys_bind; [reports_facts..| |intros _].
  { intros s. by apply reports_rows_same_console. }
  apply obeys_bind; [reports_facts..| |intros _].
  { intros s. destruct (answer_sets_flag c s) as [b ->]. by apply reports_rows_same_console. }
  apply obeys_bind; [reports_facts..|apply reports_rows_solving|intros step].
  intros s. rewrite closing_run. eexists. split; [reflexivity|].
  apply reports_after_app; [|done].
  destruct (printout s); [apply reports_after_Printed|done].
Qed.

End Truthful.

(** X16. On the console that a run of [autosolve] leaves, however the run
    ends, each report of a row (the line "The solution of row # ... is:")
    comes right after a display of the board, and on the board displayed
    that row is in canonical order: a row is reported only when all its
    cells are home. *)
Theorem X16_reported_rows_are_complete (fuel : nat) (M N : Z) (p : list Z) (l : list key)
    (c : ascii) (co1 co2 : list event) (i : Z) :
  console (final (run_autosolve fuel M N p l c)) = co1 ++ RowReport i :: co2 ->
  exists co0 q, co1 = co0 ++ [Screen q] /\ row_home N i q.
Proof.
  intros Hco.
  destruct (obeys_final (reports_rows N) (autosolve M N fuel c) (State p l true [] [])
              (reports_rows_autosolve M N fuel c)) as (co & E & Hrep).
  fold (run_autosolve fuel M N p l c) in E. simpl in E. rewrite E in Hco.
  destruct (reports_after_split N None co co1 co2 i Hrep Hco) as [[_ (q & Hq & _)]|H];
    [discriminate|exact H].
Qed.

Lemma X16_witness :
  exists co0 q co2,
    console (final (run_autosolve 1 5 3
                      [8; 4; 6; 12; 2; 13; 7; 3; 10; 1; -1; 5; 11; 9; 14] [] "y"))
    = co0 ++ Screen q :: RowReport 0 :: co2
    /\ row_home 3 0 q.
Proof.
  assert (RowReport 0 ∈ console (final (run_autosolve 1 5 3
            [8; 4; 6; 12; 2; 13; 7; 3; 10; 1; -1; 5; 11; 9; 14] [] "y"))) as Hin
    by (apply (bool_decide_unpack _); vm_compute; exact I).
  apply list_elem_of_split in Hin as (co1 & co2 & E).
  destruct (X16_reported_rows_are_complete 1 5 3 _ [] "y" co1 co2 0 E) as (co0 & q & -> & Hq).
  exists co0, q, co2. split; [|exact Hq]. rewrite E, <- app_assoc. reflexivity.
Defined.

(** ** A board of one row *)


(** ** Keys played one by one and keys played together *)

Lemma append_each_app (M N : Z) (l1 l2 : list key) (s : state) :
  append_each M N (l1 ++ l2) s = (append_each M N l1;; append_each M N l2)%comp s.
Proof.
  revert s. induction l1 as [|c l1 IH]; intros s; simpl; [done|].
  rewrite bind_assoc. apply bind_ext; intros _ s1.
  rewrite bind_assoc. apply bind_ext; intros _ s2. apply IH.
Qed.

(** [append_each] does not look at [sol]. *)
Lemma append_each_sol (M N : Z) (ks l' : list key) (s : state) :
  append_each M N ks (State (puzzle s) l' (printout s) (console s) (history s))
  = match append_each M N ks s with
    | Done a t => Done a (State (puzzle t) l' (printout t) (console t) (history t))
    | Halt e t => Halt e (State (puzzle t) l' (printout t) (console t) (history t))
    end.
Proof.
  revert s. induction ks as [|c ks IH]; intros s; simpl; [done|].
  unfold bind at 1 3. rewrite !apply_change_run. cbn [puzzle sol printout console history].
  destruct (change M N (puzzle s) c) as [p'|e]; [|done].
  unfold bind at 1 2. rewrite !render_run. cbn [puzzle sol printout console history].
  apply (IH (State p' (sol s) (printout s)
               (console s ++ (if printout s then [Screen p'] else [])) (history s ++ [p']))).
Qed.

Lemma append_run (M N : Z) (l : list key) (s : state) :
  append M N l s
  = match append_each M N l s with
    | Done a t => Done a (State (puzzle t) (sol s ++ l) (printout t) (console t) (history t))
    | Halt e t => Halt e (State (puzzle t) (sol s ++ l) (printout t) (console t) (history t))
    end.
Proof. unfold append, bind, get, set_sol. apply append_each_sol. Qed.

(** X18. Keys can be played together or one after the other.  When
    [append] with the keys s1 returns, [append] with s1 followed by s2 does
    what [append] with s2 does next; and when [auto_change] with a key
    returns, [append] with that one key returns with the same board, the
    same [sol] and the same display. *)
Theorem X18_keys_together_or_in_turn (M N : Z) (l1 l2 : list key) (c : key)
    (s s1 : state) :
  (append M N l1 s = Done tt s1 -> append M N (l1 ++ l2) s = append M N l2 s1)
  /\ (auto_change M N c s = Done tt s1 -> append M N [c] s = Done tt s1).
Proof.
  split.
  - rewrite !append_run, append_each_app. unfold bind.
    destruct (append_each M N l1 s) as [[] t|e t] eqn:E1; [|discriminate].
    intros [= <-]. cbn [puzzle sol printout console history].
    rewrite (append_each_sol M N l2 (sol s ++ l1) t), <- app_assoc.
    by destruct (append_each M N l2 t).
  - rewrite auto_change_run, append_run. simpl. unfold bind at 1.
    rewrite apply_change_run. destruct (change M N (puzzle s) c) as [p'|e]; [|discriminate].
    intros [= <-]. unfold bind. rewrite render_run. done.
Qed.

Lemma X18_witness :
  let s := State [1; 2; -1; 3] [] true [] [] in
  exists s1, append 2 2 [kD] s = Done tt s1
             /\ append 2 2 ([kD] ++ [kA; kW]) s = append 2 2 [kA; kW] s1
             /\ auto_change 2 2 kD s = Done tt s1.
Proof.
  intros s.
  assert (exists s1, auto_change 2 2 kD s = Done tt s1) as [s1 E]
    by (eexists; vm_compute; reflexivity).
  destruct (X18_keys_together_or_in_turn 2 2 [kD] [kA; kW] kD s s1) as [H1 H2].
  exists s1. split; [exact (H2 E)|]. split; [exact (H1 (H2 E)) | exact E].
Defined.
